(** * Spatio-temporal clustering and hot-spot analysis: a shallow embedding

    The Python package [SpatioTemporal] (files [models.py] and
    [spatio_temporal.py]) is embedded function by function.

    - Python [int] values are [Z]; Python [float] values are idealised as
      real numbers ([R]); the operations that raise in Python
      (division by zero, [math.sqrt] of a negative number, indexing
      out of range, a missing dictionary key, [max] of an empty
      sequence) raise here too, through the [result] monad.
    - The estimators of scikit-learn ([fit] followed by [labels_]) and
      [haversine_distances] are external: they are section variables.
    - [GetisCluster] objects are mutated in place by the Gi* pass and
      are shared between windows, so their mutable fields live in a
      store indexed by object identity.
    - Float arithmetic is exact here and integers are unbounded: the
      rounding of a float operation and the wrap-around of a
      fixed-width estimator label are not modelled. The statements
      about the Gi* pass therefore say which windows make it raise and
      what it never raises, and name the exception only where rounding
      cannot change it (the division by [n - 1 = 0]); the values in the
      closed examples are those of exact arithmetic.
    - Of [utils.py], what [display] computes for its figures is
      embedded (the grid cells it visits, its tallies and its label
      count); the figures themselves and the random generators are
      not. *)

From Stdlib Require Import ZArith List Bool Lia Reals Lra.
From stdpp Require Import base option list gmap.
Import ListNotations.

Local Open Scope Z_scope.

(** * The embedding *)

(** ** Exceptions and the result monad *)

Inductive exn : Type :=
| ZeroDivisionError
| ValueError
| KeyError
| IndexError.

Inductive result (A : Type) : Type :=
| Ok (a : A)
| Raise (e : exn).
Arguments Ok {A} a.
Arguments Raise {A} e.

#[global] Instance result_ret : MRet result := fun A a => Ok a.

#[global] Instance result_bind : MBind result := fun A B k r =>
  match r with
  | Ok a => k a
  | Raise e => Raise e
  end.

(** A [for] loop whose body may raise: the accumulator is threaded from
    left to right and the first exception ends the loop. *)
Fixpoint for_each {A S : Type} (body : S -> A -> result S) (xs : list A) (s : S)
  : result S :=
  match xs with
  | [] => Ok s
  | x :: xs' => s' ← body s x; for_each body xs' s'
  end.

(** ** Python built-ins used by the package *)

(** [range(start, stop)]. *)
Definition range (start stop : Z) : list Z :=
  map (fun k => start + Z.of_nat k) (seq 0 (Z.to_nat (stop - start))).

(** [range(start, stop, step)]; a zero step raises [ValueError]. *)
Definition range3 (start stop step : Z) : result (list Z) :=
  if step =? 0 then Raise ValueError
  else
    let n := if 0 <? step
             then (stop - start + step - 1) / step
             else (start - stop - step - 1) / (- step) in
    Ok (map (fun k => start + step * Z.of_nat k) (seq 0 (Z.to_nat n))).

(** [l[j]]: a negative index counts from the end, an index out of range
    raises [IndexError]. *)
Definition getitem {A : Type} (l : list A) (j : Z) : result A :=
  let j' := if j <? 0 then j + Z.of_nat (length l) else j in
  if j' <? 0 then Raise IndexError
  else match l !! Z.to_nat j' with
       | Some a => Ok a
       | None => Raise IndexError
       end.

(** [max(xs)] over integers; the empty sequence raises [ValueError]. *)
Definition py_max (xs : list Z) : result Z :=
  match xs with
  | [] => Raise ValueError
  | x :: xs' => Ok (fold_left Z.max xs' x)
  end.

(** ** models.py *)

Record Point : Type := mkPoint { p_x : R; p_y : R }.

Record TPoint : Type := mkTPoint { tp_x : R; tp_y : R; tp_t : Z }.

Record Trajectory : Type := mkTrajectory
  { tps : TPoint; tpe : TPoint; tr_m : Point }.

(** [Trajectory.__init__]: the midpoint defaults to the mean of the two
    end points. *)
Definition Trajectory_init (s e : TPoint) (m : option Point) : Trajectory :=
  mkTrajectory s e
    (match m with
     | None => mkPoint ((tp_x e + tp_x s) / 2)%R ((tp_y e + tp_y s) / 2)%R
     | Some p => p
     end).

Record TPartition : Type := mkTPartition
  { ts : Z; te : Z; tpoints : list TPoint }.

Record ClusterPoint : Type := mkClusterPoint
  { cp_x : R; cp_y : R; cp_t : Z; cp_c : Z }.

(** [a / b] on floats (and on integers, once injected): a zero divisor
    raises [ZeroDivisionError]. *)
Definition true_div (a b : R) : result R :=
  if Req_dec_T b 0 then Raise ZeroDivisionError else Ok (a / b)%R.

(** [math.sqrt]: a negative argument raises [ValueError]. *)
Definition math_sqrt (a : R) : result R :=
  if Rlt_dec a 0 then Raise ValueError else Ok (sqrt a).

(** [sum] of a list of floats, and of a list of integers. *)
Definition sum_R (xs : list R) : R := fold_left Rplus xs 0%R.
Definition sum_Z (xs : list Z) : Z := fold_left Z.add xs 0.

(** [len] as a Python integer. *)
Definition len {A : Type} (l : list A) : Z := Z.of_nat (length l).

(** The centroid computed by [Cluster.__init__]; an empty [cpoints]
    divides by zero. *)
Definition centroid (cps : list ClusterPoint) : result Point :=
  mx ← true_div (sum_R (map cp_x cps)) (IZR (len cps));
  my ← true_div (sum_R (map cp_y cps)) (IZR (len cps));
  Ok (mkPoint mx my).

(** A [Cluster]. Every cluster the package builds is given its label
    [c] explicitly. *)
Record Cluster : Type := mkCluster
  { cl_id : Z; cpoints : list ClusterPoint; cl_m : Point; cl_t : Z; cl_c : Z }.

Definition Cluster_init (id : Z) (cps : list ClusterPoint) (t c : Z)
  : result Cluster :=
  m ← centroid cps;
  Ok (mkCluster id cps m t c).

(** A [GetisCluster] is the only object of the package that is mutated
    after its construction, and the same object is reachable from
    several windows. It is modelled as its identity [gc_ref] together
    with the fields that are never assigned again; the fields [gi],
    [significant] and [spot] are kept in the store, at [gc_ref].
    Its inherited label [c] is always [None] and is left out. *)
Inductive Spot : Type := Hot | Cold.

Record GetisCluster : Type := mkGetisCluster
  { gc_ref : nat;
    gc_id : Z;
    gc_cpoints : list ClusterPoint;
    gc_m : Point;
    gc_t : Z;
    gc_x : Z }.

Record GetisState : Type := mkGetisState
  { gi : option R; significant : bool; spot : option Spot }.

Abbreviation store := (list GetisState).

(** [GetisCluster.__init__(id, cpoints, t)], allocating the new object
    at the end of the store. *)
Definition GetisCluster_init (id : Z) (cps : list ClusterPoint) (t : Z)
    (st : store) : result (GetisCluster * store) :=
  m ← centroid cps;
  Ok (mkGetisCluster (length st) id cps m t (len cps),
      st ++ [mkGetisState None false None]).

(** The values a caller reads off a returned [GetisCluster]. *)
Definition report (st : store) (gc : GetisCluster) : option GetisState :=
  st !! gc_ref gc.

(** ** spatio_temporal.py: [ST._create_G] *)

Section CreateG.

Variable interval : Z.

(** The inner loop over the trajectories of one partition. *)
Definition partition_points (t1 t2 : Z) (trajs : list Trajectory) : list TPoint :=
  fold_left
    (fun Gj tr =>
       if (tp_t (tps tr) >? t2) || (tp_t (tpe tr) <? t1) then Gj
       else Gj ++ [mkTPoint (p_x (tr_m tr)) (p_y (tr_m tr)) t1])
    trajs [].

Definition _create_G (trajs : list Trajectory) : result (list TPartition) :=
  time_range ← py_max (map (fun tr => tp_t (tpe tr)) trajs);
  starts ← range3 0 time_range interval;
  Ok (fold_left
        (fun G t =>
           let t1 := t in
           let t2 := t + interval in
           G ++ [mkTPartition t1 t2 (partition_points t1 t2 trajs)])
        starts []).

End CreateG.

(** ** spatio_temporal.py: [ST._g_clustering] *)

(** The [clusters] dictionary of [_g_clustering]: Python dictionaries
    keep insertion order, so it is an association list. *)
Fixpoint dict_append (k : Z) (v : R * R) (d : list (Z * list (R * R)))
  : list (Z * list (R * R)) :=
  match d with
  | [] => [(k, [v])]
  | (k', vs) :: d' =>
      if k =? k' then (k', vs ++ [v]) :: d' else (k', vs) :: dict_append k v d'
  end.

Section GClustering.

(** The estimator built from [self.g_clustering] and its arguments,
    followed by [fit] and [labels_]. *)
Variable g_clustering : list (R * R) -> list Z.

(** The loop that groups the points of a partition by label. *)
Definition group_by_label (data : list (R * R)) (labels : list Z)
  : result (list (Z * list (R * R))) :=
  for_each
    (fun clusters i =>
       l ← getitem labels i;
       if l =? -1 then Ok clusters
       else
         d ← getitem data i;
         Ok (dict_append l d clusters))
    (range 0 (len data)) [].

(** The loop that turns the groups into [Cluster] objects; the state is
    the list [Kj] and the running [id]. *)
Definition make_clusters (Gj_ts : Z) (clusters : list (Z * list (R * R)))
    (id : Z) : result (list Cluster * Z) :=
  for_each
    (fun '(Kj, id) '(k, v) =>
       let cps := map (fun coords => mkClusterPoint coords.1 coords.2 Gj_ts k) v in
       cl ← Cluster_init id cps Gj_ts k;
       Ok (Kj ++ [cl], id + 1))
    clusters ([], id).

Definition _g_clustering (G : list TPartition) : result (list (list Cluster)) :=
  '(K, _) ← for_each
    (fun '(K, id) Gj =>
       let data := map (fun m => (tp_x m, tp_y m)) (tpoints Gj) in
       if len data =? 0 then Ok (K ++ [[]], id)
       else
         let labels := g_clustering data in
         clusters ← group_by_label data labels;
         '(Kj, id') ← make_clusters (ts Gj) clusters id;
         Ok (K ++ [Kj], id'))
    G ([], 0);
  Ok K.

End GClustering.

(** ** spatio_temporal.py: [STC] *)

Section STC.

Variable g_clustering : list (R * R) -> list Z.
Variable v_clustering : list (R * R) -> list Z.
Variable interval : Z.
Variable w : Z.

(** [[K[j] for j in range(i, i + w)]], flattened. *)
Definition window {A : Type} (K : list (list A)) (i : Z) : result (list A) :=
  parts ← for_each (fun acc j => Kj ← getitem K j; Ok (acc ++ [Kj]))
                    (range i (i + w)) [];
  Ok (concat parts).

(** The comprehension
    [[Cluster(i, cpoints=cluster.cpoints, t=cluster.t, c=labels[i])
      for i, cluster in enumerate(Vj) if keep(labels[i])]]. *)
Definition rewrap (keep : Z -> bool) (labels : list Z) (Vj : list Cluster)
  : result (list Cluster) :=
  for_each
    (fun acc '(i, cluster) =>
       l ← getitem labels i;
       if keep l then
         c ← getitem labels i;
         cl ← Cluster_init i (cpoints cluster) (cl_t cluster) c;
         Ok (acc ++ [cl])
       else Ok acc)
    (zip (range 0 (len Vj)) Vj) [].

Definition _v_clustering (K : list (list Cluster))
  : result (list (list Cluster) * list (list Cluster)) :=
  for_each
    (fun '(R, N) i =>
       Vj ← window K i;
       let x1 := map (fun cluster => p_x (cl_m cluster)) Vj in
       let x2 := map (fun cluster => p_y (cl_m cluster)) Vj in
       let data := zip x1 x2 in
       if len data =? 0 then Ok (R ++ [[]], N ++ [[]])
       else
         let labels := v_clustering data in
         Rj ← rewrap (fun l => negb (l =? -1)) labels Vj;
         Nj ← rewrap (fun l => l =? -1) labels Vj;
         Ok (R ++ [Rj], N ++ [Nj]))
    (range 0 (len K - w + 1)) ([], []).

Definition STC_fit (trajs : list Trajectory)
  : result (list (list Cluster) * list (list Cluster)) :=
  G ← _create_G interval trajs;
  K ← _g_clustering g_clustering G;
  _v_clustering K.

End STC.

(** ** spatio_temporal.py: [STHS] *)

(** [math.radians]. *)
Definition radians (d : R) : R := (d * PI / 180)%R.

Section STHS.

Variable g_clustering : list (R * R) -> list Z.

(** [haversine_distances(p1, p2)[0][0]] for two points given as
    (latitude, longitude) in radians. *)
Variable haversine_distances : R * R -> R * R -> R.

Variable interval : Z.
Variable w : Z.

Definition _create_getis_clusters (K : list (list Cluster)) (st : store)
  : result (list (list GetisCluster) * store) :=
  for_each
    (fun '(GC, st) Kj =>
       '(GCj, st') ← for_each
         (fun '(GCj, st) cluster =>
            '(gc, st') ← GetisCluster_init (cl_id cluster) (cpoints cluster)
                                           (cl_c cluster) st;
            Ok (GCj ++ [gc], st'))
         Kj ([], st);
       Ok (GC ++ [GCj], st'))
    K ([], st).

(** The distance between the centroids of two clusters, as
    [_calculate_distance] computes it: [(lat, lon) = (m.y, m.x)]. *)
Definition centroid_distance (a b : GetisCluster) : R :=
  haversine_distances (radians (p_y (gc_m a)), radians (p_x (gc_m a)))
                      (radians (p_y (gc_m b)), radians (p_x (gc_m b))).

(** [distances[ka][kb] = v]; the row [distances[ka]] was assigned just
    before the loop that stores into it. *)
Definition setitem2 (distances : gmap Z (gmap Z R)) (ka kb : Z) (v : R)
  : gmap Z (gmap Z R) :=
  <[ka := <[kb := v]> (default ∅ (distances !! ka))]> distances.

(** The body of the [try] block of [_calculate_distance]. The
    dictionary is mutated in place, so what was stored before an
    exception stays: the state at the exit is returned together with the
    exception, if any. *)
Fixpoint try_rows (GC : list (list GetisCluster)) (clustera : GetisCluster)
    (js : list Z) (distances : gmap Z (gmap Z R))
  : gmap Z (gmap Z R) * option exn :=
  match js with
  | [] => (distances, None)
  | j :: js' =>
      match getitem GC j with
      | Raise e => (distances, Some e)
      | Ok GCjb =>
          try_rows GC clustera js'
            (fold_left
               (fun d clusterb =>
                  setitem2 d (gc_id clustera) (gc_id clusterb)
                           (centroid_distance clustera clusterb))
               GCjb distances)
      end
  end.

Definition _calculate_distance (GC : list (list GetisCluster))
  : result (gmap Z (gmap Z R)) :=
  for_each
    (fun distances i =>
       GCja ← getitem GC i;
       for_each
         (fun distances clustera =>
            let distances := <[gc_id clustera := ∅]> distances in
            match try_rows GC clustera (range i (i + w)) distances with
            | (distances, None) => Ok distances
            | (distances, Some IndexError) => Ok distances
            | (_, Some e) => Raise e
            end)
         GCja distances)
    (range 0 (len GC)) ∅.

(** [distances[ka][kb]], [None] standing for [KeyError]. *)
Definition getitem2 (distances : gmap Z (gmap Z R)) (ka kb : Z) : option R :=
  row ← distances !! ka; row !! kb.

(** The nested function [weight] of [_calculate_getis_ord]. *)
Definition weight (distances : gmap Z (gmap Z R)) (z : Z)
    (gc1 gc2 : GetisCluster) : result R :=
  match getitem2 distances (gc_id gc1) (gc_id gc2) with
  | Some d => Ok (1 * exp (- (IZR z + 1) * d))%R
  | None =>
      match getitem2 distances (gc_id gc2) (gc_id gc1) with
      | Some d => Ok (1 * exp (- (IZR z + 1) * d))%R
      | None => Raise KeyError
      end
  end.

(** The inner loop over [gc2]: the sums [swx], [sw] and [sw2]. *)
Definition weighted_sums (distances : gmap Z (gmap Z R))
    (Vj : list GetisCluster) (gc1 : GetisCluster) : result (R * R * R) :=
  for_each
    (fun '(swx, sw, sw2) gc2 =>
       let z := Z.abs (gc_t gc1 - gc_t gc2) in
       wt ← weight distances z gc1 gc2;
       Ok (swx + wt * IZR (gc_x gc2), sw + wt, sw2 + wt ^ 2)%R)
    Vj (0, 0, 0)%R.

(** The right-hand side of the assignment to [gc1.gi]. *)
Definition gi_star (n : Z) (x_bar S swx sw sw2 : R) : result R :=
  q ← true_div (IZR n * sw2 - sw ^ 2) (IZR (n - 1));
  r ← math_sqrt q;
  true_div (swx - x_bar * sw) (S * r).

(** The chain of comparisons on [a]. *)
Definition critical_value (a : R) : result R :=
  if Req_dec_T a 0.10 then Ok 1.65%R
  else if Req_dec_T a 0.05 then Ok 1.96%R
  else if Req_dec_T a 0.01 then Ok 2.58%R
  else Raise ValueError.

(** The two assignments that follow the computation of [gc1.gi]. *)
Definition classify (critical g : R) (s : GetisState) : GetisState :=
  if Rle_dec g (- critical) then
    mkGetisState (gi s) true (Some Cold)
  else if Rge_dec g critical then
    mkGetisState (gi s) true (Some Hot)
  else s.

Definition set_gi (g : R) (s : GetisState) : GetisState :=
  mkGetisState (Some g) (significant s) (spot s).

(** The body of the loop over [gc1]. *)
Definition score_cluster (distances : gmap Z (gmap Z R)) (a : R)
    (Vj : list GetisCluster) (n : Z) (x_bar S : R)
    (st : store) (gc1 : GetisCluster) : result store :=
  '(swx, sw, sw2) ← weighted_sums distances Vj gc1;
  g ← gi_star n x_bar S swx sw sw2;
  let st := alter (set_gi g) (gc_ref gc1) st in
  critical ← critical_value a;
  Ok (alter (classify critical g) (gc_ref gc1) st).

(** The body of the loop over the windows, [V.append(Vj)] apart. *)
Definition score_window (distances : gmap Z (gmap Z R)) (a : R)
    (Vj : list GetisCluster) (st : store) : result store :=
  let n := len Vj in
  if n =? 0 then Ok st
  else
    x_bar ← true_div (IZR (sum_Z (map gc_x Vj))) (IZR n);
    v ← true_div (IZR (sum_Z (map (fun gc => gc_x gc ^ 2) Vj))) (IZR n);
    S ← math_sqrt (v - x_bar ^ 2);
    for_each (score_cluster distances a Vj n x_bar S) Vj st.

Definition _calculate_getis_ord (GC : list (list GetisCluster)) (a : R)
    (st : store) : result (list (list GetisCluster) * store) :=
  distances ← _calculate_distance GC;
  for_each
    (fun '(V, st) i =>
       Vj ← window w GC i;
       st' ← score_window distances a Vj st;
       Ok (V ++ [Vj], st'))
    (range 0 (len GC - w + 1)) ([], st).

Definition STHS_fit (trajs : list Trajectory) (a : R)
  : result (list (list GetisCluster) * store) :=
  G ← _create_G interval trajs;
  K ← _g_clustering g_clustering G;
  '(GC, st) ← _create_getis_clusters K [];
  _calculate_getis_ord GC a st.

End STHS.

(** Modelled from the documentation of scikit-learn: the great-circle
    distance [haversine_distances] returns for two points given as
    (latitude, longitude) in radians. It instantiates the section
    variable in the closed examples. *)
Definition haversine (p q : R * R) : R :=
  (2 * asin (sqrt ((sin ((p.1 - q.1) / 2)) ^ 2
                   + cos p.1 * cos q.1 * (sin ((p.2 - q.2) / 2)) ^ 2)))%R.

(** * Specification vocabulary *)

(** ** Time partitions *)

(** The overlap test of [_create_G], as the specification words it. *)
Definition overlaps (tr : Trajectory) (t1 t2 : Z) : Prop :=
  ¬ (tp_t (tps tr) > t2 ∨ tp_t (tpe tr) < t1).

#[global] Instance overlaps_dec tr t1 t2 : Decision (overlaps tr t1 t2).
Proof.
  unfold overlaps.
  destruct (Z_gt_dec (tp_t (tps tr)) t2); [right; tauto |].
  destruct (Z_lt_dec (tp_t (tpe tr)) t1); [right; tauto |].
  left; tauto.
Defined.

(** The point [_create_G] puts in a partition starting at [t1]. *)
Definition midpoint_at (t1 : Z) (tr : Trajectory) : TPoint :=
  mkTPoint (p_x (tr_m tr)) (p_y (tr_m tr)) t1.

(** The first multiple of [interval] that is not below [m]. *)
Definition next_multiple (interval m : Z) : Z :=
  interval * ((m + interval - 1) / interval).

(** A time [t] is covered by a partition of [G]. *)
Definition covered (G : list TPartition) (t : Z) : Prop :=
  ∃ p, p ∈ G ∧ ts p ≤ t < te p.

(** The partition [_create_G] emits for the start time [t]. *)
Definition partition_at (interval : Z) (trajs : list Trajectory) (t : Z)
  : TPartition :=
  mkTPartition t (t + interval) (partition_points t (t + interval) trajs).

(** ** Windows and the STC pass *)

(** The clusters of the partitions [i], ..., [i + w - 1]. *)
Definition window_slice {A : Type} (w : Z) (K : list (list A)) (i : nat)
  : list A :=
  concat (take (Z.to_nat w) (drop i K)).

(** The number of windows: [len(K) - w + 1], or none when that is
    negative. *)
Definition window_count {A : Type} (w : Z) (K : list (list A)) : nat :=
  Z.to_nat (len K - w + 1).

(** The mean of the member points. *)
Definition mean_point (cps : list ClusterPoint) : Point :=
  mkPoint (sum_R (map cp_x cps) / IZR (len cps))%R
          (sum_R (map cp_y cps) / IZR (len cps))%R.

(** The centroids handed to the window-level estimator. *)
Definition centroids (Vj : list Cluster) : list (R * R) :=
  map (λ cluster, (p_x (cl_m cluster), p_y (cl_m cluster))) Vj.

(** The cluster at position [i] of the window, re-wrapped with its new
    label if [keep] accepts that label. *)
Definition relabel_at (keep : Z → bool) (labels : list Z)
    (ic : nat * Cluster) : option Cluster :=
  l ← labels !! ic.1;
  if keep l
  then Some (mkCluster (Z.of_nat ic.1) (cpoints ic.2)
                       (mean_point (cpoints ic.2)) (cl_t ic.2) l)
  else None.

(** The contract of an estimator: one label per point. *)
Definition one_label_per_point (clustering : list (R * R) → list Z) : Prop :=
  ∀ data, length (clustering data) = length data.

(** Every cluster has at least one member point (the invariant
    [Cluster.__init__] enforces by dividing by [len(cpoints)]). *)
Definition members_nonempty (K : list (list Cluster)) : Prop :=
  Forall (Forall (λ cluster, cpoints cluster ≠ [])) K.

(** What the STC pass puts in [R[i]] ([keep] = "is not noise") and in
    [N[i]] ([keep] = "is noise"). *)
Definition window_relabelled (keep : Z → bool)
    (v_clustering : list (R * R) → list Z) (w : Z)
    (K : list (list Cluster)) (i : nat) : list Cluster :=
  let Vj := window_slice w K i in
  omap (relabel_at keep (v_clustering (centroids Vj)))
       (zip (seq 0 (length Vj)) Vj).

Definition not_noise (l : Z) : bool := negb (l =? -1).
Definition is_noise (l : Z) : bool := l =? -1.

(** A cluster of the window paired with its position and its new
    label, re-wrapped as the comprehensions of [_v_clustering] do. *)
Definition rewrapped (x : nat * (Cluster * Z)) : Cluster :=
  mkCluster (Z.of_nat x.1) (cpoints x.2.1) (mean_point (cpoints x.2.1))
            (cl_t x.2.1) x.2.2.

(** The clusters of a window with their positions and new labels. *)
Definition labelled_window (v_clustering : list (R * R) → list Z)
    (Vj : list Cluster) : list (nat * (Cluster * Z)) :=
  zip (seq 0 (length Vj)) (zip Vj (v_clustering (centroids Vj))).

(** ** The distance table *)

(** Successive assignments [m[k] = v]. *)
Definition insert_all {V : Type} (kvs : list (Z * V)) (m : gmap Z V)
  : gmap Z V :=
  fold_left (λ m kv, <[kv.1 := kv.2]> m) kvs m.

(** The row of the distance table that belongs to [clustera], once the
    clusters [bs] have been stored in it. *)
Definition distance_row (hav : R * R → R * R → R) (clustera : GetisCluster)
    (bs : list GetisCluster) : gmap Z R :=
  insert_all (map (λ b, (gc_id b, centroid_distance hav clustera b)) bs) ∅.

(** The clusters of [GC] with the index of their partition, in the order
    in which the two outer loops of [_calculate_distance] visit them. *)
Definition indexed {A : Type} (GC : list (list A)) : list (nat * A) :=
  concat (imap (λ i GCj, map (λ a, (i, a)) GCj) GC).

(** The cluster ids of [GC] are pairwise distinct, as those that
    [_g_clustering] assigns are. *)
Definition distinct_ids (GC : list (list GetisCluster)) : Prop :=
  NoDup (map gc_id (concat GC)).

(** ** The hot-spot pass *)

(** The [GetisCluster] that [_create_getis_clusters] builds from a
    cluster, allocated at [ref]: its third constructor argument, the
    timestamp, receives [cluster.c]. *)
Definition getis_of (ref : nat) (cluster : Cluster) : GetisCluster :=
  mkGetisCluster ref (cl_id cluster) (cpoints cluster)
                 (mean_point (cpoints cluster)) (cl_c cluster)
                 (len (cpoints cluster)).

(** The lists of [GetisCluster] built from [K] when the store holds
    [ref] objects already. *)
Fixpoint getis_partitions (ref : nat) (K : list (list Cluster))
  : list (list GetisCluster) :=
  match K with
  | [] => []
  | Kj :: K' =>
      imap (λ k cluster, getis_of (ref + k) cluster) Kj
      :: getis_partitions (ref + length Kj) K'
  end.

Definition fresh : GetisState := mkGetisState None false None.

(** The weights of [gc1] are available for the clusters of [Vj]. *)
Definition weights_available (distances : gmap Z (gmap Z R))
    (gc1 : GetisCluster) (Vj : list GetisCluster) : Prop :=
  ∀ gc2, gc2 ∈ Vj →
    ∃ wt, weight distances (Z.abs (gc_t gc1 - gc_t gc2)) gc1 gc2 = Ok wt.

(** The table [_calculate_distance] returns. *)
Definition distance_table (hav : R * R → R * R → R) (w : Z)
    (GC : list (list GetisCluster)) : gmap Z (gmap Z R) :=
  insert_all
    (map (λ ia : nat * GetisCluster,
            (gc_id ia.2, distance_row hav ia.2 (window_slice w GC ia.1)))
         (indexed GC))
    ∅.

(** A window on which the Gi* formula divides by zero: it holds a single
    cluster, or clusters that all have the same feature value [x]. *)
Definition degenerate (Vj : list GetisCluster) : Prop :=
  length Vj = 1%nat
  ∨ (Vj ≠ [] ∧ ∃ x0, Forall (λ gc, gc_x gc = x0) Vj).

(** The mutable fields of a cluster scored with Gi* = [g] and not
    marked. *)
Definition scored (g : R) : GetisState := mkGetisState (Some g) false None.

(** ** Sums of squares *)

(** [n * sum(x^2) - sum(x)^2] for a list of [n] numbers. *)
Definition dispersion (xs : list R) : R :=
  (INR (length xs) * sum_R (map (λ x, x ^ 2) xs) - sum_R xs ^ 2)%R.

(** * Example inputs *)

(** A trajectory from time 5 to time 25. *)
Definition tr_5_25 : Trajectory :=
  Trajectory_init (mkTPoint 0 0 5) (mkTPoint 2 2 25) None.

(** A trajectory that starts and ends at time 10. *)
Definition tr_10_10 : Trajectory :=
  Trajectory_init (mkTPoint 1 1 10) (mkTPoint 1 1 10) None.

(** Six trajectories whose midpoints fall, one, two and three at a time,
    into the partitions [[0,10)], [[10,20)] and [[20,30)], and an
    estimator that puts all the points it is given in cluster 0. The
    per-partition pass turns them into [K_ABC]. *)
Definition trajectory_at (x y : R) (t1 t2 : Z) : Trajectory :=
  Trajectory_init (mkTPoint x y t1) (mkTPoint x y t2) (Some (mkPoint x y)).

Definition trajs_ABC : list Trajectory :=
  [trajectory_at 0 0 2 5;
   trajectory_at 90 0 12 15; trajectory_at 90 0 12 15;
   trajectory_at 180 0 22 25; trajectory_at 180 0 22 25;
   trajectory_at 180 0 22 25].

Definition all_in_one (data : list (R * R)) : list Z := map (λ _, 0) data.

(** Three partitions, starting at times 0, 10 and 20, that hold one
    cluster each, as [_g_clustering] returns them: ids 0, 1 and 2, every
    cluster with the label 0 of its own partition, and 1, 2 and 3 member
    points at longitudes 0, 90 and 180 on the equator. *)
Definition cluster_at (id : Z) (members : nat) (x y : R) (t c : Z) : Cluster :=
  let cps := replicate members (mkClusterPoint x y t c) in
  mkCluster id cps (mean_point cps) t c.

Definition cluster_A : Cluster := cluster_at 0 1 0 0 0 0.
Definition cluster_B : Cluster := cluster_at 1 2 90 0 10 0.
Definition cluster_C : Cluster := cluster_at 2 3 180 0 20 0.

Definition K_ABC : list (list Cluster) := [[cluster_A]; [cluster_B]; [cluster_C]].

(** An estimator that calls the first point noise and puts the others
    in cluster 0. *)
Definition first_is_noise (data : list (R * R)) : list Z :=
  match data with
  | [] => []
  | _ :: rest => -1 :: map (λ _, 0) rest
  end.

(** The [GetisCluster] objects built from [K_ABC], starting from an empty
    store. *)
Definition gc_A : GetisCluster := getis_of 0 cluster_A.
Definition gc_B : GetisCluster := getis_of 1 cluster_B.
Definition gc_C : GetisCluster := getis_of 2 cluster_C.

Definition GC_ABC : list (list GetisCluster) := [[gc_A]; [gc_B]; [gc_C]].

(** Two clusters with one member point each, in one partition. *)
Definition gc_A' : GetisCluster := getis_of 1 (cluster_at 1 1 90 0 0 1).

(** * Further vocabulary *)

(** ** The per-partition clustering *)

(** The points of a partition, as handed to the estimator. *)
Definition partition_data (Gj : TPartition) : list (R * R) :=
  map (λ m, (tp_x m, tp_y m)) (tpoints Gj).

(** The points of [data] that carry the label [k], in their order. *)
Definition labelled (k : Z) (data : list (R * R)) (labels : list Z)
  : list (R * R) :=
  map fst (filter (λ p, p.2 = k) (zip data labels)).

(** The member points built from the points of [Gj] labelled [k]. *)
Definition members_of (g : list (R * R) → list Z) (Gj : TPartition) (k : Z)
  : list ClusterPoint :=
  map (λ coords, mkClusterPoint coords.1 coords.2 (ts Gj) k)
      (labelled k (partition_data Gj) (g (partition_data Gj))).

(** The estimator returned a label for every point of [Gj]. *)
Definition labels_cover (g : list (R * R) → list Z) (Gj : TPartition) : Prop :=
  (length (partition_data Gj) ≤ length (g (partition_data Gj)))%nat.

(** The [clusters] dictionary once the given points, paired with their
    labels, have been visited. *)
Definition groups (pairs : list ((R * R) * Z)) : list (Z * list (R * R)) :=
  fold_left (λ d p, if p.2 =? -1 then d else dict_append p.2 p.1 d) pairs [].

(** The clusters [Kj] group the points of [Gj] by the labels of the
    estimator [g]: the clusters have pairwise different labels, none of
    them -1; the members of a cluster are the points that carry its
    label, in their order, stamped with the start time of the partition
    and that label; its centroid is the mean of its members; and every
    point whose label is not -1 is a member of the cluster that carries
    its label. *)
Definition grouped (g : list (R * R) → list Z) (Gj : TPartition)
    (Kj : list Cluster) : Prop :=
  NoDup (map cl_c Kj)
  ∧ (∀ cluster, cluster ∈ Kj →
       cl_c cluster ≠ -1
       ∧ cl_t cluster = ts Gj
       ∧ cpoints cluster = members_of g Gj (cl_c cluster)
       ∧ cl_m cluster = mean_point (cpoints cluster))
  ∧ (∀ pt k, (pt, k) ∈ zip (partition_data Gj) (g (partition_data Gj)) →
       k ≠ -1 →
       ∃ cluster, cluster ∈ Kj ∧ cl_c cluster = k
         ∧ mkClusterPoint pt.1 pt.2 (ts Gj) k ∈ cpoints cluster).

(** The labels of [labels] other than -1, each once, in the order of
    their first appearance. *)
Definition first_seen (labels : list Z) : list Z :=
  fold_left
    (λ seen l,
       if l =? -1 then seen
       else if bool_decide (l ∈ seen) then seen else seen ++ [l])
    labels [].

(** ** Windows the STC pass can process *)

(** The window is empty, or the estimator [v] returns a label for every
    cluster of the window and every cluster has member points. *)
Definition window_ready (v : list (R * R) → list Z) (Vj : list Cluster)
  : Prop :=
  Vj = []
  ∨ ((length Vj ≤ length (v (centroids Vj)))%nat
     ∧ Forall (λ cluster, cpoints cluster ≠ []) Vj).

(** ** What the hot-spot pass does to the objects *)

(** The mutable fields of an object before ([s]) and after ([s'])
    further scorings: a mark, a Gi* and a spot that were set stay
    set. *)
Definition keeps_marks (s s' : GetisState) : Prop :=
  (significant s = true → significant s' = true)
  ∧ (is_Some (gi s) → is_Some (gi s'))
  ∧ (is_Some (spot s) → is_Some (spot s')).

(** The store before and after scorings of the objects [refs]: no
    object is added or removed, the objects other than [refs] are
    unchanged, and every object keeps its marks. *)
Definition rescored (refs : list nat) (st st' : store) : Prop :=
  length st' = length st
  ∧ (∀ r, r ∉ refs → st' !! r = st !! r)
  ∧ (∀ r s, st !! r = Some s → ∃ s', st' !! r = Some s' ∧ keeps_marks s s').

(** The marks of an object agree with its Gi* for the critical value
    [c]; and it is significant exactly when it has a spot. *)
Definition marked_by (c : R) (s : GetisState) : Prop :=
  (∀ g, gi s = Some g →
     ((g <= - c)%R → significant s = true ∧ spot s = Some Cold)
     ∧ ((g >= c)%R → significant s = true ∧ spot s = Some Hot))
  ∧ (significant s = true ↔ is_Some (spot s)).

(** * utils.py: what [display] counts *)

(** The figures [display] draws are outside the embedding; what it
    computes for them is modelled: the grid cells it visits, the tallies
    of the hot-spot branch and the distinct labels of the clustering
    branch. *)

(** [math.ceil(n / d)] for an integer [n] and a positive integer [d]. *)
Definition ceil_div (n d : Z) : Z := - (- n / d).

(** The two nested loops over the grid of subplots, for [n] windows: the
    cells [(i, j)] that are drawn, each with the index of the window
    drawn in it; a cell whose index is [n] or more is skipped. *)
Definition display_cells (n : Z) : list (Z * Z * Z) :=
  let rows := ceil_div n 3 in
  fold_left
    (λ cells i,
       fold_left
         (λ cells j,
            let index := i * 3 + j in
            if index >=? n then cells else cells ++ [(i, j, index)])
         (range 0 3) cells)
    (range 0 rows) [].

(** The tallies of the hot-spot branch for one window: the coordinates
    plotted in red ([hx], [hy]), in blue ([cx], [cy]) and in black
    ([nx], [ny]), and the three counts of the title. *)
Record Tally : Type := mkTally
  { hx : list R; hy : list R; cx : list R; cy : list R;
    nx : list R; ny : list R;
    count_hot : Z; count_cold : Z; count_none : Z }.

(** [gc.spot], read off the object. *)
Definition spot_of (st : store) (gc : GetisCluster) : option Spot :=
  s ← st !! gc_ref gc; spot s.

(** The loop [for gc in V[index]] of the hot-spot branch. *)
Definition tally_spots (st : store) (Vj : list GetisCluster) : Tally :=
  fold_left
    (λ t gc,
       match spot_of st gc with
       | Some Hot =>
           mkTally (hx t ++ map cp_x (gc_cpoints gc))
                   (hy t ++ map cp_y (gc_cpoints gc))
                   (cx t) (cy t) (nx t) (ny t)
                   (count_hot t + 1) (count_cold t) (count_none t)
       | Some Cold =>
           mkTally (hx t) (hy t)
                   (cx t ++ map cp_x (gc_cpoints gc))
                   (cy t ++ map cp_y (gc_cpoints gc))
                   (nx t) (ny t)
                   (count_hot t) (count_cold t + 1) (count_none t)
       | None =>
           mkTally (hx t) (hy t) (cx t) (cy t)
                   (nx t ++ map cp_x (gc_cpoints gc))
                   (ny t ++ map cp_y (gc_cpoints gc))
                   (count_hot t) (count_cold t) (count_none t + 1)
       end)
    Vj (mkTally [] [] [] [] [] [] 0 0 0).

(** The loop of the clustering branch that collects the labels of the
    clusters of [R[index]], each once; its length is the number of
    clusters shown in the title. *)
Definition count_clusters (Rj : list Cluster) : list Z :=
  fold_left
    (λ seen cluster,
       if bool_decide (cl_c cluster ∈ seen) then seen
       else seen ++ [cl_c cluster])
    Rj [].

#[global] Instance Spot_eq_dec : EqDecision Spot.
Proof. solve_decision. Defined.

(** * Theorems *)

(** ** The result monad and the built-ins *)

Lemma bind_Ok {A B} (r : result A) (k : A -> result B) (b : B) :
  (r ≫= k) = Ok b ↔ ∃ a, r = Ok a ∧ k a = Ok b.
Proof.
  destruct r as [a|e]; simpl; split.
  - intros H; eauto.
  - intros (a' & [= <-] & H); exact H.
  - intros [=].
  - intros (a' & [=] & _).
Qed.

Lemma bind_Ok_l {A B} (a : A) (k : A -> result B) : (Ok a ≫= k) = k a.
Proof. reflexivity. Qed.

Lemma bind_ret_r {A} (r : result A) : (r ≫= Ok) = r.
Proof. by destruct r. Qed.

Lemma for_each_singleton {A S} (body : S -> A -> result S) x s :
  for_each body [x] s = body s x.
Proof. simpl. apply bind_ret_r. Qed.

Lemma for_each_app {A S} (body : S -> A -> result S) xs ys s :
  for_each body (xs ++ ys) s = (for_each body xs s ≫= for_each body ys).
Proof.
  revert s; induction xs as [|x xs IH]; intros s; simpl; [done|].
  destruct (body s x) as [s'|e]; simpl; [apply IH | done].
Qed.

(** A loop whose body never raises is a left fold. *)
Lemma for_each_total {A S} (body : S -> A -> result S) (f : S -> A -> S) xs s :
  (∀ s x, x ∈ xs → body s x = Ok (f s x)) →
  for_each body xs s = Ok (fold_left f xs s).
Proof.
  revert s; induction xs as [|x xs IH]; intros s Hb; simpl; [done|].
  rewrite Hb by left. simpl. apply IH. intros; apply Hb; by right.
Qed.

(** An invariant carried through a loop that returns. *)
Lemma for_each_inv {A S} (P : list A -> S -> Prop)
    (body : S -> A -> result S) xs s s' :
  P [] s →
  (∀ seen x s s', P seen s → x ∈ xs → body s x = Ok s' → P (seen ++ [x]) s') →
  for_each body xs s = Ok s' →
  P xs s'.
Proof.
  intros H0 Hstep.
  assert (Hgen : ∀ rest seen s, (∀ x, x ∈ rest → x ∈ xs) →
                   P seen s → for_each body rest s = Ok s' →
                   P (seen ++ rest) s').
  { induction rest as [|x rest IH]; intros seen s1 Hin HP Hrun; simpl in *.
    - injection Hrun as <-. by rewrite app_nil_r.
    - apply bind_Ok in Hrun as (s2 & Hb & Hrun).
      replace (seen ++ x :: rest) with ((seen ++ [x]) ++ rest)
        by (rewrite <- app_assoc; done).
      eapply IH; [intros y Hy; apply Hin; by right| |done].
      eapply Hstep; [done| |done]. apply Hin. left. }
  intros Hrun. apply (Hgen xs [] s); done.
Qed.

Lemma length_range a b : length (range a b) = Z.to_nat (b - a).
Proof. unfold range. by rewrite length_map, length_seq. Qed.

Lemma lookup_range a b (k : nat) :
  (k < Z.to_nat (b - a))%nat → range a b !! k = Some (a + Z.of_nat k).
Proof.
  intros Hk. unfold range. rewrite list_lookup_fmap, lookup_seq_lt by done.
  done.
Qed.

Lemma elem_of_range a b j : j ∈ range a b ↔ a ≤ j < b.
Proof.
  unfold range. rewrite list_elem_of_fmap. split.
  - intros (k & -> & Hk). apply elem_of_seq in Hk. lia.
  - intros Hj. exists (Z.to_nat (j - a)). split; [lia|].
    apply elem_of_seq. lia.
Qed.

Lemma range_snoc a b : a ≤ b → range a (b + 1) = range a b ++ [b].
Proof.
  intros Hab. unfold range.
  replace (Z.to_nat (b + 1 - a)) with (S (Z.to_nat (b - a))) by lia.
  rewrite seq_S, map_app. simpl. f_equal. f_equal. lia.
Qed.

Lemma range_nil a b : b ≤ a → range a b = [].
Proof.
  intros Hab. unfold range. by replace (Z.to_nat (b - a)) with 0%nat by lia.
Qed.

Lemma getitem_nonneg {A} (l : list A) (j : Z) :
  0 ≤ j → getitem l j = match l !! Z.to_nat j with
                         | Some a => Ok a
                         | None => Raise IndexError
                         end.
Proof.
  intros Hj. unfold getitem.
  destruct (j <? 0) eqn:E; [lia|]. by rewrite E.
Qed.

Lemma getitem_Ok {A} (l : list A) (j : Z) (a : A) :
  0 ≤ j → (getitem l j = Ok a ↔ l !! Z.to_nat j = Some a).
Proof.
  intros Hj. rewrite getitem_nonneg by done.
  destruct (l !! Z.to_nat j); split; congruence.
Qed.

Lemma getitem_in_range {A} (l : list A) (j : Z) :
  0 ≤ j < len l → ∃ a, getitem l j = Ok a ∧ l !! Z.to_nat j = Some a.
Proof.
  intros Hj. unfold len in Hj.
  destruct (lookup_lt_is_Some_2 l (Z.to_nat j)) as [a Ha]; [lia|].
  exists a. split; [|done]. apply getitem_Ok; [lia|done].
Qed.

Lemma getitem_out_of_range {A} (l : list A) (j : Z) :
  len l ≤ j → getitem l j = Raise IndexError.
Proof.
  intros Hj. unfold len in Hj. rewrite getitem_nonneg by lia.
  rewrite lookup_ge_None_2; [done|lia].
Qed.

Lemma fold_left_snoc {A B} (f : A -> B) (xs : list A) (acc : list B) :
  fold_left (fun G x => G ++ [f x]) xs acc = acc ++ map f xs.
Proof.
  revert acc; induction xs as [|x xs IH]; intros acc; simpl.
  - by rewrite app_nil_r.
  - rewrite IH, <- app_assoc. done.
Qed.

(** ** [_create_G] *)

Lemma py_max_spec (xs : list Z) :
  xs ≠ [] → ∃ m, py_max xs = Ok m ∧ m ∈ xs ∧ ∀ x, x ∈ xs → x ≤ m.
Proof.
  destruct xs as [|x xs]; [done|]. intros _. simpl.
  exists (fold_left Z.max xs x). split; [done|].
  revert x. induction xs as [|y ys IH]; intros x; simpl.
  - split; [left|]. intros z Hz. apply list_elem_of_singleton in Hz. lia.
  - destruct (IH (Z.max x y)) as [Hin Hle]. split.
    + apply elem_of_cons in Hin as [Hin|Hin].
      * rewrite Hin. destruct (Z.max_spec x y) as [[_ ->]|[_ ->]].
        -- right; left.
        -- left.
      * right; by right.
    + intros z Hz. apply elem_of_cons in Hz as [->|Hz].
      * specialize (Hle (Z.max x y) ltac:(left)). lia.
      * apply elem_of_cons in Hz as [->|Hz].
        -- specialize (Hle (Z.max x y) ltac:(left)). lia.
        -- apply Hle. by right.
Qed.

Lemma partition_points_spec t1 t2 trajs :
  partition_points t1 t2 trajs
  = map (midpoint_at t1) (filter (λ tr, overlaps tr t1 t2) trajs).
Proof.
  unfold partition_points.
  enough (Hgen : ∀ acc,
    fold_left
      (λ Gj tr,
         if (tp_t (tps tr) >? t2) || (tp_t (tpe tr) <? t1) then Gj
         else Gj ++ [mkTPoint (p_x (tr_m tr)) (p_y (tr_m tr)) t1])
      trajs acc
    = acc ++ map (midpoint_at t1) (filter (λ tr, overlaps tr t1 t2) trajs))
    by apply (Hgen []).
  induction trajs as [|tr trajs IH]; intros acc; simpl.
  - by rewrite app_nil_r.
  - rewrite IH, filter_cons.
    destruct (decide (overlaps tr t1 t2)) as [Ho|Ho]; unfold overlaps in Ho.
    + replace ((tp_t (tps tr) >? t2) || (tp_t (tpe tr) <? t1)) with false
        by (symmetry; apply orb_false_iff; lia).
      simpl. by rewrite <- app_assoc.
    + replace ((tp_t (tps tr) >? t2) || (tp_t (tpe tr) <? t1)) with true; [done|].
      symmetry; apply orb_true_iff.
      destruct (Z_gt_dec (tp_t (tps tr)) t2); [left; lia|].
      right. apply Z.ltb_lt. lia.
Qed.

Lemma create_G_shape interval trajs G :
  _create_G interval trajs = Ok G →
  ∃ m starts,
    py_max (map (λ tr, tp_t (tpe tr)) trajs) = Ok m
    ∧ range3 0 m interval = Ok starts
    ∧ G = map (partition_at interval trajs) starts.
Proof.
  unfold _create_G. intros H.
  apply bind_Ok in H as (m & Hm & H). apply bind_Ok in H as (starts & Hs & H).
  injection H as <-. exists m, starts. repeat split; [done..|].
  by rewrite (fold_left_snoc (partition_at interval trajs)).
Qed.

Lemma range3_forward m interval :
  0 < interval →
  range3 0 m interval
  = Ok (map (λ k, interval * Z.of_nat k)
            (seq 0 (Z.to_nat ((m + interval - 1) / interval)))).
Proof.
  intros Hi. unfold range3.
  destruct (interval =? 0) eqn:E0; [lia|].
  destruct (0 <? interval) eqn:E1; [|lia].
  f_equal. replace (m - 0 + interval - 1) with (m + interval - 1) by lia.
  apply map_ext. intros k. lia.
Qed.

Lemma next_multiple_bounds interval m :
  0 < interval → m ≤ next_multiple interval m < m + interval.
Proof.
  intros Hi. unfold next_multiple.
  pose proof (Z.div_mod (m + interval - 1) interval ltac:(lia)) as Hdm.
  pose proof (Z.mod_pos_bound (m + interval - 1) interval Hi) as Hb.
  lia.
Qed.

Lemma create_G_forward interval trajs :
  trajs ≠ [] → 0 < interval →
  ∃ m, py_max (map (λ tr, tp_t (tpe tr)) trajs) = Ok m
    ∧ _create_G interval trajs
      = Ok (map (λ k, partition_at interval trajs (interval * Z.of_nat k))
                (seq 0 (Z.to_nat ((m + interval - 1) / interval)))).
Proof.
  intros Hne Hi.
  destruct (py_max_spec (map (λ tr, tp_t (tpe tr)) trajs)) as (m & Hm & _).
  { by destruct trajs. }
  exists m. split; [done|]. unfold _create_G. rewrite Hm. simpl.
  rewrite range3_forward by done. simpl.
  rewrite (fold_left_snoc (partition_at interval trajs)). simpl.
  by rewrite map_map.
Qed.

Lemma covered_forward interval trajs (n : nat) t :
  0 < interval →
  covered (map (λ k, partition_at interval trajs (interval * Z.of_nat k))
               (seq 0 n)) t
  ↔ 0 ≤ t < interval * Z.of_nat n.
Proof.
  intros Hi. unfold covered. split.
  - intros (p & Hp & Ht). apply list_elem_of_fmap in Hp as (k & -> & Hk).
    apply elem_of_seq in Hk. simpl in Ht. nia.
  - intros Ht. exists (partition_at interval trajs (interval * (t / interval))).
    pose proof (Z.div_mod t interval ltac:(lia)) as Hdm.
    pose proof (Z.mod_pos_bound t interval Hi) as Hb.
    assert (0 ≤ t / interval) by (apply Z.div_pos; lia).
    assert (t / interval < Z.of_nat n) by (apply Z.div_lt_upper_bound; lia).
    split; [|simpl; lia].
    apply list_elem_of_fmap. exists (Z.to_nat (t / interval)). split.
    + f_equal. lia.
    + apply elem_of_seq. lia.
Qed.

(** C5, as amended. For a non-empty trajectory sequence and a positive
    interval, [_create_G] returns partitions [[k*interval, (k+1)*interval)],
    in order; together they cover, without gap or overlap, the times from
    0 up to the first multiple of [interval] that is not below the largest
    end time [m] (so up to [m] itself only when [interval] divides [m]). *)
Theorem create_G_tiling interval trajs :
  trajs ≠ [] → 0 < interval →
  ∃ G m,
    _create_G interval trajs = Ok G
    ∧ py_max (map (λ tr, tp_t (tpe tr)) trajs) = Ok m
    ∧ (∀ (k : nat) p, G !! k = Some p →
         ts p = interval * Z.of_nat k ∧ te p = interval * (Z.of_nat k + 1))
    ∧ (∀ t, covered G t ↔ 0 ≤ t < next_multiple interval m)
    ∧ m ≤ next_multiple interval m < m + interval
    ∧ (∀ (i j : nat) p q t, G !! i = Some p → G !! j = Some q →
         ts p ≤ t < te p → ts q ≤ t < te q → i = j).
Proof.
  intros Hne Hi.
  destruct (create_G_forward interval trajs Hne Hi) as (m & Hm & HG).
  eexists _, m. split; [exact HG|]. split; [exact Hm|].
  set (n := Z.to_nat ((m + interval - 1) / interval)).
  assert (Hshape : ∀ (k : nat) p,
    map (λ k, partition_at interval trajs (interval * Z.of_nat k)) (seq 0 n) !! k
      = Some p →
    ts p = interval * Z.of_nat k ∧ te p = interval * (Z.of_nat k + 1)).
  { intros k p Hk. rewrite list_lookup_fmap in Hk.
    destruct (seq 0 n !! k) as [k'|] eqn:Ek; [|done].
    apply lookup_seq in Ek as [-> _]. injection Hk as <-. simpl. lia. }
  split; [exact Hshape|]. split; [|split].
  - intros t. rewrite covered_forward by done. unfold next_multiple.
    subst n. destruct (Z_le_gt_dec 0 ((m + interval - 1) / interval)).
    + by rewrite Z2Nat.id.
    + replace (Z.to_nat ((m + interval - 1) / interval)) with 0%nat by lia. nia.
  - by apply next_multiple_bounds.
  - intros i j p q t Hp Hq Htp Htq.
    apply Hshape in Hp as [Hp1 Hp2]. apply Hshape in Hq as [Hq1 Hq2]. nia.
Qed.

Lemma create_G_tiling_witness :
  ∃ G m,
    _create_G 10 [tr_5_25] = Ok G
    ∧ py_max (map (λ tr, tp_t (tpe tr)) [tr_5_25]) = Ok m
    ∧ (∀ (k : nat) p, G !! k = Some p →
         ts p = 10 * Z.of_nat k ∧ te p = 10 * (Z.of_nat k + 1))
    ∧ (∀ t, covered G t ↔ 0 ≤ t < next_multiple 10 m)
    ∧ m ≤ next_multiple 10 m < m + 10
    ∧ (∀ (i j : nat) p q t, G !! i = Some p → G !! j = Some q →
         ts p ≤ t < te p → ts q ≤ t < te q → i = j).
Proof. apply (create_G_tiling 10 [tr_5_25]); [done | lia]. Defined.

(** C5 as stated fails: with one trajectory ending at time 25 and
    [interval = 10] the partitions are [[0,10)], [[10,20)] and [[20,30)];
    time 27 is covered although it is not below 25. *)
Lemma create_G_tiling_counterexample :
  ∃ G, _create_G 10 [tr_5_25] = Ok G
       ∧ py_max (map (λ tr, tp_t (tpe tr)) [tr_5_25]) = Ok 25
       ∧ ¬ (∀ t, covered G t ↔ 0 ≤ t < 25).
Proof.
  exists (map (partition_at 10 [tr_5_25]) [0; 10; 20]).
  split; [reflexivity|]. split; [reflexivity|].
  intros H. specialize (H 27). destruct H as [H _].
  enough (0 ≤ 27 < 25) by lia. apply H.
  exists (partition_at 10 [tr_5_25] 20). split.
  - simpl. right; right; left.
  - simpl. lia.
Qed.

Lemma create_G_consecutive interval trajs G (k : nat) p p' :
  _create_G interval trajs = Ok G →
  G !! k = Some p → G !! S k = Some p' → ts p' = te p.
Proof.
  intros HG Hp Hp'.
  apply create_G_shape in HG as (m & starts & _ & Hs & ->).
  unfold range3 in Hs. destruct (interval =? 0) eqn:E0; [done|].
  injection Hs as <-.
  rewrite !list_lookup_fmap in Hp, Hp'.
  destruct (seq 0 _ !! k) as [a|] eqn:Ea; [|done].
  destruct (seq 0 _ !! S k) as [b|] eqn:Eb; [|done].
  apply lookup_seq in Ea as [-> _]. apply lookup_seq in Eb as [-> _].
  injection Hp as <-. injection Hp' as <-. simpl. lia.
Qed.

(** C6. In every partition [[t1, t2)] that [_create_G] emits, the points
    are, in order, the midpoints of exactly the trajectories with
    NOT (start.t > t2 OR end.t < t1), each stamped with [t1]; so a
    trajectory whose span contains the common boundary of two adjacent
    partitions has its midpoint in both. *)
Theorem create_G_inclusion interval trajs G :
  _create_G interval trajs = Ok G →
  (∀ p, p ∈ G →
     tpoints p
     = map (midpoint_at (ts p)) (filter (λ tr, overlaps tr (ts p) (te p)) trajs)
     ∧ (∀ q, q ∈ tpoints p ↔
             ∃ tr, tr ∈ trajs
                   ∧ ¬ (tp_t (tps tr) > te p ∨ tp_t (tpe tr) < ts p)
                   ∧ q = mkTPoint (p_x (tr_m tr)) (p_y (tr_m tr)) (ts p))
     ∧ (∀ q, q ∈ tpoints p → tp_t q = ts p))
  ∧ (∀ (k : nat) p p' tr,
       0 < interval →
       G !! k = Some p → G !! S k = Some p' → tr ∈ trajs →
       tp_t (tps tr) ≤ te p ≤ tp_t (tpe tr) →
       midpoint_at (ts p) tr ∈ tpoints p ∧ midpoint_at (ts p') tr ∈ tpoints p').
Proof.
  intros HG.
  assert (Hpts : ∀ p, p ∈ G →
    tpoints p
    = map (midpoint_at (ts p)) (filter (λ tr, overlaps tr (ts p) (te p)) trajs)).
  { intros p Hp. apply create_G_shape in HG as (m & starts & _ & _ & ->).
    apply list_elem_of_fmap in Hp as (t & -> & _). simpl.
    apply partition_points_spec. }
  assert (Hmem : ∀ p, p ∈ G → ∀ q, q ∈ tpoints p ↔
             ∃ tr, tr ∈ trajs
                   ∧ ¬ (tp_t (tps tr) > te p ∨ tp_t (tpe tr) < ts p)
                   ∧ q = mkTPoint (p_x (tr_m tr)) (p_y (tr_m tr)) (ts p)).
  { intros p Hp q. rewrite (Hpts p Hp), list_elem_of_fmap. split.
    - intros (tr & -> & Htr). apply list_elem_of_filter in Htr as [Ho Htr].
      exists tr. repeat split; done.
    - intros (tr & Htr & Ho & ->). exists tr. split; [done|].
      apply list_elem_of_filter. split; done. }
  split.
  - intros p Hp. split; [by apply Hpts|]. split; [by apply Hmem|].
    intros q Hq. apply (Hmem p Hp) in Hq as (tr & _ & _ & ->). done.
  - intros k p p' tr Hi Hp Hp' Htr Hspan.
    pose proof (create_G_consecutive _ _ _ _ _ _ HG Hp Hp') as Hadj.
    assert (p ∈ G) as HpG by (eapply list_elem_of_lookup_2; eauto).
    assert (p' ∈ G) as HpG' by (eapply list_elem_of_lookup_2; eauto).
    assert (Hwidth : ∀ p, p ∈ G → te p = ts p + interval).
    { intros p0 Hp0. apply create_G_shape in HG as (m & starts & _ & _ & ->).
      apply list_elem_of_fmap in Hp0 as (t & -> & _). done. }
    pose proof (Hwidth p HpG). pose proof (Hwidth p' HpG').
    split.
    + apply (Hmem p HpG). exists tr. split; [done|]. split; [lia|done].
    + apply (Hmem p' HpG'). exists tr. split; [done|]. split; [lia|done].
Qed.

Lemma create_G_inclusion_witness :
  let trajs := [tr_5_25; tr_10_10] in
  let G := map (partition_at 10 trajs) [0; 10; 20] in
  (∀ p, p ∈ G →
     tpoints p
     = map (midpoint_at (ts p)) (filter (λ tr, overlaps tr (ts p) (te p)) trajs)
     ∧ (∀ q, q ∈ tpoints p ↔
             ∃ tr, tr ∈ trajs
                   ∧ ¬ (tp_t (tps tr) > te p ∨ tp_t (tpe tr) < ts p)
                   ∧ q = mkTPoint (p_x (tr_m tr)) (p_y (tr_m tr)) (ts p))
     ∧ (∀ q, q ∈ tpoints p → tp_t q = ts p))
  ∧ (∀ (k : nat) p p' tr,
       0 < 10 →
       G !! k = Some p → G !! S k = Some p' → tr ∈ trajs →
       tp_t (tps tr) ≤ te p ≤ tp_t (tpe tr) →
       midpoint_at (ts p) tr ∈ tpoints p ∧ midpoint_at (ts p') tr ∈ tpoints p').
Proof.
  exact (create_G_inclusion 10 [tr_5_25; tr_10_10]
           (map (partition_at 10 [tr_5_25; tr_10_10]) [0; 10; 20])
           eq_refl).
Defined.

(** The trajectory that sits on the boundary at time 10 is in the
    partitions [[0,10)] and [[10,20)], not in [[20,30)]. *)
Example create_G_boundary_duplicate :
  map tpoints (map (partition_at 10 [tr_5_25; tr_10_10]) [0; 10; 20])
  = [ [midpoint_at 0 tr_5_25; midpoint_at 0 tr_10_10];
      [midpoint_at 10 tr_5_25; midpoint_at 10 tr_10_10];
      [midpoint_at 20 tr_5_25] ].
Proof. reflexivity. Qed.

(** ** Windows *)

Lemma window_parts {A} (K : list (list A)) (i n : nat) acc :
  (i + n ≤ length K)%nat →
  for_each (λ acc j, Kj ← getitem K j; Ok (acc ++ [Kj]))
           (map (λ k, Z.of_nat i + Z.of_nat k) (seq 0 n)) acc
  = Ok (acc ++ take n (drop i K)).
Proof.
  induction n as [|n IH]; intros Hn.
  - simpl. by rewrite app_nil_r.
  - rewrite seq_S, map_app, for_each_app, IH by lia. simpl.
    destruct (lookup_lt_is_Some_2 K (i + n)) as [Kj HKj]; [lia|].
    rewrite getitem_nonneg by lia.
    replace (Z.to_nat (Z.of_nat i + Z.of_nat n)) with (i + n)%nat by lia.
    rewrite HKj. simpl. f_equal. rewrite <- app_assoc. f_equal.
    symmetry. apply take_S_r. by rewrite lookup_drop.
Qed.

Lemma window_in_range {A} (w : Z) (K : list (list A)) (i : nat) :
  Z.of_nat i + w ≤ len K →
  window w K (Z.of_nat i) = Ok (window_slice w K i).
Proof.
  intros Hi. unfold window, window_slice, range.
  replace (Z.of_nat i + w - Z.of_nat i) with w by lia.
  destruct (Z_le_gt_dec w 0) as [Hw|Hw].
  - replace (Z.to_nat w) with 0%nat by lia. done.
  - rewrite window_parts by (unfold len in Hi; lia). done.
Qed.

Lemma elem_of_concat {A} (x : A) (ls : list (list A)) :
  x ∈ concat ls ↔ ∃ l, x ∈ l ∧ l ∈ ls.
Proof.
  induction ls as [|l ls IH]; simpl.
  - split; [by intros ?%elem_of_nil | by intros (? & _ & ?%elem_of_nil)].
  - rewrite elem_of_app, IH. split.
    + intros [Hx | (l' & Hx & Hl')]; [exists l | exists l']; split; try done.
      * left.
      * by right.
    + intros (l' & Hx & Hl'). apply elem_of_cons in Hl' as [-> | Hl']; eauto.
Qed.

Lemma elem_of_window_slice {A} (w : Z) (K : list (list A)) (i : nat) (x : A) :
  x ∈ window_slice w K i
  ↔ ∃ (j : nat) Kj, (i ≤ j)%nat ∧ Z.of_nat j < Z.of_nat i + w
                    ∧ K !! j = Some Kj ∧ x ∈ Kj.
Proof.
  unfold window_slice. rewrite elem_of_concat. split.
  - intros (Kj & Hx & HKj). apply list_elem_of_lookup in HKj as (k & Hk).
    apply lookup_take_Some in Hk as [Hk Hlt]. rewrite lookup_drop in Hk.
    exists (i + k)%nat, Kj. repeat split; [lia|lia|done|done].
  - intros (j & Kj & Hij & Hjw & HKj & Hx). exists Kj. split; [done|].
    apply list_elem_of_lookup. exists (j - i)%nat.
    apply lookup_take_Some. split; [|lia].
    rewrite lookup_drop. by replace (i + (j - i))%nat with j by lia.
Qed.

(** ** [Cluster.__init__] and [STC._v_clustering] *)

Lemma true_div_nonzero (a b : R) : b ≠ 0%R → true_div a b = Ok (a / b)%R.
Proof. intros Hb. unfold true_div. by destruct (Req_dec_T b 0). Qed.

Lemma true_div_zero (a : R) : true_div a 0 = Raise ZeroDivisionError.
Proof. unfold true_div. by destruct (Req_dec_T 0 0). Qed.

Lemma centroid_nonempty (cps : list ClusterPoint) :
  cps ≠ [] → centroid cps = Ok (mean_point cps).
Proof.
  intros Hne. unfold centroid.
  assert (IZR (len cps) ≠ 0%R) as Hlen.
  { apply not_0_IZR. unfold len. destruct cps; [done|simpl; lia]. }
  rewrite !true_div_nonzero by done. done.
Qed.

Lemma centroid_empty : centroid [] = Raise ZeroDivisionError.
Proof. unfold centroid. simpl. by rewrite true_div_zero. Qed.

Lemma range_from_zero (n : nat) : range 0 (Z.of_nat n) = map Z.of_nat (seq 0 n).
Proof.
  unfold range. replace (Z.to_nat (Z.of_nat n - 0)) with n by lia.
  apply map_ext. intros; lia.
Qed.

Lemma range_zero_to (n : Z) : range 0 n = map Z.of_nat (seq 0 (Z.to_nat n)).
Proof.
  unfold range. rewrite Z.sub_0_r. apply map_ext. intros; lia.
Qed.

Lemma rewrap_spec keep labels Vj :
  (length Vj ≤ length labels)%nat →
  Forall (λ cluster, cpoints cluster ≠ []) Vj →
  rewrap keep labels Vj
  = Ok (omap (relabel_at keep labels) (zip (seq 0 (length Vj)) Vj)).
Proof.
  intros Hlen Hne. unfold rewrap, len. rewrite range_from_zero.
  enough (Hgen : ∀ Vj off acc,
    (off + length Vj ≤ length labels)%nat →
    Forall (λ cluster, cpoints cluster ≠ []) Vj →
    for_each
      (λ acc '(i, cluster),
         l ← getitem labels i;
         if keep l then
           c ← getitem labels i;
           cl ← Cluster_init i (cpoints cluster) (cl_t cluster) c;
           Ok (acc ++ [cl])
         else Ok acc)
      (zip (map Z.of_nat (seq off (length Vj))) Vj) acc
    = Ok (acc ++ omap (relabel_at keep labels) (zip (seq off (length Vj)) Vj)))
    by (apply (Hgen Vj 0%nat []); done).
  clear. induction Vj as [|cluster Vj IH]; intros off acc Hlen Hne; simpl.
  - by rewrite app_nil_r.
  - apply Forall_cons in Hne as [Hc Hne].
    destruct (lookup_lt_is_Some_2 labels off) as [l Hl]; [simpl in Hlen; lia|].
    rewrite getitem_nonneg by lia. rewrite Nat2Z.id, Hl. simpl.
    unfold relabel_at at 1. simpl. rewrite Hl. simpl.
    destruct (keep l) eqn:Ek.
    + unfold Cluster_init. rewrite centroid_nonempty by done. simpl.
      rewrite IH by (simpl in Hlen; try lia; done).
      by rewrite <- app_assoc.
    + apply IH; [simpl in Hlen; lia | done].
Qed.

Lemma zip_centroids (Vj : list Cluster) :
  zip (map (λ cluster, p_x (cl_m cluster)) Vj)
      (map (λ cluster, p_y (cl_m cluster)) Vj)
  = centroids Vj.
Proof. unfold centroids. induction Vj; simpl; [done|by f_equal]. Qed.

Lemma members_nonempty_window w K i :
  members_nonempty K →
  Forall (λ cluster, cpoints cluster ≠ []) (window_slice w K i).
Proof.
  intros HK. apply Forall_forall. intros c Hc.
  apply elem_of_window_slice in Hc as (j & Kj & _ & _ & HKj & Hc).
  unfold members_nonempty in HK. rewrite Forall_forall in HK.
  specialize (HK Kj (list_elem_of_lookup_2 _ _ _ HKj)).
  rewrite Forall_forall in HK. by apply HK.
Qed.

Lemma v_clustering_body v w K (i : nat) Rs Ns :
  one_label_per_point v → members_nonempty K →
  Z.of_nat i + w ≤ len K →
  (Vj ← window w K (Z.of_nat i);
   let x1 := map (λ cluster, p_x (cl_m cluster)) Vj in
   let x2 := map (λ cluster, p_y (cl_m cluster)) Vj in
   let data := zip x1 x2 in
   if len data =? 0 then Ok (Rs ++ [[]], Ns ++ [[]])
   else
     let labels := v data in
     Rj ← rewrap (λ l, negb (l =? -1)) labels Vj;
     Nj ← rewrap (λ l, l =? -1) labels Vj;
     Ok (Rs ++ [Rj], Ns ++ [Nj]))
  = Ok (Rs ++ [window_relabelled not_noise v w K i],
        Ns ++ [window_relabelled is_noise v w K i]).
Proof.
  intros Hv HK Hi. rewrite window_in_range by done. simpl.
  rewrite zip_centroids. unfold window_relabelled.
  set (Vj := window_slice w K i).
  destruct (len (centroids Vj) =? 0) eqn:E.
  - assert (Vj = []) as ->.
    { unfold len, centroids in E. rewrite length_map in E.
      destruct Vj; [done|simpl in E; lia]. }
    done.
  - assert (length Vj ≤ length (v (centroids Vj)))%nat as Hlen.
    { rewrite Hv. unfold centroids. by rewrite length_map. }
    pose proof (members_nonempty_window w K i HK) as Hne.
    rewrite !rewrap_spec by done. done.
Qed.

Lemma v_clustering_spec v w K :
  one_label_per_point v → members_nonempty K →
  _v_clustering v w K
  = Ok (map (window_relabelled not_noise v w K) (seq 0 (window_count w K)),
        map (window_relabelled is_noise v w K) (seq 0 (window_count w K))).
Proof.
  intros Hv HK. unfold _v_clustering, window_count.
  rewrite range_zero_to.
  assert (Hcnt : ∀ cnt, (cnt ≤ Z.to_nat (len K - w + 1))%nat →
    for_each
      (λ '(R, N) i,
         Vj ← window w K i;
         let x1 := map (λ cluster, p_x (cl_m cluster)) Vj in
         let x2 := map (λ cluster, p_y (cl_m cluster)) Vj in
         let data := zip x1 x2 in
         if len data =? 0 then Ok (R ++ [[]], N ++ [[]])
         else
           let labels := v data in
           Rj ← rewrap (λ l, negb (l =? -1)) labels Vj;
           Nj ← rewrap (λ l, l =? -1) labels Vj;
           Ok (R ++ [Rj], N ++ [Nj]))
      (map Z.of_nat (seq 0 cnt)) ([], [])
    = Ok (map (window_relabelled not_noise v w K) (seq 0 cnt),
          map (window_relabelled is_noise v w K) (seq 0 cnt))).
  { induction cnt as [|cnt IH]; intros Hle; [done|].
    rewrite seq_S, !map_app, for_each_app, IH by lia.
    rewrite bind_Ok_l. simpl map. rewrite for_each_singleton.
    apply v_clustering_body; [done..|lia]. }
  by apply Hcnt.
Qed.

Lemma omap_relabel_filter keep labels Vj off :
  (off + length Vj ≤ length labels)%nat →
  omap (relabel_at keep labels) (zip (seq off (length Vj)) Vj)
  = map rewrapped
        (filter (λ x, keep x.2.2 = true)
                (zip (seq off (length Vj)) (zip Vj (drop off labels)))).
Proof.
  revert off. induction Vj as [|c Vj IH]; intros off Hlen; simpl; [done|].
  destruct (lookup_lt_is_Some_2 labels off) as [l Hl]; [simpl in Hlen; lia|].
  rewrite (drop_S _ _ _ Hl). simpl. rewrite filter_cons. simpl.
  unfold relabel_at at 1. simpl. rewrite Hl. simpl.
  rewrite IH by (simpl in Hlen; lia).
  destruct (keep l) eqn:Ek.
  - rewrite decide_True by done. done.
  - rewrite decide_False by done. done.
Qed.

Lemma window_relabelled_filter keep v w K i :
  one_label_per_point v →
  window_relabelled keep v w K i
  = map rewrapped
        (filter (λ x, keep x.2.2 = true)
                (labelled_window v (window_slice w K i))).
Proof.
  intros Hv. unfold window_relabelled, labelled_window.
  rewrite omap_relabel_filter; [done|].
  rewrite Hv. unfold centroids. rewrite length_map. simpl. lia.
Qed.

Lemma rewrapped_projection (keep : Z → bool) (n : nat) (l : list (Cluster * Z)) :
  map (λ r, (cpoints r, cl_t r, cl_c r))
      (map rewrapped
           (filter (λ x : nat * (Cluster * Z), keep x.2.2 = true)
                   (zip (seq n (length l)) l)))
  = map (λ cl : Cluster * Z, (cpoints cl.1, cl_t cl.1, cl.2))
        (filter (λ cl : Cluster * Z, keep cl.2 = true) l).
Proof.
  revert n. induction l as [|[c lab] l IH]; intros n; [done|].
  simpl. rewrite !filter_cons. simpl.
  destruct (decide (keep lab = true)); simpl; by rewrite IH.
Qed.

(** C7. With an estimator that returns one label per point and clusters
    that have member points, [_v_clustering] returns [R] and [N]; for
    every window index [i], if the union [Vj] of [K[i..i+w)] is empty
    then [R[i]] and [N[i]] are empty, and otherwise the estimator is run
    on the centroids of [Vj], [R[i]] holds, in order, the clusters whose
    new label is not -1 and [N[i]] those whose new label is -1, each
    with its member points, its timestamp and the new label. *)
Theorem v_clustering_windows v w K :
  one_label_per_point v → members_nonempty K →
  ∃ R N,
    _v_clustering v w K = Ok (R, N)
    ∧ ∀ i : nat, (i < window_count w K)%nat →
      ∃ Vj Rj Nj,
        window w K (Z.of_nat i) = Ok Vj
        ∧ (∀ c, c ∈ Vj ↔ ∃ (j : nat) Kj, (i ≤ j)%nat ∧ Z.of_nat j < Z.of_nat i + w
                                          ∧ K !! j = Some Kj ∧ c ∈ Kj)
        ∧ R !! i = Some Rj ∧ N !! i = Some Nj
        ∧ (Vj = [] → Rj = [] ∧ Nj = [])
        ∧ (Vj ≠ [] →
           let labelled := zip Vj (v (centroids Vj)) in
           map (λ r, (cpoints r, cl_t r, cl_c r)) Rj
           = map (λ cl, (cpoints cl.1, cl_t cl.1, cl.2))
                 (filter (λ cl, cl.2 ≠ -1) labelled)
           ∧ map (λ r, (cpoints r, cl_t r, cl_c r)) Nj
             = map (λ cl, (cpoints cl.1, cl_t cl.1, cl.2))
                   (filter (λ cl, cl.2 = -1) labelled)).
Proof.
  intros Hv HK. eexists _, _. split; [by apply v_clustering_spec|].
  intros i Hi.
  exists (window_slice w K i), (window_relabelled not_noise v w K i),
         (window_relabelled is_noise v w K i).
  split; [apply window_in_range; unfold window_count in Hi; lia|].
  split; [intros c; apply elem_of_window_slice|].
  split; [rewrite list_lookup_fmap, lookup_seq_lt by done; done|].
  split; [rewrite list_lookup_fmap, lookup_seq_lt by done; done|].
  split.
  - unfold window_relabelled. by intros ->.
  - intros _. rewrite !window_relabelled_filter by done.
    unfold labelled_window. set (Vj := window_slice w K i).
    set (labels := v (centroids Vj)). simpl.
    assert (length (zip Vj labels) = length Vj) as Hzl.
    { rewrite length_zip_with. subst labels. rewrite Hv. unfold centroids.
      rewrite length_map. lia. }
    rewrite <- Hzl, !rewrapped_projection. split; f_equal.
    + apply list_filter_iff. intros [c l]. unfold not_noise. simpl.
      rewrite negb_true_iff, Z.eqb_neq. done.
    + apply list_filter_iff. intros [c l]. unfold is_noise. simpl.
      by rewrite Z.eqb_eq.
Qed.

Lemma first_is_noise_contract : one_label_per_point first_is_noise.
Proof. intros [|d data]; simpl; [done|]. by rewrite length_map. Qed.

Lemma K_ABC_members : members_nonempty K_ABC.
Proof. repeat constructor; done. Qed.

Lemma v_clustering_windows_witness :
  ∃ R N,
    _v_clustering first_is_noise 2 K_ABC = Ok (R, N)
    ∧ ∀ i : nat, (i < window_count 2 K_ABC)%nat →
      ∃ Vj Rj Nj,
        window 2 K_ABC (Z.of_nat i) = Ok Vj
        ∧ (∀ c, c ∈ Vj ↔ ∃ (j : nat) Kj, (i ≤ j)%nat ∧ Z.of_nat j < Z.of_nat i + 2
                                          ∧ K_ABC !! j = Some Kj ∧ c ∈ Kj)
        ∧ R !! i = Some Rj ∧ N !! i = Some Nj
        ∧ (Vj = [] → Rj = [] ∧ Nj = [])
        ∧ (Vj ≠ [] →
           let labelled := zip Vj (first_is_noise (centroids Vj)) in
           map (λ r, (cpoints r, cl_t r, cl_c r)) Rj
           = map (λ cl, (cpoints cl.1, cl_t cl.1, cl.2))
                 (filter (λ cl, cl.2 ≠ -1) labelled)
           ∧ map (λ r, (cpoints r, cl_t r, cl_c r)) Nj
             = map (λ cl, (cpoints cl.1, cl_t cl.1, cl.2))
                   (filter (λ cl, cl.2 = -1) labelled)).
Proof.
  exact (v_clustering_windows first_is_noise 2 K_ABC
           first_is_noise_contract K_ABC_members).
Defined.

Lemma elem_of_enumerate {A} (l : list A) (k : nat) (x : A) :
  (k, x) ∈ zip (seq 0 (length l)) l ↔ l !! k = Some x.
Proof.
  rewrite list_elem_of_lookup. split.
  - intros (j & Hj). apply lookup_zip_with_Some in Hj as (a & b & [= -> ->] & Ha & Hb).
    apply lookup_seq in Ha as [-> _]. done.
  - intros Hk. exists k. apply lookup_zip_with_Some. exists k, x.
    split; [done|]. split; [|done].
    apply lookup_seq. split; [done|]. by eapply lookup_lt_Some.
Qed.

Lemma elem_of_window_relabelled keep v w K i r :
  r ∈ window_relabelled keep v w K i
  ↔ ∃ (k : nat) c l,
      window_slice w K i !! k = Some c
      ∧ v (centroids (window_slice w K i)) !! k = Some l
      ∧ keep l = true
      ∧ r = rewrapped (k, (c, l)).
Proof.
  unfold window_relabelled. rewrite list_elem_of_omap. split.
  - intros ([k c] & Hkc & Hr). apply elem_of_enumerate in Hkc.
    unfold relabel_at in Hr. simpl in Hr.
    destruct (v _ !! k) as [l|] eqn:El; [|done]. simpl in Hr.
    destruct (keep l) eqn:Ek; [|done]. injection Hr as <-.
    exists k, c, l. done.
  - intros (k & c & l & Hc & Hl & Hk & ->). exists (k, c).
    split; [by apply elem_of_enumerate|].
    unfold relabel_at. simpl. rewrite Hl. simpl. by rewrite Hk.
Qed.

Lemma window_slice_shift {A} (w : Z) (K : list (list A)) (i k : nat) Ki c :
  K !! i = Some Ki → (length Ki ≤ k)%nat →
  window_slice w K i !! k = Some c →
  window_slice w K (S i) !! (k - length Ki)%nat = Some c.
Proof.
  intros HKi Hk Hc. unfold window_slice in *.
  rewrite (drop_S _ _ _ HKi) in Hc.
  destruct (Z.to_nat w) as [|n] eqn:En; [done|].
  simpl in Hc. rewrite lookup_app_r in Hc by done.
  destruct (drop (S i) K !! n) as [Kn|] eqn:EKn.
  - rewrite (take_S_r _ _ _ EKn), concat_app.
    apply lookup_app_l_Some. done.
  - rewrite take_ge in Hc by (apply lookup_ge_None; done).
    rewrite take_ge; [done|].
    apply lookup_ge_None in EKn. lia.
Qed.

Lemma position_rewrapped v w K (i k : nat) c :
  one_label_per_point v →
  window_slice w K i !! k = Some c →
  ∃ r, (r ∈ window_relabelled not_noise v w K i
        ∨ r ∈ window_relabelled is_noise v w K i)
       ∧ cl_id r = Z.of_nat k ∧ cpoints r = cpoints c ∧ cl_t r = cl_t c.
Proof.
  intros Hv Hc.
  destruct (lookup_lt_is_Some_2 (v (centroids (window_slice w K i))) k)
    as [l Hl].
  { rewrite Hv. unfold centroids. rewrite length_map.
    by eapply lookup_lt_Some. }
  exists (rewrapped (k, (c, l))). split; [|done].
  destruct (l =? -1) eqn:El.
  - right. apply elem_of_window_relabelled. exists k, c, l. done.
  - left. apply elem_of_window_relabelled. exists k, c, l.
    unfold not_noise. by rewrite El.
Qed.

(** C10. In every window result of the STC pass, the id of a re-wrapped
    cluster is the position, counted from 0, that the cluster has in the
    flattened union [Vj] of the window, whatever id it had before; every
    position of [Vj] is re-wrapped in [R[i]] or in [N[i]]; and a cluster
    that lies behind the [s] clusters of partition [i] in window [i] is
    re-wrapped with id [k] in window [i] and with id [k - s] in window
    [i + 1]. *)
Theorem v_clustering_ids v w K :
  one_label_per_point v → members_nonempty K →
  ∃ R N,
    _v_clustering v w K = Ok (R, N)
    ∧ (∀ (i : nat) Rj Nj r,
         R !! i = Some Rj → N !! i = Some Nj → r ∈ Rj ∨ r ∈ Nj →
         ∃ (k : nat) c,
           window_slice w K i !! k = Some c
           ∧ cl_id r = Z.of_nat k ∧ cpoints r = cpoints c ∧ cl_t r = cl_t c)
    ∧ (∀ (i k : nat) Rj Nj c,
         R !! i = Some Rj → N !! i = Some Nj →
         window_slice w K i !! k = Some c →
         ∃ r, (r ∈ Rj ∨ r ∈ Nj)
              ∧ cl_id r = Z.of_nat k ∧ cpoints r = cpoints c ∧ cl_t r = cl_t c)
    ∧ (∀ (i k : nat) Ki c,
         (S i < window_count w K)%nat →
         K !! i = Some Ki → (length Ki ≤ k)%nat →
         window_slice w K i !! k = Some c →
         ∃ Rj Nj Rj' Nj' r r',
           R !! i = Some Rj ∧ N !! i = Some Nj
           ∧ R !! S i = Some Rj' ∧ N !! S i = Some Nj'
           ∧ (r ∈ Rj ∨ r ∈ Nj) ∧ (r' ∈ Rj' ∨ r' ∈ Nj')
           ∧ cpoints r = cpoints c ∧ cl_t r = cl_t c
           ∧ cpoints r' = cpoints c ∧ cl_t r' = cl_t c
           ∧ cl_id r = Z.of_nat k
           ∧ cl_id r' = Z.of_nat k - len Ki).
Proof.
  intros Hv HK. eexists _, _. split; [by apply v_clustering_spec|].
  assert (Hlook : ∀ keep (i : nat) l,
    map (window_relabelled keep v w K) (seq 0 (window_count w K)) !! i = Some l →
    l = window_relabelled keep v w K i).
  { intros keep i l Hl. rewrite list_lookup_fmap in Hl.
    destruct (seq 0 _ !! i) as [j|] eqn:Ej; [|done].
    apply lookup_seq in Ej as [-> _]. by injection Hl as <-. }
  split; [|split].
  - intros i Rj Nj r HR HN Hr. apply Hlook in HR as ->. apply Hlook in HN as ->.
    destruct Hr as [Hr|Hr];
      apply elem_of_window_relabelled in Hr as (k & c & l & Hc & _ & _ & ->);
      exists k, c; done.
  - intros i k Rj Nj c HR HN Hc. apply Hlook in HR as ->. apply Hlook in HN as ->.
    by apply position_rewrapped.
  - intros i k Ki c Hi HKi Hk Hc.
    pose proof (window_slice_shift w K i k Ki c HKi Hk Hc) as Hc'.
    destruct (position_rewrapped v w K i k c Hv Hc) as (r & Hr & Hid & Hcp & Ht).
    destruct (position_rewrapped v w K (S i) _ c Hv Hc')
      as (r' & Hr' & Hid' & Hcp' & Ht').
    exists (window_relabelled not_noise v w K i),
           (window_relabelled is_noise v w K i),
           (window_relabelled not_noise v w K (S i)),
           (window_relabelled is_noise v w K (S i)), r, r'.
    rewrite !list_lookup_fmap, !lookup_seq_lt by lia. simpl.
    repeat split; try done. rewrite Hid'. unfold len. lia.
Qed.

Lemma v_clustering_ids_witness :
  ∃ R N,
    _v_clustering first_is_noise 2 K_ABC = Ok (R, N)
    ∧ (∀ (i : nat) Rj Nj r,
         R !! i = Some Rj → N !! i = Some Nj → r ∈ Rj ∨ r ∈ Nj →
         ∃ (k : nat) c,
           window_slice 2 K_ABC i !! k = Some c
           ∧ cl_id r = Z.of_nat k ∧ cpoints r = cpoints c ∧ cl_t r = cl_t c)
    ∧ (∀ (i k : nat) Rj Nj c,
         R !! i = Some Rj → N !! i = Some Nj →
         window_slice 2 K_ABC i !! k = Some c →
         ∃ r, (r ∈ Rj ∨ r ∈ Nj)
              ∧ cl_id r = Z.of_nat k ∧ cpoints r = cpoints c ∧ cl_t r = cl_t c)
    ∧ (∀ (i k : nat) Ki c,
         (S i < window_count 2 K_ABC)%nat →
         K_ABC !! i = Some Ki → (length Ki ≤ k)%nat →
         window_slice 2 K_ABC i !! k = Some c →
         ∃ Rj Nj Rj' Nj' r r',
           R !! i = Some Rj ∧ N !! i = Some Nj
           ∧ R !! S i = Some Rj' ∧ N !! S i = Some Nj'
           ∧ (r ∈ Rj ∨ r ∈ Nj) ∧ (r' ∈ Rj' ∨ r' ∈ Nj')
           ∧ cpoints r = cpoints c ∧ cl_t r = cl_t c
           ∧ cpoints r' = cpoints c ∧ cl_t r' = cl_t c
           ∧ cl_id r = Z.of_nat k
           ∧ cl_id r' = Z.of_nat k - len Ki).
Proof.
  exact (v_clustering_ids first_is_noise 2 K_ABC
           first_is_noise_contract K_ABC_members).
Defined.

(** On [K_ABC] with [w = 2]: the cluster of the second partition, whose
    own id is 1, is re-wrapped with id 1 in window 0 and with id 0 (as
    noise) in window 1. *)
Example v_clustering_ids_example :
  ∃ R N,
    _v_clustering first_is_noise 2 K_ABC = Ok (R, N)
    ∧ map (map (λ r, (cl_id r, cl_t r, cl_c r))) R = [[(1, 10, 0)]; [(1, 20, 0)]]
    ∧ map (map (λ r, (cl_id r, cl_t r, cl_c r))) N = [[(0, 0, -1)]; [(0, 10, -1)]].
Proof.
  eexists _, _. split.
  - apply v_clustering_spec; [apply first_is_noise_contract | apply K_ABC_members].
  - split; reflexivity.
Qed.

(** ** The distance table of [STHS] *)

Section InsertAll.

Context {V : Type}.
Implicit Types (kvs : list (Z * V)) (m : gmap Z V).

Lemma insert_all_app kvs1 kvs2 m :
  insert_all (kvs1 ++ kvs2) m = insert_all kvs2 (insert_all kvs1 m).
Proof. unfold insert_all. apply fold_left_app. Qed.

Lemma insert_all_lookup_Some kvs m k v :
  insert_all kvs m !! k = Some v → (k, v) ∈ kvs ∨ m !! k = Some v.
Proof.
  revert m. induction kvs as [|[k' v'] kvs IH]; intros m; simpl; [by right|].
  intros H. apply IH in H as [H|H]; [left; by right|].
  destruct (decide (k' = k)) as [->|Hne].
  - rewrite lookup_insert_eq in H. injection H as ->. left; left.
  - rewrite lookup_insert_ne in H by done. by right.
Qed.

Lemma insert_all_lookup_other kvs m k :
  k ∉ kvs.*1 → insert_all kvs m !! k = m !! k.
Proof.
  revert m. induction kvs as [|[k' v'] kvs IH]; intros m Hk; simpl; [done|].
  simpl in Hk. apply not_elem_of_cons in Hk as [Hne Hk].
  rewrite IH by done. by rewrite lookup_insert_ne.
Qed.

Lemma insert_all_lookup_NoDup kvs m k v :
  NoDup kvs.*1 → (k, v) ∈ kvs → insert_all kvs m !! k = Some v.
Proof.
  revert m. induction kvs as [|[k' v'] kvs IH]; intros m Hnd Hin; simpl.
  - by apply elem_of_nil in Hin.
  - simpl in Hnd. apply NoDup_cons in Hnd as [Hk' Hnd].
    apply elem_of_cons in Hin as [[= -> ->]|Hin].
    + rewrite insert_all_lookup_other by done. apply lookup_insert_eq.
    + by apply IH.
Qed.

End InsertAll.

Section DistanceTable.

Variable hav : R * R → R * R → R.
Variable w : Z.

Lemma setitem2_fold (d : gmap Z (gmap Z R)) ka (f : GetisCluster → R) bs row :
  d !! ka = Some row →
  fold_left (λ d b, setitem2 d ka (gc_id b) (f b)) bs d
  = <[ka := insert_all (map (λ b, (gc_id b, f b)) bs) row]> d.
Proof.
  revert d row. induction bs as [|b bs IH]; intros d row Hrow; simpl.
  - symmetry. by apply insert_id.
  - unfold setitem2 at 2. rewrite Hrow. simpl.
    erewrite IH by apply lookup_insert_eq.
    by rewrite insert_insert_eq.
Qed.

Lemma range_of_nat (i : nat) :
  range (Z.of_nat i) (Z.of_nat i + w) = map Z.of_nat (seq i (Z.to_nat w)).
Proof.
  unfold range. replace (Z.of_nat i + w - Z.of_nat i) with w by lia.
  apply list_eq. intros k. rewrite !list_lookup_fmap.
  destruct (decide (k < Z.to_nat w)%nat).
  - rewrite !lookup_seq_lt by done. simpl. f_equal. lia.
  - rewrite !lookup_seq_ge by lia. done.
Qed.

Lemma window_slice_cons {A} (K : list (list A)) (i n : nat) Ki :
  K !! i = Some Ki →
  concat (take (S n) (drop i K)) = Ki ++ concat (take n (drop (S i) K)).
Proof. intros HKi. by rewrite (drop_S _ _ _ HKi). Qed.

Lemma window_slice_beyond {A} (K : list (list A)) (i n : nat) :
  K !! i = None → concat (take n (drop i K)) = [].
Proof.
  intros HKi. rewrite drop_ge by (by apply lookup_ge_None).
  by rewrite take_nil.
Qed.

Lemma try_rows_spec GC a (n i : nat) (d : gmap Z (gmap Z R)) row :
  d !! gc_id a = Some row →
  ∃ e, (e = None ∨ e = Some IndexError)
       ∧ try_rows hav GC a (map Z.of_nat (seq i n)) d
         = (<[gc_id a :=
                insert_all (map (λ b, (gc_id b, centroid_distance hav a b))
                                (concat (take n (drop i GC)))) row]> d, e).
Proof.
  revert i d row. induction n as [|n IH]; intros i d row Hrow.
  - exists None. split; [by left|]. simpl. by rewrite insert_id.
  - simpl. rewrite getitem_nonneg by lia. rewrite Nat2Z.id.
    destruct (GC !! i) as [GCi|] eqn:EGi.
    + rewrite (setitem2_fold _ _ _ _ _ Hrow).
      edestruct (IH (S i)) as (e & He & ->); [apply lookup_insert_eq|].
      exists e. split; [done|]. f_equal.
      rewrite insert_insert_eq. f_equal.
      rewrite (window_slice_cons _ _ _ _ EGi), map_app, insert_all_app. done.
    + exists (Some IndexError). split; [by right|].
      rewrite window_slice_beyond by done. simpl. by rewrite insert_id.
Qed.

(** What the loops of [_calculate_distance] do for one cluster. *)
Lemma calculate_distance_cluster GC (i : nat) a (d : gmap Z (gmap Z R)) :
  (let distances := <[gc_id a := ∅]> d in
   match try_rows hav GC a (range (Z.of_nat i) (Z.of_nat i + w)) distances with
   | (distances, None) => Ok distances
   | (distances, Some IndexError) => Ok distances
   | (_, Some e) => Raise e
   end)
  = Ok (<[gc_id a := distance_row hav a (window_slice w GC i)]> d).
Proof.
  simpl. rewrite range_of_nat.
  edestruct (try_rows_spec GC a (Z.to_nat w) i) as (e & He & ->);
    [apply lookup_insert_eq|].
  rewrite insert_insert_eq. unfold distance_row, window_slice.
  destruct He as [-> | ->]; done.
Qed.

Lemma calculate_distance_partition GC (i : nat) GCi (d : gmap Z (gmap Z R)) :
  for_each
    (λ distances clustera,
       let distances := <[gc_id clustera := ∅]> distances in
       match try_rows hav GC clustera (range (Z.of_nat i) (Z.of_nat i + w))
                      distances with
       | (distances, None) => Ok distances
       | (distances, Some IndexError) => Ok distances
       | (_, Some e) => Raise e
       end)
    GCi d
  = Ok (insert_all
          (map (λ ia : nat * GetisCluster,
                  (gc_id ia.2, distance_row hav ia.2 (window_slice w GC ia.1)))
               (map (λ a, (i, a)) GCi))
          d).
Proof.
  revert d. induction GCi as [|a GCi IH]; intros d; [done|].
  cbn [for_each]. rewrite calculate_distance_cluster, bind_Ok_l, IH. done.
Qed.

Lemma indexed_snoc {A} (GC : list (list A)) (GCi : list A) :
  indexed (GC ++ [GCi]) = indexed GC ++ map (λ a, (length GC, a)) GCi.
Proof.
  unfold indexed. rewrite imap_app, concat_app. simpl.
  by rewrite app_nil_r, Nat.add_0_r.
Qed.

Lemma calculate_distance_spec GC :
  _calculate_distance hav w GC
  = Ok (insert_all
          (map (λ ia : nat * GetisCluster,
                  (gc_id ia.2, distance_row hav ia.2 (window_slice w GC ia.1)))
               (indexed GC))
          ∅).
Proof.
  unfold _calculate_distance. rewrite range_zero_to. unfold len.
  rewrite Nat2Z.id.
  assert (Hcnt : ∀ cnt, (cnt ≤ length GC)%nat →
    for_each
      (λ distances i,
         GCja ← getitem GC i;
         for_each
           (λ distances clustera,
              let distances := <[gc_id clustera := ∅]> distances in
              match try_rows hav GC clustera (range i (i + w)) distances with
              | (distances, None) => Ok distances
              | (distances, Some IndexError) => Ok distances
              | (_, Some e) => Raise e
              end)
           GCja distances)
      (map Z.of_nat (seq 0 cnt)) ∅
    = Ok (insert_all
            (map (λ ia : nat * GetisCluster,
                    (gc_id ia.2, distance_row hav ia.2 (window_slice w GC ia.1)))
                 (indexed (take cnt GC)))
            ∅)).
  { induction cnt as [|cnt IH]; intros Hle; [done|].
    rewrite seq_S, map_app, for_each_app, IH by lia.
    rewrite bind_Ok_l. simpl map. rewrite for_each_singleton.
    destruct (lookup_lt_is_Some_2 GC cnt) as [GCi HGi]; [lia|].
    rewrite getitem_nonneg by lia. rewrite Nat2Z.id, HGi, bind_Ok_l.
    rewrite calculate_distance_partition.
    rewrite (take_S_r _ _ _ HGi), indexed_snoc, map_app, insert_all_app.
    rewrite length_take_le by lia. done. }
  rewrite Hcnt by done. by rewrite take_ge.
Qed.

End DistanceTable.

Lemma elem_of_indexed {A} (GC : list (list A)) (i : nat) (a : A) :
  (i, a) ∈ indexed GC ↔ ∃ GCi, GC !! i = Some GCi ∧ a ∈ GCi.
Proof.
  induction GC as [|GCn GC IH] using rev_ind.
  - unfold indexed. simpl. split; [by intros ?%elem_of_nil|].
    by intros (? & ? & _).
  - rewrite indexed_snoc, elem_of_app, IH, list_elem_of_fmap. split.
    + intros [(GCi & HGi & Ha) | (a' & [= -> ->] & Ha)].
      * exists GCi. split; [|done]. by apply lookup_app_l_Some.
      * exists GCn. split; [|done]. by rewrite list_lookup_middle.
    + intros (GCi & HGi & Ha).
      apply lookup_app_Some in HGi as [HGi | [Hle HGi]].
      * left. eauto.
      * right. destruct (i - length GC)%nat as [|k] eqn:Ek; [|done].
        injection HGi as <-. exists a. split; [|done]. f_equal. lia.
Qed.

Lemma indexed_snd {A} (GC : list (list A)) : (indexed GC).*2 = concat GC.
Proof.
  induction GC as [|GCn GC IH] using rev_ind; [done|].
  rewrite indexed_snoc, fmap_app, IH, concat_app. simpl.
  rewrite app_nil_r. f_equal. rewrite <- list_fmap_compose.
  apply list_fmap_id.
Qed.

Lemma NoDup_fmap_inj {A B} (f : A → B) (l : list A) x y :
  NoDup (f <$> l) → x ∈ l → y ∈ l → f x = f y → x = y.
Proof.
  induction l as [|z l IH]; intros Hnd Hx Hy Hxy.
  - by apply elem_of_nil in Hx.
  - simpl in Hnd. apply NoDup_cons in Hnd as [Hz Hnd].
    apply elem_of_cons in Hx as [->|Hx]; apply elem_of_cons in Hy as [->|Hy].
    + done.
    + exfalso. apply Hz. rewrite Hxy. by apply list_elem_of_fmap_2.
    + exfalso. apply Hz. rewrite <- Hxy. by apply list_elem_of_fmap_2.
    + by apply IH.
Qed.

Lemma sublist_concat {A} (l1 l2 : list (list A)) :
  l1 `sublist_of` l2 → concat l1 `sublist_of` concat l2.
Proof.
  induction 1 as [|x l1 l2 _ IH|x l1 l2 _ IH]; simpl.
  - done.
  - by apply sublist_app.
  - by apply sublist_inserts_l.
Qed.

Lemma window_slice_sublist {A} w (GC : list (list A)) i :
  window_slice w GC i `sublist_of` concat GC.
Proof.
  unfold window_slice. apply sublist_concat.
  etrans; [apply sublist_take | apply sublist_drop].
Qed.

Lemma elem_of_concat_lookup {A} (GC : list (list A)) (i : nat) GCi a :
  GC !! i = Some GCi → a ∈ GCi → a ∈ concat GC.
Proof.
  intros HGi Ha. apply elem_of_concat. exists GCi. split; [done|].
  by eapply list_elem_of_lookup_2.
Qed.

Section DistanceLookup.

Variable hav : R * R → R * R → R.
Variable w : Z.
Variable GC : list (list GetisCluster).

(** Every stored distance lies between a cluster of a partition [i] and
    a cluster of one of the partitions [i], ..., [i + w - 1]. *)
Lemma stored_within_horizon ka kb d :
  getitem2 (distance_table hav w GC) ka kb = Some d →
  ∃ (i j : nat) GCi GCj a b,
    GC !! i = Some GCi ∧ GC !! j = Some GCj ∧ a ∈ GCi ∧ b ∈ GCj
    ∧ gc_id a = ka ∧ gc_id b = kb
    ∧ (i ≤ j)%nat ∧ Z.of_nat j < Z.of_nat i + w
    ∧ d = centroid_distance hav a b.
Proof.
  unfold getitem2. intros H.
  destruct (distance_table hav w GC !! ka) as [row|] eqn:Erow; [|done].
  simpl in H.
  unfold distance_table in Erow.
  apply insert_all_lookup_Some in Erow as [Erow|Erow];
    [|by rewrite lookup_empty in Erow].
  apply list_elem_of_fmap in Erow as ([i a] & [= -> ->] & Hia). simpl in *.
  apply elem_of_indexed in Hia as (GCi & HGi & Ha).
  unfold distance_row in H.
  apply insert_all_lookup_Some in H as [H|H]; [|by rewrite lookup_empty in H].
  apply list_elem_of_fmap in H as (b & [= -> ->] & Hb).
  apply elem_of_window_slice in Hb as (j & GCj & Hij & Hjw & HGj & Hb).
  exists i, j, GCi, GCj, a, b. done.
Qed.

Hypothesis Hids : distinct_ids GC.

(** With distinct ids, the distance from a cluster of partition [p] to a
    cluster of a partition [q] in [p], ..., [p + w - 1] is stored under
    the key order (first, second). *)
Lemma stored_forward (p q : nat) GCp GCq a b :
  GC !! p = Some GCp → GC !! q = Some GCq → a ∈ GCp → b ∈ GCq →
  (p ≤ q)%nat → Z.of_nat q < Z.of_nat p + w →
  getitem2 (distance_table hav w GC) (gc_id a) (gc_id b)
  = Some (centroid_distance hav a b).
Proof.
  intros HGp HGq Ha Hb Hpq Hqw. unfold getitem2.
  assert (distance_table hav w GC !! gc_id a
          = Some (distance_row hav a (window_slice w GC p))) as ->.
  { unfold distance_table. apply insert_all_lookup_NoDup.
    - rewrite <- list_fmap_compose.
      replace (fst ∘ _) with (gc_id ∘ (snd : nat * GetisCluster → GetisCluster))
        by done.
      rewrite list_fmap_compose, indexed_snd. exact Hids.
    - apply list_elem_of_fmap. exists (p, a). split; [done|].
      apply elem_of_indexed. eauto. }
  simpl. unfold distance_row. apply insert_all_lookup_NoDup.
  - rewrite <- list_fmap_compose.
    replace (fst ∘ _) with gc_id by done.
    eapply sublist_NoDup; [exact Hids|apply fmap_sublist, window_slice_sublist].
  - apply list_elem_of_fmap. exists b. split; [done|].
    apply elem_of_window_slice. exists q, GCq. done.
Qed.

(** For two clusters of one window, [weight] finds the distance under
    one of the two key orders and does not raise. *)
Lemma weight_within_window (i p q : nat) GCp GCq a b z :
  GC !! p = Some GCp → GC !! q = Some GCq → a ∈ GCp → b ∈ GCq →
  (i ≤ p)%nat → Z.of_nat p < Z.of_nat i + w →
  (i ≤ q)%nat → Z.of_nat q < Z.of_nat i + w →
  ∃ d, weight (distance_table hav w GC) z a b = Ok (1 * exp (- (IZR z + 1) * d))%R
       ∧ (getitem2 (distance_table hav w GC) (gc_id a) (gc_id b) = Some d
          ∨ getitem2 (distance_table hav w GC) (gc_id b) (gc_id a) = Some d)
       ∧ (d = centroid_distance hav a b ∨ d = centroid_distance hav b a).
Proof.
  intros HGp HGq Ha Hb Hip Hpw Hiq Hqw. unfold weight.
  destruct (getitem2 (distance_table hav w GC) (gc_id a) (gc_id b)) as [d|] eqn:E1.
  - exists d. split; [done|]. split; [by left|]. left.
    apply stored_within_horizon in E1
      as (i' & j' & GCi & GCj & a' & b' & HGi & HGj & Ha' & Hb'
          & Hida & Hidb & _ & _ & ->).
    assert (a' = a) as ->.
    { apply (NoDup_fmap_inj gc_id (concat GC)); [exact Hids|..|done].
      - exact (elem_of_concat_lookup _ _ _ _ HGi Ha').
      - exact (elem_of_concat_lookup _ _ _ _ HGp Ha). }
    assert (b' = b) as ->.
    { apply (NoDup_fmap_inj gc_id (concat GC)); [exact Hids|..|done].
      - exact (elem_of_concat_lookup _ _ _ _ HGj Hb').
      - exact (elem_of_concat_lookup _ _ _ _ HGq Hb). }
    done.
  - destruct (decide (p ≤ q)%nat) as [Hpq|Hpq].
    + rewrite (stored_forward p q GCp GCq a b) in E1 by (done || lia). done.
    + rewrite (stored_forward q p GCq GCp b a) by (done || lia).
      exists (centroid_distance hav b a). split; [done|].
      split; by right.
Qed.

End DistanceLookup.

(** ** [STHS._create_getis_clusters] *)

Lemma GetisCluster_init_nonempty (cluster : Cluster) (st : store) :
  cpoints cluster ≠ [] →
  GetisCluster_init (cl_id cluster) (cpoints cluster) (cl_c cluster) st
  = Ok (getis_of (length st) cluster, st ++ [fresh]).
Proof.
  intros Hne. unfold GetisCluster_init. by rewrite centroid_nonempty.
Qed.

Lemma create_getis_partition (Kj : list Cluster) (st : store) GCj :
  Forall (λ cluster, cpoints cluster ≠ []) Kj →
  for_each
    (λ '(GCj, st) cluster,
       '(gc, st') ← GetisCluster_init (cl_id cluster) (cpoints cluster)
                                      (cl_c cluster) st;
       Ok (GCj ++ [gc], st'))
    Kj (GCj, st)
  = Ok (GCj ++ imap (λ k cluster, getis_of (length st + k) cluster) Kj,
        st ++ replicate (length Kj) fresh).
Proof.
  revert st GCj. induction Kj as [|cluster Kj IH]; intros st GCj Hne.
  - simpl. by rewrite !app_nil_r.
  - apply Forall_cons in Hne as [Hc Hne]. cbn [for_each].
    rewrite GetisCluster_init_nonempty by done. rewrite !bind_Ok_l.
    rewrite IH by done. rewrite length_app. simpl.
    rewrite <- !app_assoc. simpl. rewrite Nat.add_0_r.
    do 4 f_equal. apply imap_ext. intros k c _. simpl. f_equal. lia.
Qed.

Lemma create_getis_clusters_spec (K : list (list Cluster)) (st : store) :
  members_nonempty K →
  _create_getis_clusters K st
  = Ok (getis_partitions (length st) K,
        st ++ replicate (length (concat K)) fresh).
Proof.
  intros HK. unfold _create_getis_clusters.
  enough (Hgen : ∀ K GC st, members_nonempty K →
    for_each
      (λ '(GC, st) Kj,
         '(GCj, st') ← for_each
           (λ '(GCj, st) cluster,
              '(gc, st') ← GetisCluster_init (cl_id cluster) (cpoints cluster)
                                             (cl_c cluster) st;
              Ok (GCj ++ [gc], st'))
           Kj ([], st);
         Ok (GC ++ [GCj], st'))
      K (GC, st)
    = Ok (GC ++ getis_partitions (length st) K,
          st ++ replicate (length (concat K)) fresh))
    by (by apply (Hgen K [] st)).
  clear. induction K as [|Kj K IH]; intros GC st HK.
  - simpl. by rewrite !app_nil_r.
  - apply Forall_cons in HK as [HKj HK]. cbn [for_each].
    rewrite create_getis_partition by done. rewrite !bind_Ok_l.
    rewrite IH by done. simpl.
    rewrite length_app, length_replicate, <- !app_assoc. simpl.
    rewrite length_app, replicate_add. done.
Qed.

Lemma getis_partitions_fields (ref : nat) (K : list (list Cluster)) :
  Forall2 (Forall2 (λ cluster gc,
                      gc_id gc = cl_id cluster
                      ∧ gc_cpoints gc = cpoints cluster
                      ∧ gc_x gc = len (cpoints cluster)
                      ∧ gc_t gc = cl_c cluster))
          K (getis_partitions ref K).
Proof.
  revert ref. induction K as [|Kj K IH]; intros ref; simpl; constructor.
  - generalize ref. clear. induction Kj as [|c Kj IH]; intros ref; simpl;
      constructor; [done|].
    rewrite (imap_ext _ (λ k cluster, getis_of (S ref + k) cluster)).
    + apply IH.
    + intros k c' _. simpl. f_equal. lia.
  - apply IH.
Qed.

(** Whatever its timestamp, a cluster is wrapped with its label in the
    field [t]. *)
Lemma create_getis_clusters_fields (K : list (list Cluster)) (st : store) :
  members_nonempty K →
  ∃ GC st',
    _create_getis_clusters K st = Ok (GC, st')
    ∧ Forall2 (Forall2 (λ cluster gc,
                          gc_id gc = cl_id cluster
                          ∧ gc_cpoints gc = cpoints cluster
                          ∧ gc_x gc = len (cpoints cluster)
                          ∧ gc_t gc = cl_c cluster))
              K GC.
Proof.
  intros HK. eexists _, _. split; [by apply create_getis_clusters_spec|].
  apply getis_partitions_fields.
Qed.

(** C8. The table [_calculate_distance] returns holds a distance only
    for a cluster of some partition [i] and a cluster of one of the
    partitions [i], ..., [i + w - 1] (so of none beyond [i + w]); and,
    the ids being distinct, for any two clusters of one window [weight]
    finds their distance under one of the two key orders and returns
    [exp(-(z+1) * d)] without raising. *)
Theorem distance_table_bounded hav w GC :
  distinct_ids GC →
  ∃ distances,
    _calculate_distance hav w GC = Ok distances
    ∧ (∀ ka kb d,
         getitem2 distances ka kb = Some d →
         ∃ (i j : nat) GCi GCj a b,
           GC !! i = Some GCi ∧ GC !! j = Some GCj ∧ a ∈ GCi ∧ b ∈ GCj
           ∧ gc_id a = ka ∧ gc_id b = kb
           ∧ (i ≤ j)%nat ∧ Z.of_nat j < Z.of_nat i + w
           ∧ d = centroid_distance hav a b)
    ∧ (∀ (i p q : nat) GCp GCq a b z,
         GC !! p = Some GCp → GC !! q = Some GCq → a ∈ GCp → b ∈ GCq →
         (i ≤ p)%nat → Z.of_nat p < Z.of_nat i + w →
         (i ≤ q)%nat → Z.of_nat q < Z.of_nat i + w →
         ∃ d, weight distances z a b = Ok (1 * exp (- (IZR z + 1) * d))%R
              ∧ (getitem2 distances (gc_id a) (gc_id b) = Some d
                 ∨ getitem2 distances (gc_id b) (gc_id a) = Some d)
              ∧ (d = centroid_distance hav a b
                 ∨ d = centroid_distance hav b a)).
Proof.
  intros Hids. eexists. split; [apply calculate_distance_spec|]. split.
  - apply stored_within_horizon.
  - intros i p q GCp GCq a b z. by apply weight_within_window.
Qed.

Lemma GC_ABC_distinct_ids : distinct_ids GC_ABC.
Proof.
  unfold distinct_ids. simpl. apply (bool_decide_unpack _). reflexivity.
Qed.

Lemma distance_table_bounded_witness :
  ∃ distances,
    _calculate_distance haversine 2 GC_ABC = Ok distances
    ∧ (∀ ka kb d,
         getitem2 distances ka kb = Some d →
         ∃ (i j : nat) GCi GCj a b,
           GC_ABC !! i = Some GCi ∧ GC_ABC !! j = Some GCj ∧ a ∈ GCi ∧ b ∈ GCj
           ∧ gc_id a = ka ∧ gc_id b = kb
           ∧ (i ≤ j)%nat ∧ Z.of_nat j < Z.of_nat i + 2
           ∧ d = centroid_distance haversine a b)
    ∧ (∀ (i p q : nat) GCp GCq a b z,
         GC_ABC !! p = Some GCp → GC_ABC !! q = Some GCq → a ∈ GCp → b ∈ GCq →
         (i ≤ p)%nat → Z.of_nat p < Z.of_nat i + 2 →
         (i ≤ q)%nat → Z.of_nat q < Z.of_nat i + 2 →
         ∃ d, weight distances z a b = Ok (1 * exp (- (IZR z + 1) * d))%R
              ∧ (getitem2 distances (gc_id a) (gc_id b) = Some d
                 ∨ getitem2 distances (gc_id b) (gc_id a) = Some d)
              ∧ (d = centroid_distance haversine a b
                 ∨ d = centroid_distance haversine b a)).
Proof.
  exact (distance_table_bounded haversine 2 GC_ABC GC_ABC_distinct_ids).
Defined.

(** ** The sums of the Gi* statistic *)

Lemma cauchy_step (k sw sw2 wt : R) :
  (0 <= k → 0 <= sw2 → sw ^ 2 <= k * sw2 →
   (sw + wt) ^ 2 <= (k + 1) * (sw2 + wt ^ 2))%R.
Proof.
  intros Hk Hsw2 Hcs.
  destruct (Req_dec k 0) as [->|Hk0].
  - assert (sw = 0)%R by nra. subst. nra.
  - assert (0 < k)%R by lra.
    assert (0 <= sw2 + k * wt ^ 2 - 2 * sw * wt)%R.
    { apply Rmult_le_reg_l with k; [done|].
      pose proof (pow2_ge_0 (sw - k * wt)). nra. }
    nra.
Qed.

Section Sums.

Variable distances : gmap Z (gmap Z R).
Variable gc1 : GetisCluster.

Lemma weighted_sums_total Vj :
  weights_available distances gc1 Vj → ∃ s, weighted_sums distances Vj gc1 = Ok s.
Proof.
  unfold weighted_sums. generalize (0, 0, 0)%R as acc.
  induction Vj as [|gc2 Vj IH]; intros acc Hw.
  - by eexists.
  - destruct (Hw gc2 ltac:(left)) as [wt Hwt]. cbn [for_each].
    destruct acc as [[swx sw] sw2]. rewrite Hwt, !bind_Ok_l.
    apply IH. intros gc Hgc. apply Hw. by right.
Qed.

Lemma weighted_sums_cauchy Vj swx sw sw2 :
  weighted_sums distances Vj gc1 = Ok (swx, sw, sw2) →
  (sw ^ 2 <= INR (length Vj) * sw2 ∧ 0 <= sw2)%R.
Proof.
  unfold weighted_sums.
  apply (for_each_inv
           (λ seen (s : R * R * R),
              (s.1.2 ^ 2 <= INR (length seen) * s.2 ∧ 0 <= s.2)%R)).
  - simpl. lra.
  - intros seen gc2 [[swx0 sw0] sw20] s' [Hcs Hpos] _ Hbody.
    cbn [fst snd] in *.
    apply bind_Ok in Hbody as (wt & _ & [= <-]). cbn [fst snd].
    replace (length (seen ++ [gc2])) with (S (length seen))
      by (rewrite length_app; simpl; lia).
    rewrite S_INR. split.
    + apply cauchy_step; [apply pos_INR|done..].
    + pose proof (pow2_ge_0 wt). lra.
Qed.

Lemma weighted_sums_constant Vj x0 swx sw sw2 :
  Forall (λ gc, gc_x gc = x0) Vj →
  weighted_sums distances Vj gc1 = Ok (swx, sw, sw2) →
  swx = (IZR x0 * sw)%R.
Proof.
  intros Hx Hs. revert Hx. unfold weighted_sums in Hs. revert Hs.
  apply (for_each_inv
           (λ seen (s : R * R * R),
              Forall (λ gc, gc_x gc = x0) seen → s.1.1 = (IZR x0 * s.1.2)%R)).
  - simpl. intros _. lra.
  - intros seen gc2 [[swx0 sw0] sw20] s' IH _ Hbody Hx. cbn [fst snd] in *.
    apply bind_Ok in Hbody as (wt & _ & [= <-]). cbn [fst snd].
    apply Forall_app in Hx as [Hseen Hgc2].
    apply Forall_cons in Hgc2 as [Hgc2 _]. rewrite Hgc2, (IH Hseen). lra.
Qed.

End Sums.

Lemma for_each_raise_at {A S} (body : S → A → result S) xs s x :
  x ∈ xs → (∀ s, ∃ e, body s x = Raise e) →
  ∃ e, for_each body xs s = Raise e.
Proof.
  revert s. induction xs as [|y xs IH]; intros s Hx Hbody.
  - by apply elem_of_nil in Hx.
  - cbn [for_each]. apply elem_of_cons in Hx as [<-|Hx].
    + destruct (Hbody s) as [e ->]. by exists e.
    + destruct (body s y) as [s'|e]; [|by exists e].
      rewrite bind_Ok_l. by apply IH.
Qed.

Lemma sum_Z_constant (xs : list Z) (x0 : Z) :
  Forall (λ x, x = x0) xs → sum_Z xs = len xs * x0.
Proof.
  unfold sum_Z, len.
  enough (Hgen : ∀ acc, Forall (λ x, x = x0) xs →
            fold_left Z.add xs acc = acc + Z.of_nat (length xs) * x0)
    by (intros H; rewrite Hgen by done; lia).
  induction xs as [|x xs IH]; intros acc Hx; simpl; [lia|].
  apply Forall_cons in Hx as [-> Hx]. rewrite IH by done. lia.
Qed.

Lemma len_map {A B} (f : A → B) (l : list A) : len (map f l) = len l.
Proof. unfold len. by rewrite length_map. Qed.

Lemma math_sqrt_0 : math_sqrt 0 = Ok 0%R.
Proof.
  unfold math_sqrt. destruct (Rlt_dec 0 0) as [H|_]; [lra|]. by rewrite sqrt_0.
Qed.

Lemma math_sqrt_nonneg (a : R) : (0 <= a)%R → math_sqrt a = Ok (sqrt a).
Proof. intros Ha. unfold math_sqrt. destruct (Rlt_dec a 0); [lra|done]. Qed.

(** With [S = 0] the assignment to [gc1.gi] divides by zero: by
    [n - 1] when [n = 1], by [S * sqrt(...)] otherwise. *)
Lemma gi_star_zero_deviation (n : Z) (x_bar swx sw sw2 : R) :
  1 ≤ n → (sw ^ 2 <= IZR n * sw2)%R →
  gi_star n x_bar 0 swx sw sw2 = Raise ZeroDivisionError.
Proof.
  intros Hn Hcs. unfold gi_star.
  destruct (Req_dec_T (IZR (n - 1)) 0) as [E|Hn1].
  { rewrite E, true_div_zero. reflexivity. }
  rewrite true_div_nonzero, bind_Ok_l by done.
  assert (0 < IZR (n - 1))%R as Hpos.
  { apply IZR_lt. assert (n - 1 ≠ 0) by (intros E; apply Hn1; by rewrite E). lia. }
  rewrite math_sqrt_nonneg.
  - rewrite bind_Ok_l, Rmult_0_l. apply true_div_zero.
  - apply Rmult_le_pos; [lra|]. left. by apply Rinv_0_lt_compat.
Qed.

Lemma score_cluster_degenerate distances a Vj x_bar st gc1 :
  1 ≤ len Vj →
  weights_available distances gc1 Vj →
  score_cluster distances a Vj (len Vj) x_bar 0 st gc1
  = Raise ZeroDivisionError.
Proof.
  intros Hn Hw. unfold score_cluster.
  destruct (weighted_sums_total distances gc1 Vj Hw) as [[[swx sw] sw2] Hs].
  rewrite Hs, bind_Ok_l.
  apply weighted_sums_cauchy in Hs as [Hcs _].
  rewrite gi_star_zero_deviation; [done|done|].
  unfold len. by rewrite <- INR_IZR_INZ.
Qed.

Lemma score_window_degenerate distances a Vj st x0 :
  Vj ≠ [] →
  Forall (λ gc, gc_x gc = x0) Vj →
  (∀ gc1, gc1 ∈ Vj → weights_available distances gc1 Vj) →
  score_window distances a Vj st = Raise ZeroDivisionError.
Proof.
  intros Hne Hx Hw. unfold score_window.
  assert (1 ≤ len Vj) as Hn by (unfold len; destruct Vj; [done|simpl; lia]).
  destruct (len Vj =? 0) eqn:E; [lia|]. clear E.
  assert (IZR (len Vj) ≠ 0%R) as Hn0 by (apply not_0_IZR; lia).
  rewrite (sum_Z_constant (map gc_x Vj) x0) by (by apply Forall_fmap).
  rewrite (sum_Z_constant (map (λ gc, gc_x gc ^ 2) Vj) (x0 ^ 2)).
  2:{ apply Forall_fmap. eapply Forall_impl; [exact Hx|].
      simpl. by intros gc ->. }
  rewrite !len_map.
  rewrite !true_div_nonzero, !bind_Ok_l by done.
  replace (x0 ^ 2) with (x0 * x0) by lia. rewrite !mult_IZR.
  replace (IZR (len Vj) * (IZR x0 * IZR x0) / IZR (len Vj)
           - (IZR (len Vj) * IZR x0 / IZR (len Vj)) ^ 2)%R with 0%R
    by (field; done).
  rewrite math_sqrt_0, bind_Ok_l.
  destruct Vj as [|gc1 Vj']; [done|]. cbn [for_each].
  rewrite score_cluster_degenerate; [done|done|apply Hw; left].
Qed.

(** ** The Gi* pass over the windows *)

Lemma calculate_distance_table hav w GC :
  _calculate_distance hav w GC = Ok (distance_table hav w GC).
Proof. apply calculate_distance_spec. Qed.

Lemma getis_ord_unfold hav w GC a st :
  _calculate_getis_ord hav w GC a st
  = for_each
      (λ '(V, st) i,
         Vj ← window w GC i;
         st' ← score_window (distance_table hav w GC) a Vj st;
         Ok (V ++ [Vj], st'))
      (map Z.of_nat (seq 0 (window_count w GC))) ([], st).
Proof.
  unfold _calculate_getis_ord.
  rewrite calculate_distance_table, bind_Ok_l, range_zero_to. done.
Qed.

Lemma weights_available_window hav w GC (i : nat) gc1 :
  distinct_ids GC →
  gc1 ∈ window_slice w GC i →
  weights_available (distance_table hav w GC) gc1 (window_slice w GC i).
Proof.
  intros Hids H1 gc2 H2.
  apply elem_of_window_slice in H1 as (p & GCp & Hip & Hpw & HGp & H1).
  apply elem_of_window_slice in H2 as (q & GCq & Hiq & Hqw & HGq & H2).
  destruct (weight_within_window hav w GC Hids i p q GCp GCq gc1 gc2
              (Z.abs (gc_t gc1 - gc_t gc2)))
    as (d & Hd & _); try done.
  eauto.
Qed.

Lemma degenerate_constant (Vj : list GetisCluster) :
  degenerate Vj → Vj ≠ [] ∧ ∃ x0, Forall (λ gc, gc_x gc = x0) Vj.
Proof.
  intros [H1|H]; [|done].
  destruct Vj as [|gc [|? ?]]; try done.
  split; [done|]. exists (gc_x gc). by repeat constructor.
Qed.

(** A window on which the first square root is taken of zero makes the
    pass raise, from whatever store it starts. *)
Lemma degenerate_window_pass hav w GC a st (i : nat) :
  distinct_ids GC →
  (i < window_count w GC)%nat →
  degenerate (window_slice w GC i) →
  window w GC (Z.of_nat i) = Ok (window_slice w GC i)
  ∧ (∀ st', score_window (distance_table hav w GC) a (window_slice w GC i) st'
            = Raise ZeroDivisionError)
  ∧ (∃ e, _calculate_getis_ord hav w GC a st = Raise e).
Proof.
  intros Hids Hi Hdeg.
  apply degenerate_constant in Hdeg as (Hne & x0 & Hx).
  assert (Hwin : window w GC (Z.of_nat i) = Ok (window_slice w GC i))
    by (apply window_in_range; unfold window_count in Hi; lia).
  assert (Hscore : ∀ st',
    score_window (distance_table hav w GC) a (window_slice w GC i) st'
    = Raise ZeroDivisionError).
  { intros st'. apply (score_window_degenerate _ _ _ _ x0); [done..|].
    intros gc1 H1. by apply weights_available_window. }
  split; [done|]. split; [done|].
  rewrite getis_ord_unfold.
  apply (for_each_raise_at _ _ _ (Z.of_nat i)).
  - apply list_elem_of_fmap. exists i. split; [done|].
    apply elem_of_seq. lia.
  - intros [V st']. exists ZeroDivisionError.
    by rewrite Hwin, bind_Ok_l, Hscore.
Qed.

(** C3, as amended. The ids being distinct, a window that holds a single
    cluster, or clusters that all have the same feature value, is given
    no fallback classification: its scoring raises, from whatever state
    of the objects it starts, and the whole pass raises instead of
    returning. For a window that holds a single cluster the exception
    is [ZeroDivisionError], from the division by [n - 1 = 0], and it is
    the exception of the pass when that window is the first one. (For a
    window of several clusters with one feature value the statement
    names no exception: the divisor [S * sqrt(...)] is zero in exact
    arithmetic, but on floats the radicand can round below zero and
    [math.sqrt] then raises first.) *)
Theorem degenerate_window_raises hav w GC a st (i : nat) :
  distinct_ids GC →
  (i < window_count w GC)%nat →
  degenerate (window_slice w GC i) →
  ∃ distances,
    _calculate_distance hav w GC = Ok distances
    ∧ window w GC (Z.of_nat i) = Ok (window_slice w GC i)
    ∧ (∀ st', ∃ e, score_window distances a (window_slice w GC i) st'
                   = Raise e)
    ∧ (∃ e, _calculate_getis_ord hav w GC a st = Raise e)
    ∧ (length (window_slice w GC i) = 1%nat →
       (∀ st', score_window distances a (window_slice w GC i) st'
               = Raise ZeroDivisionError)
       ∧ (i = 0%nat →
          _calculate_getis_ord hav w GC a st = Raise ZeroDivisionError)).
Proof.
  intros Hids Hi Hdeg.
  destruct (degenerate_window_pass hav w GC a st i Hids Hi Hdeg)
    as (Hwin & Hscore & Hpass).
  exists (distance_table hav w GC).
  split; [apply calculate_distance_table|]. split; [done|].
  split; [intros st'; by exists ZeroDivisionError|]. split; [done|].
  intros Hone. split; [done|]. intros ->.
  rewrite getis_ord_unfold.
  destruct (window_count w GC) as [|cnt]; [lia|].
  cbn [seq map for_each]. change (Z.of_nat 0) with 0 in *.
  by rewrite Hwin, bind_Ok_l, Hscore.
Qed.

Lemma first_window_degenerate hav w GC a st :
  distinct_ids GC →
  (0 < window_count w GC)%nat →
  degenerate (window_slice w GC 0) →
  _calculate_getis_ord hav w GC a st = Raise ZeroDivisionError.
Proof.
  intros Hids Hi Hdeg.
  apply degenerate_constant in Hdeg as (Hne & x0 & Hx).
  rewrite getis_ord_unfold.
  destruct (window_count w GC) as [|cnt] eqn:Ecnt; [lia|].
  cbn [seq map for_each].
  rewrite (window_in_range w GC 0) by (unfold window_count in Ecnt; lia).
  rewrite bind_Ok_l, (score_window_degenerate _ _ _ _ x0); [done..|].
  intros gc1 H1. by apply weights_available_window.
Qed.

Lemma degenerate_window_raises_witness :
  ∃ distances,
    _calculate_distance haversine 1 [[gc_A]] = Ok distances
    ∧ window 1 [[gc_A]] (Z.of_nat 0) = Ok (window_slice 1 [[gc_A]] 0)
    ∧ (∀ st', ∃ e, score_window distances 0.05 (window_slice 1 [[gc_A]] 0) st'
                   = Raise e)
    ∧ (∃ e, _calculate_getis_ord haversine 1 [[gc_A]] 0.05 [fresh] = Raise e)
    ∧ (length (window_slice 1 [[gc_A]] 0) = 1%nat →
       (∀ st', score_window distances 0.05 (window_slice 1 [[gc_A]] 0) st'
               = Raise ZeroDivisionError)
       ∧ (0%nat = 0%nat →
          _calculate_getis_ord haversine 1 [[gc_A]] 0.05 [fresh]
          = Raise ZeroDivisionError)).
Proof.
  apply (degenerate_window_raises haversine 1 [[gc_A]] 0.05 [fresh] 0).
  - unfold distinct_ids. simpl. apply (bool_decide_unpack _). reflexivity.
  - unfold window_count, len. simpl. lia.
  - left. reflexivity.
Defined.

(** C3 as stated fails: a pass over one window that holds a single
    cluster, and a pass over one window that holds two clusters of one
    member point each, both raise [ZeroDivisionError]. *)
Lemma degenerate_window_counterexample :
  _calculate_getis_ord haversine 1 [[gc_A]] 0.05 [fresh]
  = Raise ZeroDivisionError
  ∧ map gc_x [gc_A; gc_A'] = [1; 1]
  ∧ _calculate_getis_ord haversine 1 [[gc_A; gc_A']] 0.05 [fresh; fresh]
    = Raise ZeroDivisionError.
Proof.
  split; [|split; [reflexivity|]].
  - apply first_window_degenerate.
    + unfold distinct_ids. simpl. apply (bool_decide_unpack _). reflexivity.
    + unfold window_count, len. simpl. lia.
    + left. reflexivity.
  - apply first_window_degenerate.
    + unfold distinct_ids. simpl. apply (bool_decide_unpack _). reflexivity.
    + unfold window_count, len. simpl. lia.
    + right. split; [done|]. exists 1. by repeat constructor.
Qed.

(** ** The significance level *)

Lemma critical_value_spec (a : R) :
  (a = 0.10%R → critical_value a = Ok 1.65%R)
  ∧ (a = 0.05%R → critical_value a = Ok 1.96%R)
  ∧ (a = 0.01%R → critical_value a = Ok 2.58%R)
  ∧ (a ≠ 0.10%R → a ≠ 0.05%R → a ≠ 0.01%R →
     critical_value a = Raise ValueError).
Proof.
  unfold critical_value. repeat split.
  - intros ->. destruct (Req_dec_T 0.10 0.10); [done|lra].
  - intros ->. destruct (Req_dec_T 0.05 0.10); [lra|].
    destruct (Req_dec_T 0.05 0.05); [done|lra].
  - intros ->. destruct (Req_dec_T 0.01 0.10); [lra|].
    destruct (Req_dec_T 0.01 0.05); [lra|].
    destruct (Req_dec_T 0.01 0.01); [done|lra].
  - intros H1 H2 H3.
    destruct (Req_dec_T a 0.10); [done|].
    destruct (Req_dec_T a 0.05); [done|].
    destruct (Req_dec_T a 0.01); done.
Qed.

Lemma critical_value_Ok (a c : R) :
  critical_value a = Ok c →
  (a = 0.10 ∧ c = 1.65 ∨ a = 0.05 ∧ c = 1.96 ∨ a = 0.01 ∧ c = 2.58)%R.
Proof.
  unfold critical_value. intros H.
  destruct (Req_dec_T a 0.10); [injection H as <-; by left|].
  destruct (Req_dec_T a 0.05); [injection H as <-; right; by left|].
  destruct (Req_dec_T a 0.01); [injection H as <-; right; by right|done].
Qed.

Lemma classify_spec (c g : R) (s : GetisState) :
  (0 < c)%R →
  gi (classify c g s) = gi s
  ∧ ((g <= - c)%R →
     significant (classify c g s) = true ∧ spot (classify c g s) = Some Cold)
  ∧ ((g >= c)%R →
     significant (classify c g s) = true ∧ spot (classify c g s) = Some Hot)
  ∧ ((- c < g < c)%R → classify c g s = s).
Proof.
  intros Hc. unfold classify.
  destruct (Rle_dec g (- c)) as [Hle|Hle]; [|destruct (Rge_dec g c) as [Hge|Hge]];
    simpl; repeat split; intros; try done; lra.
Qed.

(** A mark, once set, is not taken back by a later scoring of the same
    object. *)
Lemma classify_keeps_mark (c g : R) (s : GetisState) :
  significant s = true → significant (classify c g s) = true.
Proof.
  intros Hs. unfold classify.
  destruct (Rle_dec g (- c)); [done|]. by destruct (Rge_dec g c).
Qed.

Lemma score_cluster_Ok distances a Vj n x_bar S st gc1 st' :
  score_cluster distances a Vj n x_bar S st gc1 = Ok st' →
  ∃ c g, critical_value a = Ok c
         ∧ st' = alter (classify c g) (gc_ref gc1)
                       (alter (set_gi g) (gc_ref gc1) st).
Proof.
  unfold score_cluster. intros H.
  apply bind_Ok in H as ([[swx sw] sw2] & _ & H).
  apply bind_Ok in H as (g & _ & H).
  apply bind_Ok in H as (c & Hc & [= <-]). by exists c, g.
Qed.

Lemma score_cluster_invalid distances a Vj n x_bar S st gc1 :
  critical_value a = Raise ValueError →
  (∃ e, score_cluster distances a Vj n x_bar S st gc1 = Raise e)
  ∧ (∀ swx sw sw2 g,
       weighted_sums distances Vj gc1 = Ok (swx, sw, sw2) →
       gi_star n x_bar S swx sw sw2 = Ok g →
       score_cluster distances a Vj n x_bar S st gc1 = Raise ValueError).
Proof.
  intros Ha. unfold score_cluster. split.
  - destruct (weighted_sums distances Vj gc1) as [[[swx sw] sw2]|e];
      [|by exists e].
    rewrite bind_Ok_l. destruct (gi_star _ _ _ _ _ _) as [g|e]; [|by exists e].
    rewrite bind_Ok_l, Ha. by exists ValueError.
  - intros swx sw sw2 g -> . rewrite bind_Ok_l. intros ->.
    by rewrite bind_Ok_l, Ha.
Qed.

(** Either the first computation of a sequence raises, or the proof goes
    on with its value. *)
Ltac raise_or_continue :=
  match goal with
  | |- ∃ e, (?r ≫= _) = Raise e =>
      let e := fresh "e" in
      destruct r as [?|e]; [rewrite bind_Ok_l | by exists e]
  end.

Lemma score_window_invalid distances a Vj st :
  critical_value a = Raise ValueError → Vj ≠ [] →
  ∃ e, score_window distances a Vj st = Raise e.
Proof.
  intros Ha Hne. unfold score_window.
  destruct Vj as [|gc1 Vj']; [done|].
  destruct (len (gc1 :: Vj') =? 0) eqn:E; [unfold len in E; simpl in E; lia|].
  do 3 raise_or_continue.
  apply (for_each_raise_at _ _ _ gc1); [left|].
  intros st'. by apply score_cluster_invalid.
Qed.

Lemma score_window_empty distances a st : score_window distances a [] st = Ok st.
Proof. reflexivity. Qed.

Lemma getis_ord_all_empty hav w GC a st :
  (∀ i : nat, (i < window_count w GC)%nat → window_slice w GC i = []) →
  _calculate_getis_ord hav w GC a st
  = Ok (replicate (window_count w GC) [], st).
Proof.
  intros Hempty. rewrite getis_ord_unfold.
  assert (Hcnt : ∀ cnt, (cnt ≤ window_count w GC)%nat →
    for_each
      (λ '(V, st) i,
         Vj ← window w GC i;
         st' ← score_window (distance_table hav w GC) a Vj st;
         Ok (V ++ [Vj], st'))
      (map Z.of_nat (seq 0 cnt)) ([], st)
    = Ok (replicate cnt [], st)).
  { induction cnt as [|cnt IH]; intros Hle; [done|].
    rewrite seq_S, map_app, for_each_app, IH by lia.
    rewrite bind_Ok_l. simpl map. rewrite for_each_singleton.
    rewrite window_in_range by (unfold window_count in Hle; lia).
    rewrite Hempty by lia.
    rewrite bind_Ok_l, score_window_empty, bind_Ok_l.
    by rewrite replicate_S_end. }
  by apply Hcnt.
Qed.

Lemma getis_ord_invalid_nonempty hav w GC a st (i : nat) :
  critical_value a = Raise ValueError →
  (i < window_count w GC)%nat → window_slice w GC i ≠ [] →
  ∃ e, _calculate_getis_ord hav w GC a st = Raise e.
Proof.
  intros Ha Hi Hne. rewrite getis_ord_unfold.
  apply (for_each_raise_at _ _ _ (Z.of_nat i)).
  - apply list_elem_of_fmap. exists i. split; [done|]. apply elem_of_seq. lia.
  - intros [V st'].
    rewrite window_in_range by (unfold window_count in Hi; lia).
    rewrite bind_Ok_l.
    destruct (score_window_invalid (distance_table hav w GC) a
                (window_slice w GC i) st' Ha Hne) as [e ->].
    by exists e.
Qed.

(** C4, as amended. The significance level is looked at only when a
    cluster is scored. With [a] equal to 0.10, 0.05 or 0.01 the critical
    value [c] is 1.65, 1.96 or 2.58, and scoring a cluster stores its Gi*
    and marks it significant and Cold when Gi* <= -c, significant and Hot
    when Gi* >= c, and otherwise leaves its [significant] and [spot] as
    they were; no other object is touched. With any other [a], scoring a
    cluster never succeeds (it raises [ValueError] once the Gi* of the
    cluster has been computed), so a pass with a non-empty window raises,
    while a pass whose windows are all empty returns without any error. *)
Theorem significance_classification (a : R) :
  ((a = 0.10%R → critical_value a = Ok 1.65%R)
   ∧ (a = 0.05%R → critical_value a = Ok 1.96%R)
   ∧ (a = 0.01%R → critical_value a = Ok 2.58%R)
   ∧ (a ≠ 0.10%R → a ≠ 0.05%R → a ≠ 0.01%R →
      critical_value a = Raise ValueError))
  ∧ (∀ distances Vj n x_bar S st gc1 st' s,
       score_cluster distances a Vj n x_bar S st gc1 = Ok st' →
       st !! gc_ref gc1 = Some s →
       ∃ c g s',
         critical_value a = Ok c
         ∧ st' !! gc_ref gc1 = Some s'
         ∧ gi s' = Some g
         ∧ ((g <= - c)%R → significant s' = true ∧ spot s' = Some Cold)
         ∧ ((g >= c)%R → significant s' = true ∧ spot s' = Some Hot)
         ∧ ((- c < g < c)%R →
            significant s' = significant s ∧ spot s' = spot s)
         ∧ (∀ r, r ≠ gc_ref gc1 → st' !! r = st !! r))
  ∧ (a ≠ 0.10%R → a ≠ 0.05%R → a ≠ 0.01%R →
     (∀ distances Vj n x_bar S st gc1,
        (∃ e, score_cluster distances a Vj n x_bar S st gc1 = Raise e)
        ∧ (∀ swx sw sw2 g,
             weighted_sums distances Vj gc1 = Ok (swx, sw, sw2) →
             gi_star n x_bar S swx sw sw2 = Ok g →
             score_cluster distances a Vj n x_bar S st gc1 = Raise ValueError))
     ∧ (∀ hav w GC st (i : nat),
          (i < window_count w GC)%nat → window_slice w GC i ≠ [] →
          ∃ e, _calculate_getis_ord hav w GC a st = Raise e)
     ∧ (∀ hav w GC st,
          (∀ i : nat, (i < window_count w GC)%nat → window_slice w GC i = []) →
          _calculate_getis_ord hav w GC a st
          = Ok (replicate (window_count w GC) [], st))).
Proof.
  split; [apply critical_value_spec|]. split.
  - intros distances Vj n x_bar S st gc1 st' s Hscore Hs.
    apply score_cluster_Ok in Hscore as (c & g & Hc & ->).
    assert (0 < c)%R as Hpos
      by (apply critical_value_Ok in Hc as [[_ ->]|[[_ ->]|[_ ->]]]; lra).
    exists c, g, (classify c g (set_gi g s)).
    destruct (classify_spec c g (set_gi g s) Hpos) as (Hgi & Hcold & Hhot & Hmid).
    split; [done|]. split.
    { rewrite !list_lookup_alter_eq, Hs. done. }
    split; [by rewrite Hgi|]. split; [done|]. split; [done|]. split.
    + intros Hg. by rewrite (Hmid Hg).
    + intros r Hr. by rewrite !list_lookup_alter_ne.
  - intros H1 H2 H3.
    assert (critical_value a = Raise ValueError) as Ha
      by (by apply critical_value_spec).
    split; [|split].
    + intros. by apply score_cluster_invalid.
    + intros hav w GC st i. by apply getis_ord_invalid_nonempty.
    + intros hav w GC st. apply getis_ord_all_empty.
Qed.

(** C4 as stated fails: 0.5 is none of the three levels, and the pass
    over two partitions without clusters returns two empty windows
    without raising. *)
Lemma significance_level_counterexample :
  (0.5 ≠ 0.10 ∧ 0.5 ≠ 0.05 ∧ 0.5 ≠ 0.01)%R
  ∧ critical_value 0.5 = Raise ValueError
  ∧ _calculate_getis_ord haversine 1 [[]; []] 0.5 [] = Ok ([[]; []], []).
Proof.
  split; [repeat split; lra|]. split.
  - apply critical_value_spec; lra.
  - rewrite getis_ord_all_empty; [reflexivity|].
    intros i Hi. unfold window_count, len in Hi. simpl in Hi.
    destruct i as [|[|i]]; [reflexivity..|lia].
Qed.

(** ** The windows the Gi* pass returns *)

(** The lists [V[i]] are the windows of [GC] themselves: the very
    objects of [GC], not copies. *)
Lemma getis_ord_windows hav w GC a st V st' :
  _calculate_getis_ord hav w GC a st = Ok (V, st') →
  V = map (window_slice w GC) (seq 0 (window_count w GC)).
Proof.
  rewrite getis_ord_unfold. intros Hrun.
  apply (for_each_inv
           (λ seen (s : list (list GetisCluster) * store),
              s.1 = map (λ j, window_slice w GC (Z.to_nat j)) seen))
    in Hrun.
  - simpl in Hrun. rewrite Hrun, map_map. apply map_ext.
    intros i. by rewrite Nat2Z.id.
  - done.
  - intros seen j [V0 st0] [V1 st1] HV Hj Hbody. simpl in *.
    apply list_elem_of_fmap in Hj as (i & -> & Hi). apply elem_of_seq in Hi.
    rewrite window_in_range in Hbody by (unfold window_count in Hi; lia).
    rewrite bind_Ok_l in Hbody.
    apply bind_Ok in Hbody as (st2 & _ & [= <- <-]).
    rewrite map_app, HV. simpl. by rewrite Nat2Z.id.
Qed.

(** ** A window of two clusters *)

Lemma gi_star_pair (x_bar S swx sw sw2 X1 X2 wa wb : R) :
  (X1 < X2)%R → (wa ≠ wb)%R →
  x_bar = ((X1 + X2) / 2)%R → S = ((X2 - X1) / 2)%R →
  swx = (wa * X1 + wb * X2)%R → sw = (wa + wb)%R → sw2 = (wa ^ 2 + wb ^ 2)%R →
  gi_star 2 x_bar S swx sw sw2
  = Ok (if Rlt_dec wb wa then -1 else 1)%R.
Proof.
  intros HX Hw -> -> -> -> ->. unfold gi_star.
  change (IZR (2 - 1)) with 1%R.
  rewrite true_div_nonzero, bind_Ok_l by lra.
  replace ((2 * (wa ^ 2 + wb ^ 2) - (wa + wb) ^ 2) / 1)%R
    with (Rabs (wa - wb) * Rabs (wa - wb))%R.
  2:{ unfold Rabs. destruct (Rcase_abs (wa - wb)); field. }
  rewrite math_sqrt_nonneg, bind_Ok_l
    by (apply Rmult_le_pos; apply Rabs_pos).
  rewrite sqrt_square by apply Rabs_pos.
  assert (0 < Rabs (wa - wb))%R as Habs by (apply Rabs_pos_lt; lra).
  rewrite true_div_nonzero by nra. f_equal.
  unfold Rabs in *. destruct (Rcase_abs (wa - wb)); destruct (Rlt_dec wb wa);
    try lra; field; lra.
Qed.

Lemma classify_inside (c g : R) (s : GetisState) :
  (- c < g < c)%R → classify c g s = s.
Proof.
  intros Hg. unfold classify.
  destruct (Rle_dec g (- c)); [lra|]. destruct (Rge_dec g c); [lra|done].
Qed.

Lemma weighted_sums_pair distances gc1 g1 g2 wa wb :
  weight distances (Z.abs (gc_t gc1 - gc_t g1)) gc1 g1 = Ok wa →
  weight distances (Z.abs (gc_t gc1 - gc_t g2)) gc1 g2 = Ok wb →
  weighted_sums distances [g1; g2] gc1
  = Ok (wa * IZR (gc_x g1) + wb * IZR (gc_x g2), wa + wb, wa ^ 2 + wb ^ 2)%R.
Proof.
  intros Ha Hb. unfold weighted_sums. cbn [for_each].
  rewrite Ha. simpl. rewrite Hb. simpl. do 2 f_equal; [f_equal|]; ring.
Qed.

Lemma score_cluster_intro distances a Vj n x_bar S st gc1 swx sw sw2 g c :
  weighted_sums distances Vj gc1 = Ok (swx, sw, sw2) →
  gi_star n x_bar S swx sw sw2 = Ok g →
  critical_value a = Ok c →
  score_cluster distances a Vj n x_bar S st gc1
  = Ok (alter (classify c g) (gc_ref gc1) (alter (set_gi g) (gc_ref gc1) st)).
Proof.
  intros Hs Hg Hc. unfold score_cluster.
  by rewrite Hs, bind_Ok_l, Hg, bind_Ok_l, Hc, bind_Ok_l.
Qed.

(** The pass over a window of two clusters, the second with the larger
    feature value, each closer (in weight) to itself than to the other:
    the first gets Gi* = -1 and the second Gi* = 1, and with a critical
    value above 1 neither is marked. *)
Lemma score_window_pair distances a c g1 g2 (st : store) w11 w12 w21 w22 :
  critical_value a = Ok c → (1 < c)%R →
  gc_x g1 < gc_x g2 →
  weight distances (Z.abs (gc_t g1 - gc_t g1)) g1 g1 = Ok w11 →
  weight distances (Z.abs (gc_t g1 - gc_t g2)) g1 g2 = Ok w12 →
  weight distances (Z.abs (gc_t g2 - gc_t g1)) g2 g1 = Ok w21 →
  weight distances (Z.abs (gc_t g2 - gc_t g2)) g2 g2 = Ok w22 →
  (w12 < w11)%R → (w21 < w22)%R →
  score_window distances a [g1; g2] st
  = Ok (alter (set_gi 1) (gc_ref g2) (alter (set_gi (-1)) (gc_ref g1) st)).
Proof.
  intros Hc Hc1 Hx H11 H12 H21 H22 Hw1 Hw2. unfold score_window.
  change (len [g1; g2]) with 2. cbn [Z.eqb].
  change (IZR 2) with 2%R.
  rewrite !true_div_nonzero, !bind_Ok_l by lra.
  unfold sum_Z. cbn [map fold_left].
  rewrite !Z.pow_2_r, !plus_IZR, !mult_IZR.
  set (X1 := IZR (gc_x g1)). set (X2 := IZR (gc_x g2)).
  assert (X1 < X2)%R as HX by (by apply IZR_lt).
  replace ((0 + X1 * X1 + X2 * X2) / 2 - ((0 + X1 + X2) / 2) ^ 2)%R
    with (((X2 - X1) / 2) * ((X2 - X1) / 2))%R by field.
  rewrite math_sqrt_nonneg, bind_Ok_l by nra.
  rewrite sqrt_square by lra.
  cbn [for_each].
  rewrite (score_cluster_intro _ _ _ _ _ _ _ _ _ _ _ (-1) c
             (weighted_sums_pair _ _ _ _ _ _ H11 H12)); [|..|done].
  2:{ rewrite (gi_star_pair _ _ _ _ _ X1 X2 w11 w12); [|done|lra|lra|done..].
      by destruct (Rlt_dec w12 w11); [|lra]. }
  rewrite bind_Ok_l.
  rewrite (score_cluster_intro _ _ _ _ _ _ _ _ _ _ _ 1 c
             (weighted_sums_pair _ _ _ _ _ _ H21 H22)); [|..|done].
  2:{ rewrite (gi_star_pair _ _ _ _ _ X1 X2 w21 w22); [|done|lra|lra|done..].
      by destruct (Rlt_dec w22 w21); [lra|]. }
  rewrite bind_Ok_l. f_equal.
  rewrite !(list_alter_id (classify c _)); [done|..];
    intros s; apply classify_inside; lra.
Qed.

(** ** The great-circle distance on the equator *)

Lemma haversine_self (p : R * R) : haversine p p = 0%R.
Proof.
  unfold haversine.
  replace ((p.1 - p.1) / 2)%R with 0%R by lra.
  replace ((p.2 - p.2) / 2)%R with 0%R by lra.
  rewrite sin_0.
  replace (0 ^ 2 + cos p.1 * cos p.1 * 0 ^ 2)%R with 0%R by ring.
  rewrite sqrt_0, asin_0. ring.
Qed.

Lemma haversine_equator (l1 l2 : R) :
  (Rabs (l2 - l1) <= PI)%R →
  haversine (0%R, l1) (0%R, l2) = Rabs (l2 - l1).
Proof.
  intros Hl. unfold haversine. cbn [fst snd].
  replace ((0 - 0) / 2)%R with 0%R by lra. rewrite sin_0, cos_0.
  assert (sin ((l1 - l2) / 2) ^ 2 = sin (Rabs (l2 - l1) / 2) ^ 2)%R as ->.
  { unfold Rabs. destruct (Rcase_abs (l2 - l1)).
    - f_equal. f_equal. lra.
    - replace ((l1 - l2) / 2)%R with (- ((l2 - l1) / 2))%R by lra.
      rewrite sin_neg. ring. }
  set (h := (Rabs (l2 - l1) / 2)%R).
  assert (0 <= h <= PI / 2)%R as Hh.
  { unfold h. pose proof (Rabs_pos (l2 - l1)). lra. }
  replace (0 ^ 2 + 1 * 1 * sin h ^ 2)%R with (sin h ^ 2)%R by ring.
  rewrite sqrt_pow2.
  - rewrite asin_sin by lra. unfold h. lra.
  - apply sin_ge_0; lra.
Qed.

Lemma centroid_gc_A : gc_m gc_A = mkPoint 0 0.
Proof.
  unfold gc_A, getis_of, mean_point, sum_R, len. simpl.
  cbv [Z.of_nat Pos.of_succ_nat Pos.succ]. f_equal; lra.
Qed.

Lemma centroid_gc_B : gc_m gc_B = mkPoint 90 0.
Proof.
  unfold gc_B, getis_of, mean_point, sum_R, len. simpl.
  cbv [Z.of_nat Pos.of_succ_nat Pos.succ]. f_equal; lra.
Qed.

Lemma centroid_gc_C : gc_m gc_C = mkPoint 180 0.
Proof.
  unfold gc_C, getis_of, mean_point, sum_R, len. simpl.
  cbv [Z.of_nat Pos.of_succ_nat Pos.succ]. f_equal; lra.
Qed.

Lemma centroid_distance_self (gc : GetisCluster) :
  centroid_distance haversine gc gc = 0%R.
Proof. apply haversine_self. Qed.

Lemma centroid_distance_equator (a b : GetisCluster) (la lb : R) :
  gc_m a = mkPoint la 0 → gc_m b = mkPoint lb 0 →
  (Rabs (lb - la) <= 180)%R →
  centroid_distance haversine a b = (Rabs (lb - la) * PI / 180)%R.
Proof.
  intros Ha Hb Hl. unfold centroid_distance. rewrite Ha, Hb. simpl.
  unfold radians. replace (0 * PI / 180)%R with 0%R by lra.
  pose proof PI_RGT_0 as Hpi.
  assert (Rabs (lb * PI / 180 - la * PI / 180) = Rabs (lb - la) * PI / 180)%R
    as Habs.
  { replace (lb * PI / 180 - la * PI / 180)%R
      with ((lb - la) * (PI / 180))%R by lra.
    rewrite Rabs_mult, (Rabs_right (PI / 180)) by lra. lra. }
  rewrite haversine_equator; rewrite Habs; [done|].
  pose proof (Rabs_pos (lb - la)). nra.
Qed.

Lemma weight_value hav w GC (i p q : nat) GCp GCq a b z D :
  distinct_ids GC →
  GC !! p = Some GCp → GC !! q = Some GCq → a ∈ GCp → b ∈ GCq →
  (i ≤ p)%nat → Z.of_nat p < Z.of_nat i + w →
  (i ≤ q)%nat → Z.of_nat q < Z.of_nat i + w →
  centroid_distance hav a b = D → centroid_distance hav b a = D →
  weight (distance_table hav w GC) z a b = Ok (1 * exp (- (IZR z + 1) * D))%R.
Proof.
  intros Hids HGp HGq Ha Hb Hip Hpw Hiq Hqw Hab Hba.
  destruct (weight_within_window hav w GC Hids i p q GCp GCq a b z)
    as (d & Hd & _ & [-> | ->]); try done; by rewrite Hd, ?Hab, ?Hba.
Qed.

(** ** The pass over the three example partitions *)

Lemma distance_A_B : centroid_distance haversine gc_A gc_B = (PI / 2)%R.
Proof.
  rewrite (centroid_distance_equator _ _ 0 90 centroid_gc_A centroid_gc_B);
    rewrite Rabs_right; lra.
Qed.

Lemma distance_B_A : centroid_distance haversine gc_B gc_A = (PI / 2)%R.
Proof.
  rewrite (centroid_distance_equator _ _ 90 0 centroid_gc_B centroid_gc_A);
    rewrite Rabs_left; lra.
Qed.

Lemma distance_B_C : centroid_distance haversine gc_B gc_C = (PI / 2)%R.
Proof.
  rewrite (centroid_distance_equator _ _ 90 180 centroid_gc_B centroid_gc_C);
    rewrite Rabs_right; lra.
Qed.

Lemma distance_C_B : centroid_distance haversine gc_C gc_B = (PI / 2)%R.
Proof.
  rewrite (centroid_distance_equator _ _ 180 90 centroid_gc_C centroid_gc_B);
    rewrite Rabs_left; lra.
Qed.

Lemma nearer_to_itself (z z' : Z) :
  0 ≤ z →
  (1 * exp (- (IZR z + 1) * (PI / 2)) < 1 * exp (- (IZR z' + 1) * 0))%R.
Proof.
  intros Hz. pose proof PI_RGT_0. apply IZR_le in Hz.
  apply Rmult_lt_compat_l; [lra|]. apply exp_increasing. nra.
Qed.

Lemma score_window_neighbours (i p q : nat) g1 g2 (st : store) :
  GC_ABC !! p = Some [g1] → GC_ABC !! q = Some [g2] →
  (i ≤ p)%nat → (p < i + 2)%nat → (i ≤ q)%nat → (q < i + 2)%nat →
  gc_x g1 < gc_x g2 →
  centroid_distance haversine g1 g2 = (PI / 2)%R →
  centroid_distance haversine g2 g1 = (PI / 2)%R →
  score_window (distance_table haversine 2 GC_ABC) 0.05 [g1; g2] st
  = Ok (alter (set_gi 1) (gc_ref g2) (alter (set_gi (-1)) (gc_ref g1) st)).
Proof.
  intros Hp Hq Hip Hpw Hiq Hqw Hx H12 H21.
  assert (g1 ∈ [g1]) as Hin1 by left. assert (g2 ∈ [g2]) as Hin2 by left.
  pose proof GC_ABC_distinct_ids as Hids.
  pose proof (centroid_distance_self g1) as H11.
  pose proof (centroid_distance_self g2) as H22.
  eapply (score_window_pair _ _ 1.96).
  - apply critical_value_spec. done.
  - lra.
  - done.
  - apply (weight_value _ _ _ i p p [g1] [g1] g1 g1 _ 0%R); done || lia.
  - apply (weight_value _ _ _ i p q [g1] [g2] g1 g2 _ (PI / 2)%R); done || lia.
  - apply (weight_value _ _ _ i q p [g2] [g1] g2 g1 _ (PI / 2)%R); done || lia.
  - apply (weight_value _ _ _ i q q [g2] [g2] g2 g2 _ 0%R); done || lia.
  - apply nearer_to_itself, Z.abs_nonneg.
  - apply nearer_to_itself, Z.abs_nonneg.
Qed.

Lemma score_window_A_B (st : store) :
  score_window (distance_table haversine 2 GC_ABC) 0.05 [gc_A; gc_B] st
  = Ok (alter (set_gi 1) 1%nat (alter (set_gi (-1)) 0%nat st)).
Proof.
  apply (score_window_neighbours 0 0 1); try done; try lia.
  - apply distance_A_B.
  - apply distance_B_A.
Qed.

Lemma score_window_B_C (st : store) :
  score_window (distance_table haversine 2 GC_ABC) 0.05 [gc_B; gc_C] st
  = Ok (alter (set_gi 1) 2%nat (alter (set_gi (-1)) 1%nat st)).
Proof.
  apply (score_window_neighbours 1 1 2); try done; try lia.
  - apply distance_B_C.
  - apply distance_C_B.
Qed.

Lemma getis_ord_ABC :
  _calculate_getis_ord haversine 2 GC_ABC 0.05 [fresh; fresh; fresh]
  = Ok ([[gc_A; gc_B]; [gc_B; gc_C]], [scored (-1); scored (-1); scored 1]).
Proof.
  rewrite getis_ord_unfold.
  change (window_count 2 GC_ABC) with 2%nat. cbn [seq map for_each].
  rewrite (window_in_range 2 GC_ABC 0) by (unfold len; simpl; lia).
  rewrite bind_Ok_l.
  change (window_slice 2 GC_ABC 0) with [gc_A; gc_B].
  rewrite score_window_A_B, !bind_Ok_l.
  rewrite (window_in_range 2 GC_ABC 1) by (unfold len; simpl; lia).
  rewrite bind_Ok_l.
  change (window_slice 2 GC_ABC 1) with [gc_B; gc_C].
  rewrite score_window_B_C, !bind_Ok_l. reflexivity.
Qed.

(** ** Sums of squares *)

Lemma sum_R_snoc (xs : list R) (x : R) : sum_R (xs ++ [x]) = (sum_R xs + x)%R.
Proof. unfold sum_R. by rewrite fold_left_app. Qed.

Lemma sum_R_nonneg (xs : list R) :
  Forall (λ x, 0 <= x)%R xs → (0 <= sum_R xs)%R.
Proof.
  induction xs as [|x xs IH] using rev_ind; intros Hx.
  - unfold sum_R. simpl. lra.
  - apply Forall_app in Hx as [Hxs Hx]. apply Forall_cons in Hx as [Hx _].
    rewrite sum_R_snoc. specialize (IH Hxs). lra.
Qed.

(** The sum of the squared distances of the elements to [w]. *)
Lemma sum_deviation (xs : list R) (w : R) :
  sum_R (map (λ x, (x - w) ^ 2)%R xs)
  = (sum_R (map (λ x, x ^ 2)%R xs) - 2 * w * sum_R xs
     + INR (length xs) * w ^ 2)%R.
Proof.
  induction xs as [|x xs IH] using rev_ind.
  - unfold sum_R. simpl. lra.
  - rewrite !map_app. cbn [map]. rewrite !sum_R_snoc, IH, length_app.
    cbn [length]. rewrite Nat.add_1_r, S_INR. ring.
Qed.

Lemma dispersion_snoc (xs : list R) (w : R) :
  dispersion (xs ++ [w])
  = (dispersion xs + sum_R (map (λ x, (x - w) ^ 2)%R xs))%R.
Proof.
  unfold dispersion. rewrite sum_deviation.
  rewrite !map_app. cbn [map]. rewrite !sum_R_snoc, length_app.
  cbn [length]. rewrite Nat.add_1_r, S_INR. ring.
Qed.

Lemma deviations_nonneg (xs : list R) (w : R) :
  Forall (λ x, 0 <= x)%R (map (λ x, (x - w) ^ 2)%R xs).
Proof. apply Forall_fmap, Forall_forall. intros x _. apply pow2_ge_0. Qed.

Lemma dispersion_nonneg (xs : list R) : (0 <= dispersion xs)%R.
Proof.
  induction xs as [|w xs IH] using rev_ind.
  - unfold dispersion, sum_R. simpl. lra.
  - rewrite dispersion_snoc.
    pose proof (sum_R_nonneg _ (deviations_nonneg xs w)). lra.
Qed.

(** ** The number of windows *)

Lemma sum_Z_snoc (xs : list Z) (x : Z) : sum_Z (xs ++ [x]) = sum_Z xs + x.
Proof. unfold sum_Z. by rewrite fold_left_app. Qed.

Lemma IZR_sum_Z (xs : list Z) : IZR (sum_Z xs) = sum_R (map IZR xs).
Proof.
  induction xs as [|x xs IH] using rev_ind; [done|].
  rewrite sum_Z_snoc, plus_IZR, IH, map_app. cbn [map].
  by rewrite sum_R_snoc.
Qed.

Lemma IZR_sum_Z_squares (xs : list Z) :
  IZR (sum_Z (map (λ x, x ^ 2) xs)) = sum_R (map (λ r, r ^ 2)%R (map IZR xs)).
Proof.
  rewrite IZR_sum_Z, !map_map. f_equal. apply map_ext. intros x.
  by rewrite (pow_IZR x 2).
Qed.

Lemma for_each_defined {A S} (body : S → A → result S) xs s :
  (∀ s x, x ∈ xs → ∃ s', body s x = Ok s') →
  ∃ s', for_each body xs s = Ok s'.
Proof.
  revert s. induction xs as [|x xs IH]; intros s Hbody.
  - by eexists.
  - cbn [for_each]. destruct (Hbody s x ltac:(left)) as [s1 ->].
    rewrite bind_Ok_l. apply IH. intros s2 y Hy. apply Hbody. by right.
Qed.

Lemma length_getis_partitions (ref : nat) (K : list (list Cluster)) :
  length (getis_partitions ref K) = length K.
Proof.
  revert ref. induction K as [|Kj K IH]; intros ref; simpl; [done|].
  by rewrite IH.
Qed.

Lemma window_count_zero {A} (w : Z) (K : list (list A)) :
  len K < w → window_count w K = 0%nat.
Proof. unfold window_count. lia. Qed.

(** C9, as amended. For per-partition cluster lists [K] of length [n]
    and a window size [w]: with an estimator that returns one label per
    point and clusters that have member points, the STC pass returns [R]
    and [N] of length [n - w + 1] each, none when [w > n]. The lists of
    [GetisCluster] objects built from [K] are [n] as well, and the Gi*
    pass returns [n - w + 1] windows whenever it returns, none when
    [w > n], and [n - w + 1] empty ones when every window is empty; but
    it does not always return: the ids being distinct, a window that
    holds a single cluster makes the pass raise, and then no window
    result is produced at all. *)
Theorem window_counts v hav w K :
  one_label_per_point v → members_nonempty K →
  (∃ R N,
     _v_clustering v w K = Ok (R, N)
     ∧ length R = Z.to_nat (len K - w + 1)
     ∧ length N = Z.to_nat (len K - w + 1)
     ∧ (w > len K → R = [] ∧ N = []))
  ∧ (∃ GC st, _create_getis_clusters K [] = Ok (GC, st) ∧ len GC = len K)
  ∧ (∀ GC a st V st',
       _calculate_getis_ord hav w GC a st = Ok (V, st') →
       length V = Z.to_nat (len GC - w + 1) ∧ (w > len GC → V = []))
  ∧ (∀ GC a st,
       (∀ i : nat, (i < window_count w GC)%nat → window_slice w GC i = []) →
       ∃ V, _calculate_getis_ord hav w GC a st = Ok (V, st)
            ∧ length V = Z.to_nat (len GC - w + 1))
  ∧ (∀ GC a st (i : nat),
       distinct_ids GC → (i < window_count w GC)%nat →
       length (window_slice w GC i) = 1%nat →
       ∃ e, _calculate_getis_ord hav w GC a st = Raise e).
Proof.
  intros Hv HK. split; [|split; [|split; [|split]]].
  - eexists _, _. split; [by apply v_clustering_spec|].
    rewrite !length_map, !length_seq. unfold window_count.
    split; [done|]. split; [done|]. intros Hw.
    replace (Z.to_nat (len K - w + 1)) with 0%nat by lia. done.
  - eexists _, _. split; [by apply create_getis_clusters_spec|].
    unfold len. by rewrite length_getis_partitions.
  - intros GC a st V st' Hrun. apply getis_ord_windows in Hrun as ->.
    rewrite length_map, length_seq. split; [done|]. intros Hw.
    unfold window_count. by replace (Z.to_nat (len GC - w + 1)) with 0%nat by lia.
  - intros GC a st Hempty. eexists. split; [by apply getis_ord_all_empty|].
    by rewrite length_replicate.
  - intros GC a st i Hids Hi Hone.
    by destruct (degenerate_window_pass hav w GC a st i Hids Hi (or_introl Hone))
      as (_ & _ & Hpass).
Qed.

Lemma window_counts_witness :
  (∃ R N,
     _v_clustering first_is_noise 2 K_ABC = Ok (R, N)
     ∧ length R = Z.to_nat (len K_ABC - 2 + 1)
     ∧ length N = Z.to_nat (len K_ABC - 2 + 1)
     ∧ (2 > len K_ABC → R = [] ∧ N = []))
  ∧ (∃ GC st,
       _create_getis_clusters K_ABC [] = Ok (GC, st) ∧ len GC = len K_ABC)
  ∧ (∀ GC a st V st',
       _calculate_getis_ord haversine 2 GC a st = Ok (V, st') →
       length V = Z.to_nat (len GC - 2 + 1) ∧ (2 > len GC → V = []))
  ∧ (∀ GC a st,
       (∀ i : nat, (i < window_count 2 GC)%nat → window_slice 2 GC i = []) →
       ∃ V, _calculate_getis_ord haversine 2 GC a st = Ok (V, st)
            ∧ length V = Z.to_nat (len GC - 2 + 1))
  ∧ (∀ GC a st (i : nat),
       distinct_ids GC → (i < window_count 2 GC)%nat →
       length (window_slice 2 GC i) = 1%nat →
       ∃ e, _calculate_getis_ord haversine 2 GC a st = Raise e).
Proof.
  apply (window_counts first_is_noise haversine 2 K_ABC).
  - apply first_is_noise_contract.
  - apply K_ABC_members.
Defined.

(** C9 as stated fails: the three partitions of [K_ABC] hold one cluster
    each, so with [w = 1] there are [3 - 1 + 1 = 3] windows to report;
    the first one holds a single cluster, the Gi* formula divides by
    [n - 1 = 0], and the pass raises [ZeroDivisionError] without
    producing any window result. *)
Lemma window_counts_counterexample :
  _create_getis_clusters K_ABC [] = Ok (GC_ABC, [fresh; fresh; fresh])
  ∧ Z.to_nat (len K_ABC - 1 + 1) = 3%nat
  ∧ _calculate_getis_ord haversine 1 GC_ABC 0.05 [fresh; fresh; fresh]
    = Raise ZeroDivisionError.
Proof.
  split; [|split; [reflexivity|]].
  - rewrite create_getis_clusters_spec by apply K_ABC_members. reflexivity.
  - apply first_window_degenerate.
    + apply GC_ABC_distinct_ids.
    + unfold window_count, len. simpl. lia.
    + left. reflexivity.
Qed.

(** ** [ST._g_clustering] *)

Lemma map_seq_shift (a b : nat) :
  map (λ k, Z.of_nat a + Z.of_nat k) (seq 0 b) = map Z.of_nat (seq (0 + a) b).
Proof.
  apply list_eq. intros k. rewrite !list_lookup_fmap.
  destruct (decide (k < b)%nat).
  - rewrite !lookup_seq_lt by done. simpl. f_equal. lia.
  - rewrite !lookup_seq_ge by lia. done.
Qed.

Lemma centroid_Ok (cps : list ClusterPoint) (m : Point) :
  centroid cps = Ok m → cps ≠ [].
Proof. intros H ->. by rewrite centroid_empty in H. Qed.

(** The clusters of partition [Gj] carry its start time and have member
    points, and their ids count on from the running [id]. *)
Lemma make_clusters_spec (Gj_ts : Z) clusters (id : Z) Kj id' :
  make_clusters Gj_ts clusters id = Ok (Kj, id') →
  Forall (λ cluster, cl_t cluster = Gj_ts ∧ cpoints cluster ≠ []) Kj
  ∧ map cl_id Kj = map (λ k, id + Z.of_nat k) (seq 0 (length Kj))
  ∧ id' = id + len Kj.
Proof.
  unfold make_clusters. intros Hrun.
  apply (for_each_inv
           (λ (seen : list (Z * list (R * R))) (s : list Cluster * Z),
              Forall (λ cluster, cl_t cluster = Gj_ts ∧ cpoints cluster ≠ [])
                     s.1
              ∧ map cl_id s.1 = map (λ k, id + Z.of_nat k) (seq 0 (length s.1))
              ∧ s.2 = id + len s.1)) in Hrun;
    [done|simpl; unfold len; simpl; split; [done|split; [done|lia]]|].
  clear. intros seen [k v] [Kj0 id0] [Kj1 id1] (Ht & Hid & Hnext) _ Hbody.
  cbn [fst snd] in *.
  apply bind_Ok in Hbody as (cl & Hcl & [= <- <-]).
  unfold Cluster_init in Hcl. apply bind_Ok in Hcl as (m & Hm & [= <-]).
  apply centroid_Ok in Hm.
  split; [|split].
  - apply Forall_app. split; [done|]. by repeat constructor.
  - rewrite map_app, length_app, Hid. cbn [map length].
    rewrite Nat.add_1_r, seq_S, map_app. cbn [map cl_id].
    f_equal. f_equal. unfold len in Hnext. lia.
  - unfold len in *. rewrite length_app. simpl. lia.
Qed.

(** The per-partition clustering returns one cluster list per
    partition; every cluster carries the start time of its partition and
    has member points, and the ids are 0, 1, 2, ... over the whole call. *)
Lemma g_clustering_spec g G K :
  _g_clustering g G = Ok K →
  Forall2 (λ Gj Kj,
             Forall (λ cluster, cl_t cluster = ts Gj ∧ cpoints cluster ≠ []) Kj)
          G K
  ∧ map cl_id (concat K) = map Z.of_nat (seq 0 (length (concat K))).
Proof.
  unfold _g_clustering. intros Hrun.
  apply bind_Ok in Hrun as ([K0 id0] & Hrun & [= <-]).
  apply (for_each_inv
           (λ seen (s : list (list Cluster) * Z),
              Forall2 (λ Gj Kj,
                         Forall (λ cluster,
                                   cl_t cluster = ts Gj
                                   ∧ cpoints cluster ≠ []) Kj)
                      seen s.1
              ∧ map cl_id (concat s.1)
                = map Z.of_nat (seq 0 (length (concat s.1)))
              ∧ s.2 = len (concat s.1))) in Hrun.
  - by destruct Hrun as (H1 & H2 & _).
  - by repeat split.
  - clear. intros seen Gj [K0 id0] [K1 id1] (Ht & Hid & Hnext) _ Hbody.
    cbn [fst snd] in *.
    destruct (len _ =? 0).
    + injection Hbody as <- <-. rewrite concat_app. simpl. rewrite app_nil_r.
      split; [|done]. apply Forall2_app; [done|]. by repeat constructor.
    + apply bind_Ok in Hbody as (clusters & _ & Hbody).
      apply bind_Ok in Hbody as ([Kj id'] & Hmk & [= <- <-]).
      apply make_clusters_spec in Hmk as (HKj & HidKj & ->).
      rewrite concat_app. simpl. rewrite app_nil_r. split; [|split].
      * apply Forall2_app; [done|]. by repeat constructor.
      * rewrite map_app, length_app, Hid, HidKj, Hnext, seq_app, map_app.
        f_equal. unfold len. apply map_seq_shift.
      * unfold len in *. rewrite length_app. lia.
Qed.

Lemma g_clustering_members g G K :
  _g_clustering g G = Ok K → members_nonempty K.
Proof.
  intros HK. apply g_clustering_spec in HK as [HF _].
  unfold members_nonempty. induction HF as [|Gj Kj G' K' Hj _ IH]; [done|].
  constructor; [|done]. eapply Forall_impl; [exact Hj|]. by intros c [_ Hc].
Qed.

Lemma getis_partitions_ids (ref : nat) (K : list (list Cluster)) :
  map gc_id (concat (getis_partitions ref K)) = map cl_id (concat K).
Proof.
  pose proof (getis_partitions_fields ref K) as HF.
  induction HF as [|Kj GCj K' GC' Hj _ IH]; [done|].
  simpl. rewrite !map_app, IH. f_equal.
  clear -Hj. induction Hj as [|c gc Kj GCj (Hc & _) _ IH]; [done|].
  simpl. by rewrite Hc, IH.
Qed.

(** So the ids that reach the hot-spot pass are distinct. *)
Lemma g_clustering_distinct_ids g G K (ref : nat) :
  _g_clustering g G = Ok K → distinct_ids (getis_partitions ref K).
Proof.
  intros HK. apply g_clustering_spec in HK as [_ Hid].
  unfold distinct_ids. rewrite getis_partitions_ids, Hid.
  apply NoDup_fmap; [intros x y; lia|]. apply NoDup_seq.
Qed.

(** ** The two pipelines *)

(** In [STC.fit] the window pass runs on clusters that have member
    points. *)
Lemma STC_fit_stages g v interval w trajs :
  one_label_per_point v →
  ∀ G K, _create_G interval trajs = Ok G → _g_clustering g G = Ok K →
    members_nonempty K
    ∧ STC_fit g v interval w trajs
      = Ok (map (window_relabelled not_noise v w K) (seq 0 (window_count w K)),
            map (window_relabelled is_noise v w K) (seq 0 (window_count w K))).
Proof.
  intros Hv G K HG HK. pose proof (g_clustering_members g G K HK) as Hm.
  split; [done|]. unfold STC_fit. rewrite HG, bind_Ok_l, HK, bind_Ok_l.
  by apply v_clustering_spec.
Qed.

(** In [STHS.fit] the Gi* pass runs on [GetisCluster] objects with
    distinct ids, each carrying in [t] the label of its cluster. *)
Lemma STHS_fit_stages g hav interval w trajs a :
  ∀ G K, _create_G interval trajs = Ok G → _g_clustering g G = Ok K →
    distinct_ids (getis_partitions 0 K)
    ∧ STHS_fit g hav interval w trajs a
      = _calculate_getis_ord hav w (getis_partitions 0 K) a
                             (replicate (length (concat K)) fresh).
Proof.
  intros G K HG HK. split; [by eapply g_clustering_distinct_ids|].
  unfold STHS_fit. rewrite HG, bind_Ok_l, HK, bind_Ok_l.
  rewrite create_getis_clusters_spec by (by eapply g_clustering_members).
  by rewrite bind_Ok_l.
Qed.

(** ** The example, from the trajectories on *)

Lemma make_clusters_single (Gj_ts k : Z) (v : list (R * R)) (id : Z) :
  v ≠ [] →
  make_clusters Gj_ts [(k, v)] id
  = Ok ([let cps := map (λ coords, mkClusterPoint coords.1 coords.2 Gj_ts k) v in
         mkCluster id cps (mean_point cps) Gj_ts k], id + 1).
Proof.
  intros Hv. unfold make_clusters. rewrite for_each_singleton.
  unfold Cluster_init. rewrite centroid_nonempty; [done|].
  by destruct v.
Qed.

Example create_G_ABC :
  _create_G 10 trajs_ABC = Ok (map (partition_at 10 trajs_ABC) [0; 10; 20]).
Proof. reflexivity. Qed.

(** One step of the loop of [_g_clustering], for a partition all of
    whose points the estimator puts in one cluster [k]. *)
Lemma g_clustering_step g (K : list (list Cluster)) (id k : Z) Gj G' :
  let data := map (λ m, (tp_x m, tp_y m)) (tpoints Gj) in
  data ≠ [] →
  group_by_label data (g data) = Ok [(k, data)] →
  for_each
    (λ '(K, id) Gj,
       let data := map (λ m, (tp_x m, tp_y m)) (tpoints Gj) in
       if len data =? 0 then Ok (K ++ [[]], id)
       else
         let labels := g data in
         clusters ← group_by_label data labels;
         '(Kj, id') ← make_clusters (ts Gj) clusters id;
         Ok (K ++ [Kj], id'))
    (Gj :: G') (K, id)
  = for_each
      (λ '(K, id) Gj,
         let data := map (λ m, (tp_x m, tp_y m)) (tpoints Gj) in
         if len data =? 0 then Ok (K ++ [[]], id)
         else
           let labels := g data in
           clusters ← group_by_label data labels;
           '(Kj, id') ← make_clusters (ts Gj) clusters id;
           Ok (K ++ [Kj], id'))
      G'
      (K ++ [[let cps := map (λ coords,
                                mkClusterPoint coords.1 coords.2 (ts Gj) k)
                             data in
              mkCluster id cps (mean_point cps) (ts Gj) k]],
       id + 1).
Proof.
  intros data Hne Hgroup. cbn [for_each]. fold data.
  destruct (len data =? 0) eqn:E.
  { unfold len in E. destruct data; [done|simpl in E; lia]. }
  cbv zeta. fold data. rewrite Hgroup, bind_Ok_l.
  rewrite make_clusters_single by done. by rewrite !bind_Ok_l.
Qed.

Example g_clustering_ABC :
  _g_clustering all_in_one (map (partition_at 10 trajs_ABC) [0; 10; 20])
  = Ok K_ABC.
Proof.
  unfold _g_clustering. cbn [map].
  rewrite (g_clustering_step _ _ _ 0); [|done|reflexivity].
  rewrite (g_clustering_step _ _ _ 0); [|done|reflexivity].
  rewrite (g_clustering_step _ _ _ 0); [|done|reflexivity].
  reflexivity.
Qed.

(** The whole hot-spot pipeline on the example: the second cluster is
    reported with Gi* = -1 in both windows. *)
Example STHS_fit_ABC :
  STHS_fit all_in_one haversine 10 2 trajs_ABC 0.05
  = Ok ([[gc_A; gc_B]; [gc_B; gc_C]], [scored (-1); scored (-1); scored 1]).
Proof.
  unfold STHS_fit.
  rewrite create_G_ABC, bind_Ok_l, g_clustering_ABC, bind_Ok_l.
  rewrite create_getis_clusters_spec by apply K_ABC_members.
  rewrite bind_Ok_l. apply getis_ord_ABC.
Qed.

(** C1, evaluated on the example: six trajectories, [interval = 10], and
    an estimator that puts the points of a partition in one cluster,
    labelled 0. The partitions start at times 0, 10 and 20 and so do
    their clusters, but the [GetisCluster] objects built from them carry
    the label, 0, in their field [t]; the lag [z] that the weight of the
    first two clusters uses is 0, while their partitions are 10 time
    units apart. *)
Theorem getis_cluster_t_is_label :
  let G := map (partition_at 10 trajs_ABC) [0; 10; 20] in
  _create_G 10 trajs_ABC = Ok G
  ∧ _g_clustering all_in_one G = Ok K_ABC
  ∧ _create_getis_clusters K_ABC [] = Ok (GC_ABC, [fresh; fresh; fresh])
  ∧ map ts G = [0; 10; 20]
  ∧ map (map cl_t) K_ABC = [[0]; [10]; [20]]
  ∧ map (map cl_c) K_ABC = [[0]; [0]; [0]]
  ∧ map (map gc_t) GC_ABC = [[0]; [0]; [0]]
  ∧ Z.abs (gc_t gc_A - gc_t gc_B) = 0
  ∧ Z.abs (cl_t cluster_A - cl_t cluster_B) = 10.
Proof.
  intros G.
  split; [apply create_G_ABC|]. split; [apply g_clustering_ABC|].
  split; [|repeat split; reflexivity].
  rewrite create_getis_clusters_spec by apply K_ABC_members. reflexivity.
Qed.

(** C2, evaluated on the example with [w = 2] and [a = 0.05]. The second
    cluster is in both windows. The pass over window 0 gives it
    Gi* = 1; the pass over window 1 then overwrites that with Gi* = -1 in
    the same object, which is the object both returned windows hold: the
    value reported for window 0 has changed from 1 to -1. *)
Theorem shared_cluster_overwritten :
  let st0 := [fresh; fresh; fresh] in
  let st1 := [scored (-1); scored 1; fresh] in
  let st2 := [scored (-1); scored (-1); scored 1] in
  let distances := distance_table haversine 2 GC_ABC in
  _create_getis_clusters K_ABC [] = Ok (GC_ABC, st0)
  ∧ _calculate_distance haversine 2 GC_ABC = Ok distances
  ∧ score_window distances 0.05 [gc_A; gc_B] st0 = Ok st1
  ∧ score_window distances 0.05 [gc_B; gc_C] st1 = Ok st2
  ∧ _calculate_getis_ord haversine 2 GC_ABC 0.05 st0
    = Ok ([[gc_A; gc_B]; [gc_B; gc_C]], st2)
  ∧ STHS_fit all_in_one haversine 10 2 trajs_ABC 0.05
    = Ok ([[gc_A; gc_B]; [gc_B; gc_C]], st2)
  ∧ report st1 gc_B = Some (scored 1)
  ∧ report st2 gc_B = Some (scored (-1)).
Proof.
  intros st0 st1 st2 distances.
  split; [|split; [|split; [|split; [|split; [|split; [|split]]]]]].
  - rewrite create_getis_clusters_spec by apply K_ABC_members. reflexivity.
  - apply calculate_distance_table.
  - subst distances. by rewrite score_window_A_B.
  - subst distances. by rewrite score_window_B_C.
  - apply getis_ord_ABC.
  - apply STHS_fit_ABC.
  - reflexivity.
  - reflexivity.
Qed.

(** * Further properties of the code *)

(** ** [ST._create_G]: errors and edge cases *)

Lemma create_G_defined interval trajs :
  trajs ≠ [] → interval ≠ 0 → ∃ G, _create_G interval trajs = Ok G.
Proof.
  intros Hne Hi. unfold _create_G.
  destruct (py_max_spec (map (λ tr, tp_t (tpe tr)) trajs)) as (m & -> & _).
  { by destruct trajs. }
  rewrite bind_Ok_l. unfold range3.
  destruct (interval =? 0) eqn:E; [lia|]. rewrite bind_Ok_l. by eexists.
Qed.

Lemma create_G_raises interval trajs :
  trajs = [] ∨ interval = 0 → _create_G interval trajs = Raise ValueError.
Proof.
  unfold _create_G. intros [-> | ->]; [done|].
  destruct trajs as [|tr trajs]; [done|]. simpl. reflexivity.
Qed.

(** X1. [_create_G] returns exactly when there is a trajectory and the
    interval is not zero; with no trajectory ([max] of an empty
    sequence) and with a zero interval ([range] with step 0) it raises
    [ValueError]. *)
Theorem create_G_returns interval trajs :
  (trajs ≠ [] ∧ interval ≠ 0 → ∃ G, _create_G interval trajs = Ok G)
  ∧ (trajs = [] ∨ interval = 0 → _create_G interval trajs = Raise ValueError).
Proof.
  split.
  - intros [Hne Hi]. by apply create_G_defined.
  - apply create_G_raises.
Qed.

Lemma create_G_backward interval trajs m :
  interval < 0 → 0 ≤ m →
  py_max (map (λ tr, tp_t (tpe tr)) trajs) = Ok m →
  _create_G interval trajs = Ok [].
Proof.
  intros Hi Hm Hmax. unfold _create_G. rewrite Hmax, bind_Ok_l.
  unfold range3. destruct (interval =? 0) eqn:E0; [lia|].
  destruct (0 <? interval) eqn:E1; [lia|].
  assert ((0 - m - interval - 1) / - interval ≤ 0) as Hn.
  { apply Z.lt_succ_r. apply Z.div_lt_upper_bound; lia. }
  replace (Z.to_nat ((0 - m - interval - 1) / - interval)) with 0%nat by lia.
  done.
Qed.

(** X2. When no trajectory ends after time 0, a positive interval gives
    no partition at all, so every trajectory is dropped without an
    error; a negative interval does the same as soon as a trajectory
    ends at time 0 or later. *)
Theorem create_G_no_partition interval trajs :
  trajs ≠ [] →
  (0 < interval → (∀ tr, tr ∈ trajs → tp_t (tpe tr) ≤ 0) →
   _create_G interval trajs = Ok [])
  ∧ (interval < 0 → (∃ tr, tr ∈ trajs ∧ 0 ≤ tp_t (tpe tr)) →
     _create_G interval trajs = Ok []).
Proof.
  intros Hne.
  destruct (py_max_spec (map (λ tr, tp_t (tpe tr)) trajs))
    as (m & Hmax & Hin & Hle); [by destruct trajs|].
  split.
  - intros Hi Hends.
    destruct (create_G_forward interval trajs Hne Hi) as (m' & Hmax' & ->).
    rewrite Hmax in Hmax'. injection Hmax' as <-.
    apply list_elem_of_fmap in Hin as (tr & -> & Htr).
    specialize (Hends tr Htr).
    assert ((tp_t (tpe tr) + interval - 1) / interval ≤ 0) as Hn.
    { apply Z.lt_succ_r. apply Z.div_lt_upper_bound; lia. }
    replace (Z.to_nat ((tp_t (tpe tr) + interval - 1) / interval))
      with 0%nat by lia.
    done.
  - intros Hi (tr & Htr & Hend). apply (create_G_backward _ _ m); [done| |done].
    specialize (Hle (tp_t (tpe tr))
                    (list_elem_of_fmap_2 (λ tr, tp_t (tpe tr)) _ _ Htr)).
    lia.
Qed.

Lemma create_G_no_partition_witness :
  (0 < 10 → (∀ tr, tr ∈ [trajectory_at 0 0 (-3) 0] → tp_t (tpe tr) ≤ 0) →
   _create_G 10 [trajectory_at 0 0 (-3) 0] = Ok [])
  ∧ (10 < 0 → (∃ tr, tr ∈ [trajectory_at 0 0 (-3) 0] ∧ 0 ≤ tp_t (tpe tr)) →
     _create_G 10 [trajectory_at 0 0 (-3) 0] = Ok []).
Proof. apply (create_G_no_partition 10 [trajectory_at 0 0 (-3) 0]). done. Defined.

(** X3. With a positive interval and some trajectory ending after time 0,
    no trajectory that ends at time 0 or later (and does not end before
    it starts) is lost: its midpoint is in at least one partition. *)
Theorem create_G_keeps_trajectory interval trajs G tr :
  0 < interval →
  _create_G interval trajs = Ok G →
  (∃ tr', tr' ∈ trajs ∧ 0 < tp_t (tpe tr')) →
  tr ∈ trajs → tp_t (tps tr) ≤ tp_t (tpe tr) → 0 ≤ tp_t (tpe tr) →
  ∃ p, p ∈ G ∧ midpoint_at (ts p) tr ∈ tpoints p.
Proof.
  intros Hi HG (tr' & Htr' & Hpos) Htr Hspan Hend.
  assert (trajs ≠ []) as Hne by (intros ->; by apply elem_of_nil in Htr).
  destruct (create_G_forward interval trajs Hne Hi) as (m & Hmax & HG').
  rewrite HG in HG'. injection HG' as ->.
  destruct (py_max_spec (map (λ tr, tp_t (tpe tr)) trajs))
    as (m' & Hmax' & _ & Hle); [by destruct trajs|].
  rewrite Hmax in Hmax'. injection Hmax' as <-.
  pose proof (Hle _ (list_elem_of_fmap_2 (λ tr, tp_t (tpe tr)) _ _ Htr)) as He.
  pose proof (Hle _ (list_elem_of_fmap_2 (λ tr, tp_t (tpe tr)) _ _ Htr')) as Hm.
  pose proof (next_multiple_bounds interval m Hi) as Hnm.
  unfold next_multiple in Hnm.
  set (n := (m + interval - 1) / interval) in *.
  set (e := tp_t (tpe tr)) in *.
  assert (1 ≤ n) as Hn by nia.
  set (k := Z.min (e / interval) (n - 1)).
  pose proof (Z.div_mod e interval ltac:(lia)) as Hdm.
  pose proof (Z.mod_pos_bound e interval Hi) as Hb.
  assert (0 ≤ e / interval) by (apply Z.div_pos; lia).
  assert (0 ≤ k < n) as Hk by (unfold k; lia).
  exists (partition_at interval trajs (interval * Z.of_nat (Z.to_nat k))).
  split.
  - apply list_elem_of_fmap. exists (Z.to_nat k). split; [done|].
    apply elem_of_seq. lia.
  - simpl. rewrite partition_points_spec. apply list_elem_of_fmap.
    exists tr. split; [by rewrite Z2Nat.id by lia|].
    apply list_elem_of_filter. split; [|done].
    unfold overlaps. rewrite Z2Nat.id by lia. fold e.
    destruct (Z.min_spec (e / interval) (n - 1)) as [[Hlt Hk']|[Hge Hk']];
      fold k in Hk'; rewrite Hk'; nia.
Qed.

Lemma create_G_keeps_trajectory_witness :
  ∃ p, p ∈ map (partition_at 10 [tr_5_25; tr_10_10]) [0; 10; 20]
       ∧ midpoint_at (ts p) tr_10_10 ∈ tpoints p.
Proof.
  apply (create_G_keeps_trajectory 10 [tr_5_25; tr_10_10]).
  - lia.
  - reflexivity.
  - exists tr_5_25. split; [left|]. simpl. lia.
  - right; left.
  - simpl. lia.
  - simpl. lia.
Defined.

(** ** [ST._g_clustering]: grouping and errors *)

Lemma dict_append_keys k v d :
  (dict_append k v d).*1 = if decide (k ∈ d.*1) then d.*1 else d.*1 ++ [k].
Proof.
  induction d as [|[k' vs] d IH]; cbn [dict_append].
  - rewrite fmap_nil.
    destruct (decide (k ∈ [])) as [H|_]; [by apply elem_of_nil in H|done].
  - destruct (k =? k') eqn:E.
    + apply Z.eqb_eq in E as ->. rewrite !fmap_cons. cbn [fst].
      destruct (decide (k' ∈ k' :: d.*1)) as [_|H]; [done|].
      exfalso. apply H. left.
    + apply Z.eqb_neq in E. rewrite !fmap_cons. cbn [fst]. rewrite IH.
      destruct (decide (k ∈ d.*1)) as [H|H];
        destruct (decide (k ∈ k' :: d.*1)) as [H'|H']; try done.
      * exfalso. apply H'. by right.
      * apply elem_of_cons in H' as [->|H']; done.
Qed.

Lemma elem_of_dict_append k v d k' v' :
  NoDup d.*1 → (k', v') ∈ dict_append k v d →
  (k' ≠ k ∧ (k', v') ∈ d)
  ∨ (k' = k ∧ ((∃ v0, (k, v0) ∈ d ∧ v' = v0 ++ [v]) ∨ ((k ∉ d.*1) ∧ v' = [v]))).
Proof.
  induction d as [|[k0 vs] d IH]; simpl; intros Hnd Hin.
  - apply list_elem_of_singleton in Hin as [= -> ->]. right. split; [done|].
    right. split; [apply not_elem_of_nil|done].
  - apply NoDup_cons in Hnd as [Hk0 Hnd].
    destruct (k =? k0) eqn:E.
    + apply Z.eqb_eq in E as ->.
      apply elem_of_cons in Hin as [[= -> ->]|Hin].
      * right. split; [done|]. left. exists vs. split; [left|done].
      * left. split; [|by right]. intros ->. apply Hk0.
        apply list_elem_of_fmap. by exists (k0, v').
    + apply Z.eqb_neq in E.
      apply elem_of_cons in Hin as [[= -> ->]|Hin].
      * left. split; [done|left].
      * destruct (IH Hnd Hin) as [[Hne Hd]|[-> [(v0 & Hd & ->)|[Hd ->]]]].
        -- left. split; [done|by right].
        -- right. split; [done|]. left. exists v0. split; [by right|done].
        -- right. split; [done|]. right. split; [|done].
           intros H. apply elem_of_cons in H as [H|H]; done.
Qed.

Lemma groups_snoc pairs p :
  groups (pairs ++ [p])
  = if p.2 =? -1 then groups pairs else dict_append p.2 p.1 (groups pairs).
Proof. unfold groups. by rewrite fold_left_app. Qed.

(** The dictionary holds one entry per label other than -1, with the
    points of that label in their order. *)
Lemma groups_spec pairs :
  NoDup (groups pairs).*1
  ∧ (∀ k v, (k, v) ∈ groups pairs →
       k ≠ -1 ∧ v ≠ [] ∧ v = map fst (filter (λ p, p.2 = k) pairs))
  ∧ (∀ p, p ∈ pairs → p.2 ≠ -1 → p.2 ∈ (groups pairs).*1).
Proof.
  induction pairs as [|[pt l] pairs (Hnd & Hin & Hcov)] using rev_ind.
  - split; [constructor|]. split; [intros k v H; by apply elem_of_nil in H|].
    intros p H; by apply elem_of_nil in H.
  - rewrite groups_snoc. cbn [fst snd].
    destruct (l =? -1) eqn:E.
    + apply Z.eqb_eq in E as ->. split; [done|]. split.
      * intros k v Hkv. destruct (Hin k v Hkv) as (Hk & Hv & ->).
        split; [done|]. split; [done|].
        rewrite filter_app, filter_cons, filter_nil. cbn [snd].
        destruct (decide (-1 = k)); [done|]. by rewrite app_nil_r.
      * intros p Hp Hl. apply elem_of_app in Hp as [Hp|Hp]; [by apply Hcov|].
        apply list_elem_of_singleton in Hp as ->. done.
    + apply Z.eqb_neq in E. split; [|split].
      * rewrite dict_append_keys. destruct (decide (l ∈ (groups pairs).*1)) as [|Hl];
          [done|].
        apply NoDup_app. split; [done|]. split; [|apply NoDup_singleton].
        intros x Hx Hx'. apply list_elem_of_singleton in Hx' as ->. done.
      * intros k v Hkv.
        apply elem_of_dict_append in Hkv
            as [[Hne Hd]|[-> [(v0 & Hd & ->)|[Hd ->]]]]; [| | |done].
        -- destruct (Hin k v Hd) as (Hk & Hv & ->).
           split; [done|]. split; [done|].
           rewrite filter_app, filter_cons, filter_nil. cbn [snd].
           destruct (decide (l = k)); [done|]. by rewrite app_nil_r.
        -- destruct (Hin l v0 Hd) as (Hk & Hv & ->).
           split; [done|]. split; [by destruct (map _ _)|].
           rewrite filter_app, filter_cons, filter_nil. cbn [snd].
           destruct (decide (l = l)); [|done]. by rewrite map_app.
        -- split; [done|]. split; [done|].
           rewrite filter_app, filter_cons, filter_nil. cbn [snd].
           destruct (decide (l = l)); [|done]. rewrite map_app.
           destruct (filter (λ p, p.2 = l) pairs) as [|p ps] eqn:Ef; [done|].
           exfalso. apply Hd.
           assert (p ∈ filter (λ p, p.2 = l) pairs) as Hp by (rewrite Ef; left).
           apply list_elem_of_filter in Hp as [Hpl Hp].
           rewrite <- Hpl. apply Hcov; [done|]. by rewrite Hpl.
      * intros p Hp Hl. rewrite dict_append_keys.
        apply elem_of_app in Hp as [Hp|Hp].
        -- specialize (Hcov p Hp Hl).
           destruct (decide (l ∈ (groups pairs).*1)); [done|].
           apply elem_of_app. by left.
        -- apply list_elem_of_singleton in Hp as ->. cbn [snd].
           destruct (decide (l ∈ (groups pairs).*1)); [done|].
           apply elem_of_app. right. left.
Qed.

Lemma group_by_label_prefix data labels (n : nat) :
  (n ≤ length data)%nat →
  for_each
    (λ clusters i,
       l ← getitem labels i;
       if l =? -1 then Ok clusters
       else d ← getitem data i; Ok (dict_append l d clusters))
    (range 0 (Z.of_nat n)) []
  = if decide (n ≤ length labels)%nat
    then Ok (groups (take n (zip data labels)))
    else Raise IndexError.
Proof.
  induction n as [|n IH]; intros Hn.
  - simpl. destruct (decide (0 ≤ length labels)%nat); [done|lia].
  - rewrite Nat2Z.inj_succ, <- Z.add_1_r, range_snoc by lia.
    rewrite for_each_app, IH by lia.
    destruct (decide (n ≤ length labels)%nat) as [Hle|Hgt].
    + rewrite bind_Ok_l, for_each_singleton.
      rewrite !getitem_nonneg by lia. rewrite !Nat2Z.id.
      destruct (decide (S n ≤ length labels)%nat) as [Hle'|Hgt'].
      * destruct (lookup_lt_is_Some_2 labels n) as [l Hl]; [lia|].
        destruct (lookup_lt_is_Some_2 data n) as [pt Hpt]; [lia|].
        rewrite Hl, bind_Ok_l.
        assert (zip data labels !! n = Some (pt, l)) as Hz.
        { rewrite lookup_zip_with, Hpt, Hl. done. }
        rewrite (take_S_r _ _ _ Hz), groups_snoc. cbn [fst snd].
        destruct (l =? -1); [done|]. by rewrite Hpt.
      * rewrite (lookup_ge_None_2 labels n) by lia. done.
    + destruct (decide (S n ≤ length labels)%nat); [lia|done].
Qed.

Lemma group_by_label_spec data labels :
  group_by_label data labels
  = if decide (length data ≤ length labels)%nat
    then Ok (groups (zip data labels))
    else Raise IndexError.
Proof.
  unfold group_by_label, len. rewrite group_by_label_prefix by done.
  destruct (decide _) as [Hle|]; [|done].
  rewrite take_ge; [done|]. rewrite length_zip_with. lia.
Qed.

Lemma make_clusters_groups (Gj_ts : Z) clusters (id : Z) Kj id' :
  make_clusters Gj_ts clusters id = Ok (Kj, id') →
  Forall2 (λ kv cluster,
             cl_c cluster = kv.1
             ∧ cpoints cluster
               = map (λ coords, mkClusterPoint coords.1 coords.2 Gj_ts kv.1)
                     kv.2
             ∧ cl_m cluster = mean_point (cpoints cluster))
          clusters Kj.
Proof.
  unfold make_clusters. intros Hrun.
  apply (for_each_inv
           (λ (seen : list (Z * list (R * R))) (s : list Cluster * Z),
              Forall2 (λ kv cluster,
                         cl_c cluster = kv.1
                         ∧ cpoints cluster
                           = map (λ coords,
                                    mkClusterPoint coords.1 coords.2 Gj_ts kv.1)
                                 kv.2
                         ∧ cl_m cluster = mean_point (cpoints cluster))
                      seen s.1)) in Hrun; [done|constructor|].
  clear. intros seen [k v] [Kj0 id0] [Kj1 id1] HF _ Hbody.
  cbn [fst snd] in *.
  apply bind_Ok in Hbody as (cl & Hcl & [= <- <-]).
  unfold Cluster_init in Hcl. apply bind_Ok in Hcl as (m & Hm & [= <-]).
  pose proof (centroid_Ok _ _ Hm) as Hne.
  rewrite centroid_nonempty in Hm by done. injection Hm as <-.
  apply Forall2_app; [done|]. by repeat constructor.
Qed.

Lemma make_clusters_defined (Gj_ts : Z) clusters (id : Z) :
  Forall (λ kv : Z * list (R * R), kv.2 ≠ []) clusters →
  ∃ r, make_clusters Gj_ts clusters id = Ok r.
Proof.
  intros Hne. unfold make_clusters. apply for_each_defined.
  intros [Kj0 id0] [k v] Hkv. rewrite Forall_forall in Hne.
  specialize (Hne _ Hkv). cbn [snd] in Hne.
  unfold Cluster_init. rewrite centroid_nonempty by (by destruct v).
  rewrite bind_Ok_l. by eexists.
Qed.

(** X4. What [_g_clustering] returns groups the points of every
    partition by the labels of the estimator: the clusters of a
    partition have pairwise different labels, none of them -1; the
    members of a cluster are exactly the points of the partition that
    carry its label, in their order, stamped with the start time of the
    partition and that label; the centroid is the mean of the members;
    and every point whose label is not -1 is a member of the cluster
    that carries its label. *)
Theorem g_clustering_groups g G K :
  _g_clustering g G = Ok K → Forall2 (grouped g) G K.
Proof.
  intros Hrun. pose proof (g_clustering_spec g G K Hrun) as [Hts _].
  unfold _g_clustering in Hrun.
  apply bind_Ok in Hrun as ([K0 id0] & Hrun & [= <-]).
  apply (for_each_inv
           (λ seen (s : list (list Cluster) * Z),
              Forall2 (λ Gj Kj,
                NoDup (map cl_c Kj)
                ∧ (∀ cluster, cluster ∈ Kj →
                     cl_c cluster ≠ -1
                     ∧ cpoints cluster = members_of g Gj (cl_c cluster)
                     ∧ cl_m cluster = mean_point (cpoints cluster))
                ∧ (∀ pt k, (pt, k) ∈ zip (partition_data Gj)
                                         (g (partition_data Gj)) →
                     k ≠ -1 →
                     ∃ cluster, cluster ∈ Kj ∧ cl_c cluster = k
                       ∧ mkClusterPoint pt.1 pt.2 (ts Gj) k ∈ cpoints cluster))
              seen s.1)) in Hrun.
  - cbn [fst] in Hrun. clear -Hrun Hts.
    induction Hrun as [|Gj Kj G' K' (Hnd & Hcl & Hcov) _ IH].
    + constructor.
    + apply Forall2_cons in Hts as [Hj Hts]. constructor; [|by apply IH].
      unfold grouped. split; [done|]. split; [|done]. intros cluster Hc.
      destruct (Hcl cluster Hc) as (H1 & H2 & H3).
      rewrite Forall_forall in Hj. destruct (Hj cluster Hc) as [Ht _]. done.
  - constructor.
  - clear. intros seen Gj [K0 id0] [K1 id1] HF _ Hbody. cbn [fst snd] in *.
    fold (partition_data Gj) in Hbody.
    destruct (len (partition_data Gj) =? 0) eqn:E.
    + injection Hbody as <- <-. apply Forall2_app; [done|].
      constructor; [|constructor]. split; [constructor|].
      split; [intros c Hc; by apply elem_of_nil in Hc|].
      intros pt k Hin. apply Z.eqb_eq in E. unfold len in E.
      destruct (partition_data Gj); [by apply elem_of_nil in Hin|simpl in E; lia].
    + apply bind_Ok in Hbody as (clusters & Hgr & Hbody).
      apply bind_Ok in Hbody as ([Kj id'] & Hmk & [= <- <-]).
      rewrite group_by_label_spec in Hgr.
      destruct (decide _) as [Hle|]; [|done]. injection Hgr as <-.
      apply make_clusters_groups in Hmk.
      destruct (groups_spec (zip (partition_data Gj) (g (partition_data Gj))))
        as (Hnd & Hin & Hcov).
      set (d := groups _) in *.
      assert (map cl_c Kj = d.*1) as Hkeys.
      { clear -Hmk. induction Hmk as [|kv c d Kj (Hc & _) _ IH]; [done|].
        simpl. by rewrite Hc, IH. }
      assert (∀ cluster, cluster ∈ Kj →
                ∃ kv, kv ∈ d ∧ cl_c cluster = kv.1
                  ∧ cpoints cluster
                    = map (λ coords,
                             mkClusterPoint coords.1 coords.2 (ts Gj) kv.1) kv.2
                  ∧ cl_m cluster = mean_point (cpoints cluster)) as Hback.
      { clear -Hmk. induction Hmk as [|kv c d Kj Hc _ IH].
        - intros c Hc; by apply elem_of_nil in Hc.
        - intros c' Hc'. apply elem_of_cons in Hc' as [->|Hc'].
          + exists kv. split; [left|done].
          + destruct (IH c' Hc') as (kv' & Hkv' & H). exists kv'.
            split; [by right|done]. }
      apply Forall2_app; [done|]. constructor; [|constructor].
      split; [by rewrite Hkeys|]. split.
      * intros cluster Hc.
        destruct (Hback cluster Hc) as ([k v] & Hkv & Hk & Hcp & Hm).
        cbn [fst snd] in *. destruct (Hin k v Hkv) as (Hk1 & _ & Hv).
        rewrite Hk. split; [done|]. split; [|done].
        rewrite Hcp. unfold members_of, labelled. by rewrite <- Hv.
      * intros pt k Hpk Hk.
        specialize (Hcov (pt, k) Hpk Hk). cbn [snd] in Hcov.
        rewrite <- Hkeys in Hcov. apply list_elem_of_fmap in Hcov
          as (cluster & Hck & Hc).
        exists cluster. split; [done|]. split; [done|].
        destruct (Hback cluster Hc) as ([k' v] & Hkv & Hk' & Hcp & _).
        cbn [fst snd] in *. destruct (Hin k' v Hkv) as (_ & _ & Hv).
        rewrite Hcp, <- Hk', <- Hck.
        apply list_elem_of_fmap. exists pt. split; [done|].
        rewrite Hv. apply list_elem_of_fmap. exists (pt, k). split; [done|].
        apply list_elem_of_filter. split; [|done]. cbn [snd]. congruence.
Qed.

Lemma g_clustering_groups_witness :
  Forall2 (grouped all_in_one) (map (partition_at 10 trajs_ABC) [0; 10; 20])
          K_ABC.
Proof. exact (g_clustering_groups all_in_one _ _ g_clustering_ABC). Defined.

Lemma g_clustering_run g G :
  (Forall (labels_cover g) G → ∃ K, _g_clustering g G = Ok K)
  ∧ (¬ Forall (labels_cover g) G → _g_clustering g G = Raise IndexError).
Proof.
  unfold _g_clustering.
  match goal with |- context [for_each ?b G _] => set (body := b) end.
  assert (Hok : ∀ s Gj, labels_cover g Gj → ∃ s', body s Gj = Ok s').
  { intros [K id] Gj Hc. unfold body. fold (partition_data Gj).
    destruct (len _ =? 0); [by eexists|]. cbv zeta.
    rewrite group_by_label_spec. destruct (decide _) as [_|Hn]; [|done].
    rewrite bind_Ok_l.
    destruct (make_clusters_defined (ts Gj)
                (groups (zip (partition_data Gj) (g (partition_data Gj)))) id)
      as [[Kj id'] ->].
    { apply Forall_forall. intros [k v] Hkv.
      destruct (groups_spec (zip (partition_data Gj) (g (partition_data Gj))))
        as (_ & Hin & _).
      by destruct (Hin k v Hkv) as (_ & ? & _). }
    rewrite bind_Ok_l. by eexists. }
  assert (Hbad : ∀ s Gj, ¬ labels_cover g Gj → body s Gj = Raise IndexError).
  { intros [K id] Gj Hc. unfold body. fold (partition_data Gj).
    destruct (len _ =? 0) eqn:E.
    - exfalso. apply Hc. unfold labels_cover. apply Z.eqb_eq in E.
      unfold len in E. lia.
    - cbv zeta. rewrite group_by_label_spec.
      destruct (decide _) as [Hle|_]; done. }
  assert (Hgen : ∀ s,
            (Forall (labels_cover g) G → ∃ s', for_each body G s = Ok s')
            ∧ (¬ Forall (labels_cover g) G
               → for_each body G s = Raise IndexError)).
  { clearbody body. induction G as [|Gj G IH]; intros s.
    - split; [by eexists|]. intros H; exfalso; apply H; constructor.
    - cbn [for_each]. split.
      + intros HF. apply Forall_cons in HF as [Hj HF].
        destruct (Hok s Gj Hj) as [s1 ->]. rewrite bind_Ok_l. by apply IH.
      + intros HF.
        destruct (le_dec (length (partition_data Gj))
                         (length (g (partition_data Gj)))) as [Hj|Hj].
        * destruct (Hok s Gj Hj) as [s1 ->]. rewrite bind_Ok_l. apply IH.
          intros HF'. apply HF. by constructor.
        * by rewrite Hbad. }
  split.
  - intros HF. destruct (proj1 (Hgen ([], 0)) HF) as [[K id] ->].
    by exists K.
  - intros HF. by rewrite (proj2 (Hgen ([], 0)) HF).
Qed.

Lemma one_label_covers g G : one_label_per_point g → Forall (labels_cover g) G.
Proof.
  intros Hg. apply Forall_forall. intros Gj _. unfold labels_cover.
  by rewrite Hg.
Qed.

(** X5. [_g_clustering] returns exactly when the estimator gives a
    label to every point of every partition; when it gives too few
    labels for some partition, the call raises [IndexError] (and
    nothing else can go wrong: a cluster is only built from a label
    that some point carries, so its centroid never divides by zero). *)
Theorem g_clustering_returns g G :
  (Forall (labels_cover g) G → ∃ K, _g_clustering g G = Ok K)
  ∧ (¬ Forall (labels_cover g) G → _g_clustering g G = Raise IndexError).
Proof. apply g_clustering_run. Qed.

(** X6. [_g_clustering] returns one list of clusters per partition, and
    the ids of the clusters, read partition after partition, are
    0, 1, 2, ...: they are unique over the whole call. *)
Theorem g_clustering_ids g G K :
  _g_clustering g G = Ok K →
  length K = length G
  ∧ map cl_id (concat K) = map Z.of_nat (seq 0 (length (concat K)))
  ∧ NoDup (map cl_id (concat K)).
Proof.
  intros HK. apply g_clustering_spec in HK as [HF Hid].
  split; [symmetry; by eapply Forall2_length|]. split; [done|].
  rewrite Hid. apply NoDup_fmap; [intros x y; lia|]. apply NoDup_seq.
Qed.

Lemma g_clustering_ids_witness :
  length K_ABC = length (map (partition_at 10 trajs_ABC) [0; 10; 20])
  ∧ map cl_id (concat K_ABC) = map Z.of_nat (seq 0 (length (concat K_ABC)))
  ∧ NoDup (map cl_id (concat K_ABC)).
Proof. exact (g_clustering_ids all_in_one _ _ g_clustering_ABC). Defined.

(** ** [STC._v_clustering]: when it returns and what it raises *)

Lemma for_each_Ok_all {A S} (P : A → Prop) (body : S → A → result S) xs s s' :
  (∀ s x s', x ∈ xs → body s x = Ok s' → P x) →
  for_each body xs s = Ok s' → Forall P xs.
Proof.
  revert s. induction xs as [|x xs IH]; intros s Hb Hrun; [constructor|].
  cbn [for_each] in Hrun. apply bind_Ok in Hrun as (s1 & H1 & Hrun).
  constructor; [eapply Hb; [left|done]|].
  eapply IH; [|done]. intros s2 y s3 Hy. apply Hb. by right.
Qed.

Lemma for_each_raise_kind {A S} (E : exn → Prop) (body : S → A → result S)
    xs s e :
  (∀ s x e, x ∈ xs → body s x = Raise e → E e) →
  for_each body xs s = Raise e → E e.
Proof.
  revert s. induction xs as [|x xs IH]; intros s Hb Hrun; [done|].
  cbn [for_each] in Hrun. destruct (body s x) as [s1|e1] eqn:E1.
  - rewrite bind_Ok_l in Hrun. eapply IH; [|done].
    intros s2 y e2 Hy. apply Hb. by right.
  - simpl in Hrun. injection Hrun as <-. eapply Hb; [left|done].
Qed.

Lemma getitem_raise {A} (l : list A) (j : Z) e :
  getitem l j = Raise e → e = IndexError.
Proof.
  unfold getitem. destruct (_ <? 0); [congruence|].
  destruct (l !! _); congruence.
Qed.

Lemma centroid_raise cps e : centroid cps = Raise e → e = ZeroDivisionError.
Proof.
  destruct cps as [|cp cps].
  - rewrite centroid_empty. congruence.
  - by rewrite centroid_nonempty.
Qed.

Lemma window_raise {A} w (K : list (list A)) i e :
  window w K i = Raise e → e = IndexError.
Proof.
  unfold window. intros H.
  destruct (for_each _ _ _) as [parts|e'] eqn:E; [done|].
  simpl in H. injection H as <-.
  apply (for_each_raise_kind (λ e, e = IndexError)) in E; [done|].
  intros acc j e _ Hb. destruct (getitem K j) eqn:Eg; [done|].
  simpl in Hb. injection Hb as <-. by eapply getitem_raise.
Qed.

Lemma rewrap_raise keep labels Vj e :
  rewrap keep labels Vj = Raise e → e = IndexError ∨ e = ZeroDivisionError.
Proof.
  unfold rewrap.
  apply (for_each_raise_kind (λ e, e = IndexError ∨ e = ZeroDivisionError)).
  clear. intros acc [i c] e _ Hb.
  destruct (getitem labels i) as [l|e0] eqn:El.
  - rewrite bind_Ok_l in Hb. destruct (keep l); [|done].
    rewrite bind_Ok_l in Hb. unfold Cluster_init in Hb.
    destruct (centroid (cpoints c)) eqn:Ec; [done|].
    simpl in Hb. injection Hb as <-. right. by eapply centroid_raise.
  - simpl in Hb. injection Hb as <-. left. by eapply getitem_raise.
Qed.

Lemma rewrap_Ok_positions keep labels Vj r (k : nat) c :
  rewrap keep labels Vj = Ok r → Vj !! k = Some c →
  ∃ l, labels !! k = Some l ∧ (keep l = true → cpoints c ≠ []).
Proof.
  unfold rewrap, len. rewrite range_from_zero. intros Hrun Hc.
  apply (for_each_Ok_all
           (λ ic : Z * Cluster,
              ∃ l, getitem labels ic.1 = Ok l
                   ∧ (keep l = true → cpoints ic.2 ≠ []))) in Hrun.
  - rewrite Forall_forall in Hrun.
    destruct (Hrun (Z.of_nat k, c)) as (l & Hl & Hne).
    { apply list_elem_of_lookup. exists k.
      rewrite lookup_zip_with, list_lookup_fmap, lookup_seq_lt, Hc; [done|].
      by eapply lookup_lt_Some. }
    exists l. split; [|done]. cbn [fst] in Hl.
    apply getitem_Ok in Hl; [|lia]. by rewrite Nat2Z.id in Hl.
  - clear. intros acc [i c] acc' _ Hb.
    apply bind_Ok in Hb as (l & Hl & Hb). exists l. split; [done|].
    intros Hk. rewrite Hk in Hb.
    apply bind_Ok in Hb as (l' & _ & Hb).
    apply bind_Ok in Hb as (cl & Hcl & _).
    unfold Cluster_init in Hcl. apply bind_Ok in Hcl as (m & Hm & _).
    by eapply centroid_Ok.
Qed.

(** X8. [_v_clustering] returns exactly when every window is empty or
    such that the estimator gives a label to each of its clusters and
    each of its clusters has member points; and whatever it raises is
    an [IndexError] (too few labels) or a [ZeroDivisionError] (the
    centroid of a cluster without member points). *)
Theorem v_clustering_returns v w K :
  ((∀ i : nat, (i < window_count w K)%nat →
      window_ready v (window_slice w K i))
   → ∃ R N, _v_clustering v w K = Ok (R, N))
  ∧ (∀ R N, _v_clustering v w K = Ok (R, N) →
       ∀ i : nat, (i < window_count w K)%nat →
         window_ready v (window_slice w K i))
  ∧ (∀ e, _v_clustering v w K = Raise e →
       e = IndexError ∨ e = ZeroDivisionError).
Proof.
  unfold _v_clustering.
  match goal with |- context [for_each ?b _ _] => set (body := b) end.
  assert (Hwin : ∀ i, i ∈ range 0 (len K - w + 1) →
            window w K i = Ok (window_slice w K (Z.to_nat i))).
  { intros i Hi. apply elem_of_range in Hi.
    rewrite <- (Z2Nat.id i) at 1 by lia. apply window_in_range. lia. }
  split; [|split].
  - intros Hready.
    destruct (for_each_defined body (range 0 (len K - w + 1)) ([], []))
      as [[Rs Ns] ->]; [|by eexists _, _].
    intros [Rs Ns] i Hi. unfold body. rewrite (Hwin i Hi), bind_Ok_l.
    cbv zeta. rewrite zip_centroids.
    apply elem_of_range in Hi.
    specialize (Hready (Z.to_nat i)
                  ltac:(unfold window_count; lia)).
    set (Vj := window_slice w K (Z.to_nat i)) in *.
    destruct (len (centroids Vj) =? 0); [by eexists|].
    destruct Hready as [->|[Hlen Hne]].
    + unfold rewrap. simpl. by eexists.
    + rewrite !rewrap_spec by done. rewrite !bind_Ok_l. by eexists.
  - intros Rs Ns Hrun i Hi.
    apply (for_each_Ok_all
             (λ i, window_ready v (window_slice w K (Z.to_nat i)))) in Hrun.
    + rewrite Forall_forall in Hrun.
      specialize (Hrun (Z.of_nat i)). rewrite Nat2Z.id in Hrun.
      apply Hrun. apply elem_of_range. unfold window_count in Hi. lia.
    + clear Hrun. intros [R0 N0] j [R1 N1] Hj Hb. unfold body in Hb.
      rewrite (Hwin j Hj), bind_Ok_l in Hb. cbv zeta in Hb.
      rewrite zip_centroids in Hb.
      set (Vj := window_slice w K (Z.to_nat j)) in *.
      destruct (len (centroids Vj) =? 0) eqn:E.
      * left. apply Z.eqb_eq in E. unfold len, centroids in E.
        rewrite length_map in E. destruct Vj; [done|simpl in E; lia].
      * right.
        apply bind_Ok in Hb as (Rj & HR & Hb).
        apply bind_Ok in Hb as (Nj & HN & _).
        assert (∀ (k : nat) c, Vj !! k = Some c →
                  (k < length (v (centroids Vj)))%nat ∧ cpoints c ≠ [])
          as Hpos.
        { intros k c Hc.
          destruct (rewrap_Ok_positions _ _ _ _ k c HR Hc) as (l & Hl & HlR).
          destruct (rewrap_Ok_positions _ _ _ _ k c HN Hc) as (l' & Hl' & HlN).
          rewrite Hl in Hl'. injection Hl' as <-.
          split; [by eapply lookup_lt_Some|].
          cbv beta in HlR, HlN.
          destruct (l =? -1); [by apply HlN|by apply HlR]. }
        split.
        -- destruct (length Vj) as [|n] eqn:En; [lia|].
           destruct (lookup_lt_is_Some_2 Vj n) as [c Hc]; [lia|].
           destruct (Hpos n c Hc). lia.
        -- apply Forall_forall. intros c Hc.
           apply list_elem_of_lookup in Hc as [k Hc]. by eapply Hpos.
  - intros e Hrun.
    apply (for_each_raise_kind
             (λ e, e = IndexError ∨ e = ZeroDivisionError)) in Hrun; [done|].
    clear. intros [R0 N0] i e _ Hb. unfold body in Hb.
    destruct (window w K i) as [Vj|e0] eqn:Ew.
    + rewrite bind_Ok_l in Hb. cbv zeta in Hb.
      destruct (len _ =? 0); [done|].
      destruct (rewrap (λ l, negb (l =? -1)) _ Vj) as [Rj|e1] eqn:ER.
      * rewrite bind_Ok_l in Hb.
        destruct (rewrap (λ l, l =? -1) _ Vj) as [Nj|e2] eqn:EN; [done|].
        simpl in Hb. injection Hb as <-. by eapply rewrap_raise.
      * simpl in Hb. injection Hb as <-. by eapply rewrap_raise.
    + simpl in Hb. injection Hb as <-. left. by eapply window_raise.
Qed.

(** ** [STC.fit] *)

(** X9. With estimators that return one label per point, [STC.fit]
    fails only on an empty trajectory list or a zero interval, with
    [ValueError]; otherwise it returns [R] and [N], each with one entry
    per window: [len(G) - w + 1] entries, or none when that number is
    negative. *)
Theorem STC_fit_returns g v interval w trajs :
  one_label_per_point g → one_label_per_point v →
  (trajs = [] ∨ interval = 0 → STC_fit g v interval w trajs = Raise ValueError)
  ∧ (trajs ≠ [] ∧ interval ≠ 0 →
     ∃ G R N,
       _create_G interval trajs = Ok G
       ∧ STC_fit g v interval w trajs = Ok (R, N)
       ∧ length R = Z.to_nat (len G - w + 1)
       ∧ length N = length R).
Proof.
  intros Hg Hv. split.
  - intros H. unfold STC_fit. by rewrite create_G_raises.
  - intros [Hne Hi].
    destruct (create_G_defined interval trajs Hne Hi) as [G HG].
    destruct (proj1 (g_clustering_run g G) (one_label_covers g G Hg))
      as [K HK].
    destruct (STC_fit_stages g v interval w trajs Hv G K HG HK) as [_ Hfit].
    eexists G, _, _. split; [done|]. split; [exact Hfit|].
    rewrite !length_map, !length_seq. unfold window_count.
    apply g_clustering_spec in HK as [HF _].
    apply Forall2_length in HF. unfold len. rewrite HF. done.
Qed.

Lemma STC_fit_returns_witness :
  (trajs_ABC = [] ∨ 10 = 0 →
   STC_fit all_in_one all_in_one 10 2 trajs_ABC = Raise ValueError)
  ∧ (trajs_ABC ≠ [] ∧ 10 ≠ 0 →
     ∃ G R N,
       _create_G 10 trajs_ABC = Ok G
       ∧ STC_fit all_in_one all_in_one 10 2 trajs_ABC = Ok (R, N)
       ∧ length R = Z.to_nat (len G - 2 + 1)
       ∧ length N = length R).
Proof.
  apply (STC_fit_returns all_in_one all_in_one 10 2 trajs_ABC).
  - intros data. unfold all_in_one. apply length_map.
  - intros data. unfold all_in_one. apply length_map.
Defined.

(** ** [STHS._create_getis_clusters] *)

Lemma nonempty_or_not (Kj : list Cluster) :
  Forall (λ cluster, cpoints cluster ≠ []) Kj
  ∨ ¬ Forall (λ cluster, cpoints cluster ≠ []) Kj.
Proof.
  induction Kj as [|c Kj [IH|IH]].
  - left. constructor.
  - destruct (cpoints c) as [|cp cps] eqn:E.
    + right. intros H. apply Forall_cons in H as [H _]. done.
    + left. constructor; [by rewrite E|done].
  - right. intros H. apply Forall_cons in H as [_ H]. done.
Qed.

Lemma members_nonempty_or_not (K : list (list Cluster)) :
  members_nonempty K ∨ ¬ members_nonempty K.
Proof.
  unfold members_nonempty. induction K as [|Kj K [IH|IH]].
  - left. constructor.
  - destruct (nonempty_or_not Kj) as [H|H].
    + left. by constructor.
    + right. intros H'. apply Forall_cons in H' as [H' _]. done.
  - right. intros H. apply Forall_cons in H as [_ H]. done.
Qed.

Lemma create_getis_partition_raises (Kj : list Cluster) (st : store) GCj :
  ¬ Forall (λ cluster, cpoints cluster ≠ []) Kj →
  for_each
    (λ '(GCj, st) cluster,
       '(gc, st') ← GetisCluster_init (cl_id cluster) (cpoints cluster)
                                      (cl_c cluster) st;
       Ok (GCj ++ [gc], st'))
    Kj (GCj, st)
  = Raise ZeroDivisionError.
Proof.
  revert st GCj. induction Kj as [|c Kj IH]; intros st GCj Hne.
  - exfalso. apply Hne. constructor.
  - cbn [for_each]. destruct (cpoints c) as [|cp cps] eqn:E.
    + unfold GetisCluster_init. by rewrite centroid_empty.
    + rewrite <- E. rewrite GetisCluster_init_nonempty by (by rewrite E).
      rewrite !bind_Ok_l. apply IH. intros H. apply Hne.
      constructor; [by rewrite E|done].
Qed.

Lemma create_getis_clusters_raises (K : list (list Cluster)) (st : store) :
  ¬ members_nonempty K →
  _create_getis_clusters K st = Raise ZeroDivisionError.
Proof.
  unfold _create_getis_clusters, members_nonempty.
  enough (Hgen : ∀ GC st,
    ¬ Forall (Forall (λ cluster, cpoints cluster ≠ [])) K →
    for_each
      (λ '(GC, st) Kj,
         '(GCj, st') ← for_each
           (λ '(GCj, st) cluster,
              '(gc, st') ← GetisCluster_init (cl_id cluster) (cpoints cluster)
                                             (cl_c cluster) st;
              Ok (GCj ++ [gc], st'))
           Kj ([], st);
         Ok (GC ++ [GCj], st'))
      K (GC, st)
    = Raise ZeroDivisionError)
    by apply Hgen.
  induction K as [|Kj K IH]; intros GC st' Hne.
  - exfalso. apply Hne. constructor.
  - cbn [for_each]. destruct (nonempty_or_not Kj) as [Hj|Hj].
    + rewrite create_getis_partition by done. rewrite !bind_Ok_l.
      apply IH. intros H. apply Hne. by constructor.
    + by rewrite create_getis_partition_raises.
Qed.

Lemma getis_partitions_refs (ref : nat) (K : list (list Cluster)) :
  map gc_ref (concat (getis_partitions ref K)) = seq ref (length (concat K)).
Proof.
  revert ref. induction K as [|Kj K IH]; intros ref; [done|].
  cbn [getis_partitions concat]. rewrite map_app, length_app, seq_app, IH.
  f_equal. clear. revert ref. induction Kj as [|c Kj IH]; intros ref; [done|].
  cbn [imap map length seq]. f_equal; [cbn; lia|].
  rewrite (imap_ext _ (λ k cluster, getis_of (S ref + k) cluster)).
  - apply IH.
  - intros k c' _. simpl. f_equal. lia.
Qed.

(** X10. [_create_getis_clusters] raises [ZeroDivisionError] as soon as
    some cluster has no member point. Otherwise it returns one list of
    [GetisCluster] objects per list of clusters, each object with the
    id and the members of its cluster, [x] the number of members and the
    centroid their mean; the objects are new (one object per cluster,
    all different), each starts with no Gi*, not significant and without
    a spot, and no existing object is changed. *)
Theorem create_getis_clusters_allocates (K : list (list Cluster)) (st : store) :
  (members_nonempty K →
   ∃ GC,
     _create_getis_clusters K st
     = Ok (GC, st ++ replicate (length (concat K)) fresh)
     ∧ Forall2 (Forall2 (λ cluster gc,
                           gc_id gc = cl_id cluster
                           ∧ gc_cpoints gc = cpoints cluster
                           ∧ gc_m gc = mean_point (cpoints cluster)
                           ∧ gc_x gc = len (cpoints cluster)))
               K GC
     ∧ map gc_ref (concat GC) = seq (length st) (length (concat K)))
  ∧ (¬ members_nonempty K →
     _create_getis_clusters K st = Raise ZeroDivisionError).
Proof.
  split; [|apply create_getis_clusters_raises].
  intros HK. exists (getis_partitions (length st) K).
  split; [by apply create_getis_clusters_spec|].
  split; [|apply getis_partitions_refs].
  generalize (length st). clear. intros ref. revert ref.
  induction K as [|Kj K IH]; intros ref; simpl; constructor; [|apply IH].
  generalize ref. clear. induction Kj as [|c Kj IH]; intros ref; simpl;
    constructor; [done|].
  rewrite (imap_ext _ (λ k cluster, getis_of (S ref + k) cluster)).
  - apply IH.
  - intros k c' _. simpl. f_equal. lia.
Qed.

(** ** [STHS._calculate_distance] and [weight] *)

Lemma insert_all_lookup_is_Some {V} (kvs : list (Z * V)) (m : gmap Z V) k :
  k ∈ kvs.*1 → is_Some (insert_all kvs m !! k).
Proof.
  revert m. induction kvs as [|[k' v'] kvs IH]; intros m Hk.
  - by apply elem_of_nil in Hk.
  - change (insert_all ((k', v') :: kvs) m)
      with (insert_all kvs (<[k' := v']> m)).
    destruct (decide (k ∈ kvs.*1)) as [Hin|Hout]; [by apply IH|].
    rewrite insert_all_lookup_other by done.
    rewrite fmap_cons in Hk. apply elem_of_cons in Hk as [->|Hk]; [|done].
    cbn [fst snd]. rewrite lookup_insert_eq. by eexists.
Qed.

(** X11. [_calculate_distance] never raises, whatever the lists of
    clusters and the window size: the [IndexError] of a look-up beyond
    the last partition is caught. The table it returns has a row for
    the id of every cluster and for nothing else; with a window size of
    0 or less every row is empty. *)
Theorem calculate_distance_rows hav w GC :
  ∃ distances,
    _calculate_distance hav w GC = Ok distances
    ∧ (∀ ka, is_Some (distances !! ka) ↔ ∃ a, a ∈ concat GC ∧ gc_id a = ka)
    ∧ (w ≤ 0 → ∀ ka kb, getitem2 distances ka kb = None).
Proof.
  exists (distance_table hav w GC).
  split; [apply calculate_distance_table|]. split.
  - intros ka. split.
    + intros [row Hrow]. unfold distance_table in Hrow.
      apply insert_all_lookup_Some in Hrow as [Hrow|Hrow];
        [|by rewrite lookup_empty in Hrow].
      apply list_elem_of_fmap in Hrow as ([i a] & [= -> ->] & Hia).
      apply elem_of_indexed in Hia as (GCi & HGi & Ha).
      exists a. split; [by eapply elem_of_concat_lookup|done].
    + intros (a & Ha & <-). unfold distance_table.
      apply insert_all_lookup_is_Some.
      apply elem_of_concat in Ha as (GCi & Ha & HGi).
      apply list_elem_of_lookup in HGi as [i HGi].
      apply list_elem_of_fmap. eexists (gc_id a, _). split; [done|].
      apply list_elem_of_fmap. exists (i, a). split; [done|].
      apply elem_of_indexed. by exists GCi.
  - intros Hw ka kb.
    destruct (getitem2 (distance_table hav w GC) ka kb) as [d|] eqn:E; [|done].
    apply stored_within_horizon in E
      as (i & j & _ & _ & _ & _ & _ & _ & _ & _ & _ & _ & Hij & Hjw & _).
    lia.
Qed.

Lemma partition_unique {A B} (f : A → B) (GC : list (list A))
    (p i : nat) GCp GCi a a' :
  NoDup (map f (concat GC)) →
  GC !! p = Some GCp → GC !! i = Some GCi → a ∈ GCp → a' ∈ GCi →
  f a = f a' → p = i.
Proof.
  revert p i. induction GC as [|G0 GC IH]; intros p i Hnd Hp Hi Ha Ha' Hf;
    [done|].
  cbn [concat] in Hnd. rewrite map_app in Hnd.
  apply NoDup_app in Hnd as (_ & Hdisj & Hnd).
  destruct p as [|p], i as [|i]; simpl in Hp, Hi.
  - done.
  - injection Hp as <-. exfalso.
    apply (Hdisj (f a)); [by apply list_elem_of_fmap_2|].
    rewrite Hf. apply list_elem_of_fmap_2. by eapply elem_of_concat_lookup.
  - injection Hi as <-. exfalso.
    apply (Hdisj (f a')); [by apply list_elem_of_fmap_2|].
    rewrite <- Hf. apply list_elem_of_fmap_2. by eapply elem_of_concat_lookup.
  - f_equal. by eapply IH.
Qed.

Lemma stored_exactly hav w GC (p q : nat) GCp GCq a b d :
  distinct_ids GC →
  GC !! p = Some GCp → GC !! q = Some GCq → a ∈ GCp → b ∈ GCq →
  getitem2 (distance_table hav w GC) (gc_id a) (gc_id b) = Some d →
  (p ≤ q)%nat ∧ Z.of_nat q < Z.of_nat p + w ∧ d = centroid_distance hav a b.
Proof.
  intros Hids HGp HGq Ha Hb Hd.
  apply stored_within_horizon in Hd
    as (i & j & GCi & GCj & a' & b' & HGi & HGj & Ha' & Hb'
        & Hida & Hidb & Hij & Hjw & ->).
  assert (i = p) as ->
    by exact (partition_unique gc_id GC _ _ _ _ _ _ Hids HGi HGp Ha' Ha Hida).
  assert (j = q) as ->
    by exact (partition_unique gc_id GC _ _ _ _ _ _ Hids HGj HGq Hb' Hb Hidb).
  assert (a' = a) as ->.
  { apply (NoDup_fmap_inj gc_id (concat GC)); [exact Hids|..|done].
    - exact (elem_of_concat_lookup _ _ _ _ HGi Ha').
    - exact (elem_of_concat_lookup _ _ _ _ HGp Ha). }
  assert (b' = b) as ->.
  { apply (NoDup_fmap_inj gc_id (concat GC)); [exact Hids|..|done].
    - exact (elem_of_concat_lookup _ _ _ _ HGj Hb').
    - exact (elem_of_concat_lookup _ _ _ _ HGq Hb). }
  done.
Qed.

(** X12. The ids being distinct, the table holds the distance from a
    cluster of partition [p] to a cluster of partition [q] exactly when
    [p <= q < p + w] (so for two clusters of different partitions it is
    stored under one key order only); and for two clusters whose
    partitions are [w] or more apart it is stored under neither, so
    that [weight] raises [KeyError]. *)
Theorem distance_lookup hav w GC (p q : nat) GCp GCq a b z :
  distinct_ids GC →
  GC !! p = Some GCp → GC !! q = Some GCq → a ∈ GCp → b ∈ GCq →
  ((p ≤ q)%nat ∧ Z.of_nat q < Z.of_nat p + w →
   getitem2 (distance_table hav w GC) (gc_id a) (gc_id b)
   = Some (centroid_distance hav a b))
  ∧ (¬ ((p ≤ q)%nat ∧ Z.of_nat q < Z.of_nat p + w) →
     getitem2 (distance_table hav w GC) (gc_id a) (gc_id b) = None)
  ∧ (w ≤ Z.abs (Z.of_nat p - Z.of_nat q) →
     weight (distance_table hav w GC) z a b = Raise KeyError).
Proof.
  intros Hids HGp HGq Ha Hb.
  assert (Hnone : ∀ (p q : nat) GCp GCq a b,
            GC !! p = Some GCp → GC !! q = Some GCq → a ∈ GCp → b ∈ GCq →
            ¬ ((p ≤ q)%nat ∧ Z.of_nat q < Z.of_nat p + w) →
            getitem2 (distance_table hav w GC) (gc_id a) (gc_id b) = None).
  { clear -Hids. intros p q GCp GCq a b HGp HGq Ha Hb Hout.
    destruct (getitem2 _ (gc_id a) (gc_id b)) as [d|] eqn:E; [|done].
    exfalso. apply Hout.
    destruct (stored_exactly hav w GC p q GCp GCq a b d) as (? & ? & _); done. }
  split; [|split].
  - intros [Hpq Hqw]. by apply (stored_forward hav w GC Hids p q GCp GCq).
  - by apply (Hnone p q GCp GCq).
  - intros Hfar. unfold weight.
    rewrite (Hnone p q GCp GCq a b) by (done || lia).
    rewrite (Hnone q p GCq GCp b a) by (done || lia).
    done.
Qed.

Lemma distance_lookup_witness :
  ((0 ≤ 2)%nat ∧ Z.of_nat 2 < Z.of_nat 0 + 2 →
   getitem2 (distance_table haversine 2 GC_ABC) (gc_id gc_A) (gc_id gc_C)
   = Some (centroid_distance haversine gc_A gc_C))
  ∧ (¬ ((0 ≤ 2)%nat ∧ Z.of_nat 2 < Z.of_nat 0 + 2) →
     getitem2 (distance_table haversine 2 GC_ABC) (gc_id gc_A) (gc_id gc_C)
     = None)
  ∧ (2 ≤ Z.abs (Z.of_nat 0 - Z.of_nat 2) →
     weight (distance_table haversine 2 GC_ABC) 0 gc_A gc_C = Raise KeyError).
Proof.
  apply (distance_lookup haversine 2 GC_ABC 0 2 [gc_A] [gc_C] gc_A gc_C 0).
  - apply GC_ABC_distinct_ids.
  - reflexivity.
  - reflexivity.
  - left.
  - left.
Defined.

Lemma exp_nonpos_le_1 (x : R) : (x <= 0)%R → (0 < exp x <= 1)%R.
Proof.
  intros Hx. split; [apply exp_pos|].
  destruct (Rle_lt_or_eq_dec _ _ Hx) as [Hlt| ->].
  - rewrite <- exp_0. left. by apply exp_increasing.
  - rewrite exp_0. lra.
Qed.

(** X13. The ids being distinct, [weight] does not depend on the order
    of its two clusters when the distance between their centroids does
    not (as the haversine distance does not); and when that distance
    and the lag [z] are not negative, a weight it returns lies in
    (0, 1]. *)
Theorem weight_symmetric hav w GC a b z :
  distinct_ids GC → a ∈ concat GC → b ∈ concat GC →
  centroid_distance hav a b = centroid_distance hav b a →
  (0 <= centroid_distance hav a b)%R → 0 ≤ z →
  weight (distance_table hav w GC) z a b = weight (distance_table hav w GC) z b a
  ∧ ∀ wt, weight (distance_table hav w GC) z a b = Ok wt → (0 < wt <= 1)%R.
Proof.
  intros Hids Ha Hb Hsym Hpos Hz.
  apply elem_of_concat in Ha as (GCp & Ha & HGp).
  apply list_elem_of_lookup in HGp as [p HGp].
  apply elem_of_concat in Hb as (GCq & Hb & HGq).
  apply list_elem_of_lookup in HGq as [q HGq].
  assert (Hab : ∀ d, getitem2 (distance_table hav w GC) (gc_id a) (gc_id b)
                     = Some d → d = centroid_distance hav a b).
  { intros d Hd.
    by destruct (stored_exactly hav w GC p q GCp GCq a b d) as (_ & _ & ?). }
  assert (Hba : ∀ d, getitem2 (distance_table hav w GC) (gc_id b) (gc_id a)
                     = Some d → d = centroid_distance hav a b).
  { intros d Hd. rewrite Hsym.
    by destruct (stored_exactly hav w GC q p GCq GCp b a d) as (_ & _ & ?). }
  unfold weight.
  destruct (getitem2 _ (gc_id a) (gc_id b)) as [d|];
    destruct (getitem2 _ (gc_id b) (gc_id a)) as [d'|].
  - rewrite (Hab d eq_refl), (Hba d' eq_refl). split; [done|].
    intros wt [= <-]. rewrite Rmult_1_l. apply exp_nonpos_le_1.
    apply IZR_le in Hz. nra.
  - rewrite (Hab d eq_refl). split; [done|].
    intros wt [= <-]. rewrite Rmult_1_l. apply exp_nonpos_le_1.
    apply IZR_le in Hz. nra.
  - rewrite (Hba d' eq_refl). split; [done|].
    intros wt [= <-]. rewrite Rmult_1_l. apply exp_nonpos_le_1.
    apply IZR_le in Hz. nra.
  - split; [done|]. intros wt [=].
Qed.

Lemma weight_symmetric_witness :
  weight (distance_table haversine 2 GC_ABC) 0 gc_A gc_B
  = weight (distance_table haversine 2 GC_ABC) 0 gc_B gc_A
  ∧ ∀ wt, weight (distance_table haversine 2 GC_ABC) 0 gc_A gc_B = Ok wt →
          (0 < wt <= 1)%R.
Proof.
  apply (weight_symmetric haversine 2 GC_ABC gc_A gc_B 0).
  - apply GC_ABC_distinct_ids.
  - left.
  - right; left.
  - by rewrite distance_A_B, distance_B_A.
  - rewrite distance_A_B. pose proof PI_RGT_0. lra.
  - lia.
Defined.

(** ** [STHS._calculate_getis_ord]: what the pass changes *)

Lemma for_each_rel {A S} (Rel : S → S → Prop) (body : S → A → result S)
    xs s s' :
  (∀ s, Rel s s) → (∀ s1 s2 s3, Rel s1 s2 → Rel s2 s3 → Rel s1 s3) →
  (∀ s x s', x ∈ xs → body s x = Ok s' → Rel s s') →
  for_each body xs s = Ok s' → Rel s s'.
Proof.
  intros Hrefl Htrans Hstep.
  apply (for_each_inv (λ _ s1, Rel s s1)); [apply Hrefl|].
  intros seen x s1 s2 H1 Hx Hb. eapply Htrans; [exact H1|]. by eapply Hstep.
Qed.

Lemma keeps_marks_refl s : keeps_marks s s.
Proof. by repeat split. Qed.

Lemma keeps_marks_trans s1 s2 s3 :
  keeps_marks s1 s2 → keeps_marks s2 s3 → keeps_marks s1 s3.
Proof. intros (A1 & B1 & C1) (A2 & B2 & C2). repeat split; auto. Qed.

Lemma rescored_refl refs st : rescored refs st st.
Proof.
  split; [done|]. split; [done|]. intros r s Hs. exists s.
  split; [done|apply keeps_marks_refl].
Qed.

Lemma rescored_trans refs st1 st2 st3 :
  rescored refs st1 st2 → rescored refs st2 st3 → rescored refs st1 st3.
Proof.
  intros (L1 & F1 & M1) (L2 & F2 & M2). split; [congruence|]. split.
  - intros r Hr. by rewrite F2, F1.
  - intros r s Hs. destruct (M1 r s Hs) as (s2 & Hs2 & K1).
    destruct (M2 r s2 Hs2) as (s3 & Hs3 & K2). exists s3.
    split; [done|by eapply keeps_marks_trans].
Qed.

Lemma rescored_weaken refs refs' st st' :
  (∀ r, r ∈ refs → r ∈ refs') → rescored refs st st' → rescored refs' st st'.
Proof.
  intros Hsub (L & F & M). split; [done|]. split; [|done].
  intros r Hr. apply F. intros Hin. apply Hr. by apply Hsub.
Qed.

Lemma classify_keeps_marks c g s : keeps_marks s (classify c g (set_gi g s)).
Proof.
  unfold classify, set_gi.
  destruct (Rle_dec g (- c)); [|destruct (Rge_dec g c)]; simpl;
    repeat split; intros; by eauto.
Qed.

Lemma score_cluster_rescored distances a Vj n x_bar S st gc1 st' :
  score_cluster distances a Vj n x_bar S st gc1 = Ok st' →
  rescored [gc_ref gc1] st st'.
Proof.
  intros H. apply score_cluster_Ok in H as (c & g & _ & ->).
  split; [by rewrite !length_alter|]. split.
  - intros r Hr. rewrite !list_lookup_alter_ne; [done|..];
      intros E; apply Hr; rewrite <- E; left.
  - intros r s Hs. destruct (decide (r = gc_ref gc1)) as [->|Hne].
    + exists (classify c g (set_gi g s)).
      split; [|apply classify_keeps_marks].
      by rewrite !list_lookup_alter_eq, Hs.
    + exists s. split; [|apply keeps_marks_refl].
      by rewrite !list_lookup_alter_ne.
Qed.

Lemma score_window_rescored distances a Vj st st' :
  score_window distances a Vj st = Ok st' → rescored (map gc_ref Vj) st st'.
Proof.
  unfold score_window. destruct (len Vj =? 0).
  - intros [= <-]. apply rescored_refl.
  - intros H. apply bind_Ok in H as (x_bar & _ & H).
    apply bind_Ok in H as (v & _ & H). apply bind_Ok in H as (S & _ & H).
    revert H. apply for_each_rel.
    + apply rescored_refl.
    + apply rescored_trans.
    + intros s gc1 s' Hgc Hb. apply score_cluster_rescored in Hb.
      eapply rescored_weaken; [|exact Hb].
      intros r Hr. apply list_elem_of_singleton in Hr as ->.
      by apply list_elem_of_fmap_2.
Qed.

Lemma getis_ord_rescored hav w GC a st V st' :
  _calculate_getis_ord hav w GC a st = Ok (V, st') →
  rescored (map gc_ref (concat V)) st st'.
Proof.
  intros Hrun. pose proof (getis_ord_windows _ _ _ _ _ _ _ Hrun) as HV.
  rewrite getis_ord_unfold in Hrun. revert Hrun.
  set (refs := map gc_ref (concat V)).
  apply (for_each_rel (λ s s' : list (list GetisCluster) * store,
                         rescored refs s.2 s'.2)).
  - intros s. apply rescored_refl.
  - intros s1 s2 s3. apply rescored_trans.
  - intros [V0 st0] j [V1 st1] Hj Hb. cbn [snd].
    apply list_elem_of_fmap in Hj as (i & -> & Hi). apply elem_of_seq in Hi.
    rewrite window_in_range in Hb by (unfold window_count in Hi; lia).
    rewrite bind_Ok_l in Hb. apply bind_Ok in Hb as (st2 & Hsc & [= <- <-]).
    apply score_window_rescored in Hsc.
    eapply rescored_weaken; [|exact Hsc].
    intros r Hr. apply list_elem_of_fmap in Hr as (gc & -> & Hgc).
    apply list_elem_of_fmap_2. rewrite HV. apply elem_of_concat.
    exists (window_slice w GC i). split; [done|].
    apply list_elem_of_fmap. exists i. split; [done|]. apply elem_of_seq. lia.
Qed.

(** X14. A pass of [_calculate_getis_ord] that returns has created and
    deleted no object; it has changed only objects that are in one of
    the returned windows; and on every object a mark, a Gi* and a spot
    that were set before the pass are still set after it: nothing is
    ever cleared. *)
Theorem getis_ord_frame hav w GC a st V st' :
  _calculate_getis_ord hav w GC a st = Ok (V, st') →
  length st' = length st
  ∧ (∀ r, (∀ gc, gc ∈ concat V → gc_ref gc ≠ r) → st' !! r = st !! r)
  ∧ (∀ r s, st !! r = Some s →
       ∃ s', st' !! r = Some s'
             ∧ (significant s = true → significant s' = true)
             ∧ (is_Some (gi s) → is_Some (gi s'))
             ∧ (is_Some (spot s) → is_Some (spot s'))).
Proof.
  intros Hrun. apply getis_ord_rescored in Hrun as (L & F & M).
  split; [done|]. split; [|done].
  intros r Hr. apply F. intros Hin.
  apply list_elem_of_fmap in Hin as (gc & -> & Hgc). by apply (Hr gc).
Qed.

Lemma getis_ord_frame_witness :
  length [scored (-1); scored (-1); scored 1] = length [fresh; fresh; fresh]
  ∧ (∀ r, (∀ gc, gc ∈ concat [[gc_A; gc_B]; [gc_B; gc_C]] → gc_ref gc ≠ r) →
       [scored (-1); scored (-1); scored 1] !! r = [fresh; fresh; fresh] !! r)
  ∧ (∀ r s, [fresh; fresh; fresh] !! r = Some s →
       ∃ s', [scored (-1); scored (-1); scored 1] !! r = Some s'
             ∧ (significant s = true → significant s' = true)
             ∧ (is_Some (gi s) → is_Some (gi s'))
             ∧ (is_Some (spot s) → is_Some (spot s'))).
Proof.
  exact (getis_ord_frame haversine 2 GC_ABC 0.05 _ _ _ getis_ord_ABC).
Defined.

Lemma critical_value_pos a c : critical_value a = Ok c → (1 < c)%R.
Proof.
  intros H. apply critical_value_Ok in H as [[_ ->]|[[_ ->]|[_ ->]]]; lra.
Qed.

Lemma marked_by_fresh c : marked_by c fresh.
Proof.
  split; [intros g [=]|]. simpl. split; [done|]. by intros [? [=]].
Qed.

Lemma classify_marked_by c g s :
  (0 < c)%R → marked_by c s → marked_by c (classify c g (set_gi g s)).
Proof.
  intros Hc [_ Hs]. unfold classify, set_gi.
  destruct (Rle_dec g (- c)) as [Hle|Hle];
    [|destruct (Rge_dec g c) as [Hge|Hge]]; simpl.
  - split.
    + intros g' [= <-]. split; [done|]. intros. lra.
    + split; [by eexists|done].
  - split.
    + intros g' [= <-]. split; [|done]. intros. lra.
    + split; [by eexists|done].
  - split; [|done]. intros g' [= <-]. split; intros; lra.
Qed.

Lemma score_cluster_marked distances a c Vj n x_bar S st gc1 st' :
  critical_value a = Ok c →
  score_cluster distances a Vj n x_bar S st gc1 = Ok st' →
  Forall (marked_by c) st →
  Forall (marked_by c) st'
  ∧ ((gc_ref gc1 < length st)%nat →
     ∃ s g, st' !! gc_ref gc1 = Some s ∧ gi s = Some g).
Proof.
  intros Hc H Hst. apply score_cluster_Ok in H as (c' & g & Hc' & ->).
  rewrite Hc in Hc'. injection Hc' as <-.
  pose proof (critical_value_pos a c Hc) as Hpos.
  split.
  - apply Forall_lookup. intros r s Hs.
    destruct (decide (r = gc_ref gc1)) as [->|Hne].
    + rewrite !list_lookup_alter_eq in Hs.
      destruct (st !! gc_ref gc1) as [s0|] eqn:E0; [|done].
      simpl in Hs. injection Hs as <-.
      apply classify_marked_by; [lra|].
      by eapply (proj1 (Forall_lookup _ _) Hst).
    + rewrite !list_lookup_alter_ne in Hs by done.
      by eapply (proj1 (Forall_lookup _ _) Hst).
  - intros Hr. destruct (lookup_lt_is_Some_2 st (gc_ref gc1) Hr) as [s0 E0].
    exists (classify c g (set_gi g s0)), g. split.
    + by rewrite !list_lookup_alter_eq, E0.
    + unfold classify, set_gi.
      destruct (Rle_dec g (- c)); [done|]. by destruct (Rge_dec g c).
Qed.

Lemma rescored_keeps_gi refs st st' r :
  rescored refs st st' →
  (∃ s g, st !! r = Some s ∧ gi s = Some g) →
  ∃ s g, st' !! r = Some s ∧ gi s = Some g.
Proof.
  intros (_ & _ & M) (s & g & Hs & Hg).
  destruct (M r s Hs) as (s' & Hs' & _ & Hgi & _).
  destruct Hgi as [g' Hg']; [by eexists|]. by exists s', g'.
Qed.

Lemma score_window_marked distances a c Vj st st' :
  critical_value a = Ok c →
  score_window distances a Vj st = Ok st' →
  Forall (marked_by c) st →
  Forall (marked_by c) st'
  ∧ ∀ gc, gc ∈ Vj → (gc_ref gc < length st)%nat →
      ∃ s g, st' !! gc_ref gc = Some s ∧ gi s = Some g.
Proof.
  intros Hc. unfold score_window. destruct (len Vj =? 0) eqn:E.
  - intros [= <-] Hst. split; [done|]. intros gc Hgc.
    apply Z.eqb_eq in E. unfold len in E.
    destruct Vj; [by apply elem_of_nil in Hgc|simpl in E; lia].
  - intros H Hst. apply bind_Ok in H as (x_bar & _ & H).
    apply bind_Ok in H as (v & _ & H). apply bind_Ok in H as (S & _ & H).
    apply (for_each_inv
             (λ seen st1,
                Forall (marked_by c) st1 ∧ length st1 = length st
                ∧ ∀ gc, gc ∈ seen → (gc_ref gc < length st)%nat →
                    ∃ s g, st1 !! gc_ref gc = Some s ∧ gi s = Some g)) in H.
    + by destruct H as (H1 & _ & H2).
    + split; [done|]. split; [done|].
      intros gc Hgc. by apply elem_of_nil in Hgc.
    + intros seen gc1 st1 st2 (Hm & Hl & Hgi) _ Hb.
      pose proof (score_cluster_rescored _ _ _ _ _ _ _ _ _ Hb) as Hres.
      destruct (score_cluster_marked _ _ _ _ _ _ _ _ _ _ Hc Hb Hm) as [Hm' Hnew].
      split; [done|]. split; [destruct Hres as [-> _]; done|].
      intros gc Hgc Hr. apply elem_of_app in Hgc as [Hgc|Hgc].
      * eapply rescored_keeps_gi; [exact Hres|]. by apply Hgi.
      * apply list_elem_of_singleton in Hgc as ->. apply Hnew. by rewrite Hl.
Qed.

(** X15. After a pass of [_calculate_getis_ord] that returns, started
    on objects whose marks agree with their Gi* (as those of newly
    created objects do), the marks of every object agree with its
    Gi*: with Gi* at or below minus the critical value it is a
    significant cold spot, at or above the critical value a significant
    hot spot; an object is significant exactly when it has a spot; and
    every object of a returned window has a Gi*. *)
Theorem getis_ord_marks hav w GC a c st V st' :
  critical_value a = Ok c →
  _calculate_getis_ord hav w GC a st = Ok (V, st') →
  Forall (marked_by c) st →
  Forall (marked_by c) st'
  ∧ ∀ gc, gc ∈ concat V → (gc_ref gc < length st)%nat →
      ∃ s g, st' !! gc_ref gc = Some s ∧ gi s = Some g.
Proof.
  intros Hc Hrun Hst.
  pose proof (getis_ord_windows _ _ _ _ _ _ _ Hrun) as HV.
  rewrite getis_ord_unfold in Hrun.
  apply (for_each_inv
           (λ seen (s1 : list (list GetisCluster) * store),
              Forall (marked_by c) s1.2 ∧ length s1.2 = length st
              ∧ ∀ j gc, j ∈ seen → gc ∈ window_slice w GC (Z.to_nat j) →
                  (gc_ref gc < length st)%nat →
                  ∃ s g, s1.2 !! gc_ref gc = Some s ∧ gi s = Some g))
    in Hrun.
  - cbn [snd] in Hrun. destruct Hrun as (H1 & _ & H2). split; [done|].
    intros gc Hgc Hr. rewrite HV in Hgc.
    apply elem_of_concat in Hgc as (Vj & Hgc & HVj).
    apply list_elem_of_fmap in HVj as (i & -> & Hi).
    apply (H2 (Z.of_nat i)); [|by rewrite Nat2Z.id|done].
    by apply list_elem_of_fmap_2.
  - split; [done|]. split; [done|]. intros j gc Hj. by apply elem_of_nil in Hj.
  - intros seen j [V0 st0] [V1 st1] (Hm & Hl & Hgi) Hj Hb. cbn [snd] in *.
    apply list_elem_of_fmap in Hj as (i & -> & Hi). apply elem_of_seq in Hi.
    rewrite window_in_range in Hb by (unfold window_count in Hi; lia).
    rewrite bind_Ok_l in Hb. apply bind_Ok in Hb as (st2 & Hsc & [= <- <-]).
    pose proof (score_window_rescored _ _ _ _ _ Hsc) as Hres.
    destruct (score_window_marked _ _ _ _ _ _ Hc Hsc Hm) as [Hm' Hnew].
    split; [done|]. split; [destruct Hres as [-> _]; done|].
    intros j gc Hj' Hgc Hr. apply elem_of_app in Hj' as [Hj'|Hj'].
    + eapply rescored_keeps_gi; [exact Hres|]. by eapply Hgi.
    + apply list_elem_of_singleton in Hj' as ->. rewrite Nat2Z.id in Hgc.
      apply Hnew; [done|]. by rewrite Hl.
Qed.

Lemma getis_ord_marks_witness :
  Forall (marked_by 1.96) [scored (-1); scored (-1); scored 1]
  ∧ ∀ gc, gc ∈ concat [[gc_A; gc_B]; [gc_B; gc_C]] →
      (gc_ref gc < length [fresh; fresh; fresh])%nat →
      ∃ s g, [scored (-1); scored (-1); scored 1] !! gc_ref gc = Some s
             ∧ gi s = Some g.
Proof.
  apply (getis_ord_marks haversine 2 GC_ABC 0.05 1.96 [fresh; fresh; fresh]).
  - apply critical_value_spec. reflexivity.
  - apply getis_ord_ABC.
  - repeat (apply Forall_cons_2; [apply marked_by_fresh|]). apply Forall_nil_2.
Defined.

(** ** [STHS._calculate_getis_ord]: what it never raises *)

Lemma true_div_Ok (a b x : R) : true_div a b = Ok x → b ≠ 0%R ∧ x = (a / b)%R.
Proof.
  unfold true_div. destruct (Req_dec_T b 0); [done|]. by intros [= <-].
Qed.

Lemma true_div_raise (a b : R) e : true_div a b = Raise e → e = ZeroDivisionError.
Proof. unfold true_div. destruct (Req_dec_T b 0); congruence. Qed.

Lemma critical_value_raise (a : R) e :
  critical_value a = Raise e → e = ValueError.
Proof.
  unfold critical_value.
  destruct (Req_dec_T a 0.10); [done|]. destruct (Req_dec_T a 0.05); [done|].
  destruct (Req_dec_T a 0.01); [done|]. congruence.
Qed.

Lemma variance_nonneg (xs : list Z) :
  xs ≠ [] →
  (0 <= IZR (sum_Z (map (λ x, (x ^ 2)%Z) xs)) / IZR (len xs)
        - (IZR (sum_Z xs) / IZR (len xs)) ^ 2)%R.
Proof.
  intros Hne. pose proof (dispersion_nonneg (map IZR xs)) as Hd.
  unfold dispersion in Hd. rewrite length_map, INR_IZR_INZ in Hd.
  fold (len xs) in Hd.
  rewrite IZR_sum_Z_squares, IZR_sum_Z.
  assert (0 < IZR (len xs))%R as Hn.
  { apply IZR_lt. unfold len. destruct xs; [done|simpl; lia]. }
  set (n := IZR (len xs)) in *.
  set (q := sum_R (map (λ r, (r ^ 2)%R) (map IZR xs))) in *.
  set (s := sum_R (map IZR xs)) in *.
  replace (q / n - (s / n) ^ 2)%R with ((n * q - s ^ 2) / (n * n))%R
    by (field; lra).
  apply Rmult_le_pos; [lra|]. left. apply Rinv_0_lt_compat. nra.
Qed.

Lemma gi_star_raise (n : Z) (x_bar S swx sw sw2 : R) e :
  1 ≤ n → (sw ^ 2 <= IZR n * sw2)%R →
  gi_star n x_bar S swx sw sw2 = Raise e → e = ZeroDivisionError.
Proof.
  intros Hn Hcs. unfold gi_star.
  destruct (true_div (IZR n * sw2 - sw ^ 2) (IZR (n - 1))) as [q|e0] eqn:Eq.
  - rewrite bind_Ok_l. apply true_div_Ok in Eq as [Hn1 ->].
    assert (0 < IZR (n - 1))%R as Hpos.
    { apply IZR_lt.
      assert (n - 1 ≠ 0) by (intros E; apply Hn1; by rewrite E). lia. }
    rewrite math_sqrt_nonneg.
    + rewrite bind_Ok_l. apply true_div_raise.
    + apply Rmult_le_pos; [lra|]. left. by apply Rinv_0_lt_compat.
  - simpl. intros [= <-]. by eapply true_div_raise.
Qed.

Lemma score_cluster_raise distances a Vj x_bar S st gc1 e :
  1 ≤ len Vj → weights_available distances gc1 Vj →
  score_cluster distances a Vj (len Vj) x_bar S st gc1 = Raise e →
  e = ZeroDivisionError
  ∨ (e = ValueError ∧ critical_value a = Raise ValueError).
Proof.
  intros Hn Hw. unfold score_cluster.
  destruct (weighted_sums_total distances gc1 Vj Hw) as [[[swx sw] sw2] Hs].
  rewrite Hs, bind_Ok_l.
  apply weighted_sums_cauchy in Hs as [Hcs _].
  rewrite INR_IZR_INZ in Hcs. fold (len Vj) in Hcs.
  destruct (gi_star (len Vj) x_bar S swx sw sw2) as [g|e0] eqn:Eg.
  - rewrite bind_Ok_l. cbv zeta.
    destruct (critical_value a) as [c|e1] eqn:Ec; [done|].
    simpl. intros [= <-]. right.
    pose proof (critical_value_raise a e1 Ec) as ->. done.
  - simpl. intros [= <-]. left. by eapply gi_star_raise.
Qed.

Lemma score_window_raise distances a Vj st e :
  (∀ gc1, gc1 ∈ Vj → weights_available distances gc1 Vj) →
  score_window distances a Vj st = Raise e →
  e = ZeroDivisionError
  ∨ (e = ValueError ∧ critical_value a = Raise ValueError).
Proof.
  intros Hw. unfold score_window. destruct (len Vj =? 0) eqn:E; [done|].
  apply Z.eqb_neq in E.
  assert (1 ≤ len Vj) as Hn by (unfold len in *; lia).
  assert (Vj ≠ []) as Hne by (intros ->; by apply E).
  assert (IZR (len Vj) ≠ 0%R) as Hn0 by (apply not_0_IZR; lia).
  rewrite !true_div_nonzero, !bind_Ok_l by done.
  pose proof (variance_nonneg (map gc_x Vj)) as Hvar.
  rewrite map_map, len_map in Hvar.
  rewrite math_sqrt_nonneg, bind_Ok_l
    by (apply Hvar; by destruct Vj).
  apply (for_each_raise_kind
           (λ e, e = ZeroDivisionError
                 ∨ (e = ValueError ∧ critical_value a = Raise ValueError))).
  intros st0 gc1 e0 Hgc1. apply score_cluster_raise; [done|by apply Hw].
Qed.

Lemma getis_ord_raise_kind hav w GC a st e :
  distinct_ids GC →
  _calculate_getis_ord hav w GC a st = Raise e →
  e = ZeroDivisionError
  ∨ (e = ValueError ∧ critical_value a = Raise ValueError).
Proof.
  intros Hids. rewrite getis_ord_unfold.
  apply (for_each_raise_kind
           (λ e, e = ZeroDivisionError
                 ∨ (e = ValueError ∧ critical_value a = Raise ValueError))).
  intros [V0 st0] j e0 Hj Hb.
  apply list_elem_of_fmap in Hj as (i & -> & Hi). apply elem_of_seq in Hi.
  rewrite window_in_range in Hb by (unfold window_count in Hi; lia).
  rewrite bind_Ok_l in Hb.
  destruct (score_window _ a (window_slice w GC i) st0) as [st1|e1] eqn:Es;
    [done|].
  simpl in Hb. injection Hb as <-.
  apply score_window_raise in Es; [done|].
  intros gc1 Hgc1. by apply weights_available_window.
Qed.

(** X17. The ids being distinct, [_calculate_getis_ord] never raises
    [KeyError] or [IndexError]: every window it builds lies inside
    [GC], and for two clusters of one window [weight] finds the distance
    under one of the two key orders. *)
Theorem getis_ord_lookups_succeed hav w GC a st e :
  distinct_ids GC →
  _calculate_getis_ord hav w GC a st = Raise e →
  e ≠ KeyError ∧ e ≠ IndexError.
Proof.
  intros Hids Hrun.
  apply getis_ord_raise_kind in Hrun; [|done].
  destruct Hrun as [->|[-> _]]; done.
Qed.

Lemma getis_ord_lookups_succeed_witness :
  ZeroDivisionError ≠ KeyError ∧ ZeroDivisionError ≠ IndexError.
Proof.
  apply (getis_ord_lookups_succeed haversine 1 GC_ABC 0.05
           [fresh; fresh; fresh] ZeroDivisionError).
  - apply GC_ABC_distinct_ids.
  - apply first_window_degenerate.
    + apply GC_ABC_distinct_ids.
    + unfold window_count, len. simpl. lia.
    + left. reflexivity.
Defined.

(** ** [STHS.fit] *)

Lemma create_G_raise_kind interval trajs e :
  _create_G interval trajs = Raise e → e = ValueError.
Proof.
  intros H. destruct trajs as [|tr trajs].
  - rewrite create_G_raises in H by (by left). congruence.
  - destruct (decide (interval = 0)) as [->|Hi].
    + rewrite create_G_raises in H by (by right). congruence.
    + destruct (create_G_defined interval (tr :: trajs)) as [G HG]; [done..|].
      congruence.
Qed.

(** X18. With an estimator that returns one label per point,
    [STHS.fit] raises [ValueError] on an empty trajectory list and on a
    zero interval, and it never raises [KeyError] or [IndexError]: no
    failed look-up escapes from the labels, the distance table or the
    windows. *)
Theorem STHS_fit_raises g hav interval w trajs a :
  one_label_per_point g →
  (trajs = [] ∨ interval = 0 →
   STHS_fit g hav interval w trajs a = Raise ValueError)
  ∧ (∀ e, STHS_fit g hav interval w trajs a = Raise e →
       e ≠ KeyError ∧ e ≠ IndexError).
Proof.
  intros Hg. split.
  - intros H. unfold STHS_fit. by rewrite create_G_raises.
  - intros e Hrun.
    destruct (_create_G interval trajs) as [G|e0] eqn:HG.
    + destruct (proj1 (g_clustering_run g G) (one_label_covers g G Hg))
        as [K HK].
      destruct (STHS_fit_stages g hav interval w trajs a G K HG HK)
        as [Hids Hfit].
      rewrite Hfit in Hrun.
      apply getis_ord_raise_kind in Hrun; [|done].
      destruct Hrun as [->|[-> _]]; done.
    + unfold STHS_fit in Hrun. rewrite HG in Hrun. simpl in Hrun.
      injection Hrun as <-.
      by pose proof (create_G_raise_kind _ _ _ HG) as ->.
Qed.

(** One trajectory: one partition, one cluster, one window of a single
    cluster, on which the Gi* formula divides by zero. *)
Example STHS_fit_single :
  STHS_fit all_in_one haversine 10 1 [trajectory_at 0 0 2 5] 0.05
  = Raise ZeroDivisionError.
Proof.
  destruct (STHS_fit_stages all_in_one haversine 10 1 [trajectory_at 0 0 2 5]
              0.05 (map (partition_at 10 [trajectory_at 0 0 2 5]) [0])
              [[cluster_A]]) as [Hids ->].
  - reflexivity.
  - unfold _g_clustering. cbn [map].
    rewrite (g_clustering_step _ _ _ 0); [|done|reflexivity]. reflexivity.
  - apply first_window_degenerate; [done| |by left].
    unfold window_count, len. simpl. lia.
Qed.

Lemma STHS_fit_raises_witness :
  ([trajectory_at 0 0 2 5] = [] ∨ 10 = 0 →
   STHS_fit all_in_one haversine 10 1 [trajectory_at 0 0 2 5] 0.05
   = Raise ValueError)
  ∧ (∀ e,
       STHS_fit all_in_one haversine 10 1 [trajectory_at 0 0 2 5] 0.05
       = Raise e →
       e ≠ KeyError ∧ e ≠ IndexError).
Proof.
  apply (STHS_fit_raises all_in_one haversine 10 1 [trajectory_at 0 0 2 5]
           0.05).
  intros data. unfold all_in_one. apply length_map.
Defined.

(** ** utils.py: [display] *)

Lemma ceil_div_3 (n : Z) : 3 * (ceil_div n 3 - 1) < n ≤ 3 * ceil_div n 3.
Proof.
  unfold ceil_div.
  pose proof (Z.div_mod (- n) 3 ltac:(lia)) as Hdm.
  pose proof (Z.mod_pos_bound (- n) 3 ltac:(lia)) as Hb. lia.
Qed.

Lemma display_cells_rows (n : Z) (k : nat) :
  let cells :=
    fold_left
      (λ cells i,
         fold_left
           (λ cells j,
              let index := i * 3 + j in
              if index >=? n then cells else cells ++ [(i, j, index)])
           (range 0 3) cells)
      (range 0 (Z.of_nat k)) [] in
  map (λ c : Z * Z * Z, c.2) cells = range 0 (Z.min (3 * Z.of_nat k) n)
  ∧ Forall (λ c : Z * Z * Z,
              c.2 = c.1.1 * 3 + c.1.2 ∧ 0 ≤ c.1.2 < 3
              ∧ 0 ≤ c.1.1 < Z.of_nat k)
           cells.
Proof.
  induction k as [|k IH].
  { cbv zeta. simpl. split; [by rewrite range_nil by lia|done]. }
  rewrite Nat2Z.inj_succ, <- Z.add_1_r, range_snoc by lia.
  rewrite fold_left_app. cbv zeta in *.
  destruct IH as [Hidx Hcells].
  set (cells := fold_left _ (range 0 (Z.of_nat k)) []) in *.
  assert (Hweak : Forall (λ c : Z * Z * Z,
                            c.2 = c.1.1 * 3 + c.1.2 ∧ 0 ≤ c.1.2 < 3
                            ∧ 0 ≤ c.1.1 < Z.of_nat k + 1) cells).
  { eapply Forall_impl; [exact Hcells|]. intros c (? & ? & ?).
    split; [done|]. split; [done|]. lia. }
  set (i := Z.of_nat k) in *.
  change (range 0 3) with [0; 1; 2]. cbn [fold_left].
  rewrite !Z.add_0_r.
  destruct (i * 3 >=? n) eqn:E0; destruct (i * 3 + 1 >=? n) eqn:E1;
    destruct (i * 3 + 2 >=? n) eqn:E2; try lia.
  - split; [|done]. rewrite Hidx. f_equal. lia.
  - split.
    + rewrite map_app, Hidx. cbn [map snd].
      replace (Z.min (3 * (i + 1)) n) with (i * 3 + 1) by lia.
      replace (Z.min (3 * i) n) with (i * 3) by lia.
      by rewrite range_snoc by lia.
    + apply Forall_app. split; [done|]. repeat constructor; simpl; lia.
  - split.
    + rewrite !map_app, Hidx. cbn [map snd].
      replace (Z.min (3 * (i + 1)) n) with (i * 3 + 1 + 1) by lia.
      replace (Z.min (3 * i) n) with (i * 3) by lia.
      by rewrite !range_snoc by lia.
    + rewrite !Forall_app. split; [split; [done|]|];
        repeat constructor; simpl; lia.
  - split.
    + rewrite !map_app, Hidx. cbn [map snd].
      replace (Z.min (3 * (i + 1)) n) with (i * 3 + 1 + 1 + 1) by lia.
      replace (Z.min (3 * i) n) with (i * 3) by lia.
      rewrite !range_snoc by lia. repeat (f_equal; try lia).
    + rewrite !Forall_app. split; [split; [split; [done|]|]|];
        repeat constructor; simpl; lia.
Qed.

(** X19. For [n] windows, [display] draws every window exactly once, in
    the order of the windows, and no cell for an index at or beyond [n]:
    window [index] is drawn in row [index // 3], column [index % 3] of a
    grid of [ceil(n / 3)] rows. *)
Theorem display_cells_complete (n : Z) :
  map (λ c : Z * Z * Z, c.2) (display_cells n) = range 0 n
  ∧ Forall (λ c : Z * Z * Z,
              c.1.1 = c.2 / 3 ∧ c.1.2 = c.2 mod 3
              ∧ 0 ≤ c.1.1 < ceil_div n 3)
           (display_cells n).
Proof.
  pose proof (ceil_div_3 n) as Hrows. unfold display_cells. cbv zeta.
  destruct (Z_le_gt_dec (ceil_div n 3) 0) as [Hle|Hgt].
  - rewrite (range_nil 0 (ceil_div n 3)) by lia. simpl. split; [|done].
    by rewrite (range_nil 0 n) by lia.
  - destruct (display_cells_rows n (Z.to_nat (ceil_div n 3))) as [Hidx Hcells].
    cbv zeta in Hidx, Hcells. rewrite Z2Nat.id in Hidx, Hcells by lia.
    split.
    + rewrite Hidx. f_equal. lia.
    + eapply Forall_impl; [exact Hcells|]. intros [[i j] index]. simpl.
      intros (-> & Hj & Hi). split; [|split; [|done]].
      * apply (Z.div_unique _ 3 i j); lia.
      * apply (Z.mod_unique _ 3 i j); lia.
Qed.

Lemma tally_spots_snoc st Vj gc :
  tally_spots st (Vj ++ [gc])
  = let t := tally_spots st Vj in
    match spot_of st gc with
    | Some Hot =>
        mkTally (hx t ++ map cp_x (gc_cpoints gc))
                (hy t ++ map cp_y (gc_cpoints gc))
                (cx t) (cy t) (nx t) (ny t)
                (count_hot t + 1) (count_cold t) (count_none t)
    | Some Cold =>
        mkTally (hx t) (hy t)
                (cx t ++ map cp_x (gc_cpoints gc))
                (cy t ++ map cp_y (gc_cpoints gc))
                (nx t) (ny t)
                (count_hot t) (count_cold t + 1) (count_none t)
    | None =>
        mkTally (hx t) (hy t) (cx t) (cy t)
                (nx t ++ map cp_x (gc_cpoints gc))
                (ny t ++ map cp_y (gc_cpoints gc))
                (count_hot t) (count_cold t) (count_none t + 1)
    end.
Proof. unfold tally_spots. by rewrite fold_left_app. Qed.

(** X20. In the hot-spot branch of [display], every cluster of a window
    is counted exactly once: the numbers of hot, cold and unmarked
    clusters are those of the clusters whose spot is 'Hot', 'Cold' and
    neither, so that they add up to the size of the window; and every
    member point is plotted once, the three point lists together holding
    as many points as the clusters of the window have. *)
Theorem tally_spots_counts (st : store) (Vj : list GetisCluster) :
  let t := tally_spots st Vj in
  count_hot t = len (filter (λ gc, spot_of st gc = Some Hot) Vj)
  ∧ count_cold t = len (filter (λ gc, spot_of st gc = Some Cold) Vj)
  ∧ count_none t = len (filter (λ gc, spot_of st gc = None) Vj)
  ∧ count_hot t + count_cold t + count_none t = len Vj
  ∧ len (hx t) + len (cx t) + len (nx t)
    = sum_Z (map (λ gc, len (gc_cpoints gc)) Vj)
  ∧ len (hy t) = len (hx t) ∧ len (cy t) = len (cx t)
  ∧ len (ny t) = len (nx t).
Proof.
  cbv zeta. induction Vj as [|gc Vj IH] using rev_ind.
  - unfold len. simpl. repeat split; reflexivity.
  - destruct IH as (Hh & Hc & Hn & Hsum & Hpts & Hy1 & Hy2 & Hy3).
    rewrite tally_spots_snoc. cbv zeta.
    rewrite !filter_app, !filter_cons, !filter_nil, map_app.
    cbn [map]. rewrite sum_Z_snoc. unfold len in *. rewrite !length_app.
    destruct (spot_of st gc) as [[|]|] eqn:E; cbn [count_hot count_cold
      count_none hx hy cx cy nx ny];
      repeat match goal with
             | |- context [decide ?P] => destruct (decide P); try done
             end;
      rewrite ?length_app, ?length_map; cbn [length];
      rewrite ?Nat.add_0_r; repeat split; lia.
Qed.

Lemma count_clusters_snoc Rj cluster :
  count_clusters (Rj ++ [cluster])
  = if bool_decide (cl_c cluster ∈ count_clusters Rj) then count_clusters Rj
    else count_clusters Rj ++ [cl_c cluster].
Proof. unfold count_clusters. by rewrite fold_left_app. Qed.

(** X21. The number of clusters [display] shows for a window of [R] is
    the number of different labels among its clusters: the collected
    list holds every label of the window, and each only once. *)
Theorem count_clusters_distinct (Rj : list Cluster) :
  NoDup (count_clusters Rj)
  ∧ ∀ k, k ∈ count_clusters Rj ↔ k ∈ map cl_c Rj.
Proof.
  induction Rj as [|cluster Rj [Hnd Hin]] using rev_ind.
  - split; [constructor|done].
  - rewrite count_clusters_snoc, map_app. cbn [map].
    destruct (bool_decide (cl_c cluster ∈ count_clusters Rj)) eqn:E.
    + apply bool_decide_eq_true in E. split; [done|].
      intros k. rewrite elem_of_app, <- Hin, list_elem_of_singleton.
      split; [by left|]. intros [H| ->]; done.
    + apply bool_decide_eq_false in E. split.
      * apply NoDup_app. split; [done|]. split; [|apply NoDup_singleton].
        intros x Hx Hx'. apply list_elem_of_singleton in Hx' as ->. done.
      * intros k. by rewrite !elem_of_app, Hin.
Qed.

(** ** [ST._g_clustering]: the order of the clusters *)

Lemma first_seen_snoc labels l :
  first_seen (labels ++ [l])
  = if l =? -1 then first_seen labels
    else if bool_decide (l ∈ first_seen labels) then first_seen labels
         else first_seen labels ++ [l].
Proof. unfold first_seen. by rewrite fold_left_app. Qed.

Lemma groups_keys pairs : (groups pairs).*1 = first_seen pairs.*2.
Proof.
  induction pairs as [|[pt l] pairs IH] using rev_ind; [done|].
  rewrite groups_snoc, fmap_app. change ([(pt, l)].*2) with [l].
  rewrite first_seen_snoc. cbn [fst snd].
  destruct (l =? -1); [done|].
  rewrite dict_append_keys, IH.
  destruct (decide (l ∈ first_seen pairs.*2)) as [Hin|Hout].
  - by rewrite bool_decide_eq_true_2.
  - by rewrite bool_decide_eq_false_2.
Qed.

Lemma snd_zip_take {A B} (l : list A) (k : list B) :
  (length l ≤ length k)%nat → (zip l k).*2 = take (length l) k.
Proof.
  revert k. induction l as [|x l IH]; intros [|y k] Hlen; simpl in *;
    try done; try lia.
  f_equal. apply IH. lia.
Qed.

(** X22. In what [_g_clustering] returns, the clusters of a partition
    come in the order in which their labels first appear among the
    labels of the points of the partition (the insertion order of the
    dictionary), noise apart; with the ids counting up over the call,
    the ids inside a partition follow that order. *)
Theorem g_clustering_order g G K :
  _g_clustering g G = Ok K →
  Forall2 (λ Gj Kj,
             map cl_c Kj
             = first_seen (take (length (partition_data Gj))
                                (g (partition_data Gj))))
          G K.
Proof.
  unfold _g_clustering. intros Hrun.
  apply bind_Ok in Hrun as ([K0 id0] & Hrun & [= <-]).
  apply (for_each_inv
           (λ seen (s : list (list Cluster) * Z),
              Forall2 (λ Gj Kj,
                         map cl_c Kj
                         = first_seen (take (length (partition_data Gj))
                                            (g (partition_data Gj))))
                      seen s.1)) in Hrun; [done|constructor|].
  clear. intros seen Gj [K0 id0] [K1 id1] HF _ Hbody. cbn [fst snd] in *.
  fold (partition_data Gj) in Hbody.
  destruct (len (partition_data Gj) =? 0) eqn:E.
  - injection Hbody as <- <-. apply Forall2_app; [done|].
    constructor; [|constructor]. apply Z.eqb_eq in E. unfold len in E.
    by destruct (partition_data Gj); [|simpl in E; lia].
  - apply bind_Ok in Hbody as (clusters & Hgr & Hbody).
    apply bind_Ok in Hbody as ([Kj id'] & Hmk & [= <- <-]).
    rewrite group_by_label_spec in Hgr.
    destruct (decide _) as [Hle|]; [|done]. injection Hgr as <-.
    apply make_clusters_groups in Hmk.
    apply Forall2_app; [done|]. constructor; [|constructor].
    transitivity
      (groups (zip (partition_data Gj) (g (partition_data Gj)))).*1.
    + clear -Hmk. induction Hmk as [|kv c d Kj (Hc & _) _ IH]; [done|].
      simpl. by rewrite Hc, IH.
    + rewrite groups_keys. f_equal. by apply snd_zip_take.
Qed.

Lemma g_clustering_order_witness :
  Forall2 (λ Gj Kj,
             map cl_c Kj
             = first_seen (take (length (partition_data Gj))
                                (all_in_one (partition_data Gj))))
          (map (partition_at 10 trajs_ABC) [0; 10; 20]) K_ABC.
Proof. exact (g_clustering_order all_in_one _ _ g_clustering_ABC). Defined.

(** ** A window size of zero or less *)

Lemma window_nonpositive {A} (w : Z) (K : list (list A)) (i : Z) :
  w ≤ 0 → window w K i = Ok [].
Proof. intros Hw. unfold window. by rewrite range_nil by lia. Qed.

Lemma window_slice_nonpositive {A} (w : Z) (K : list (list A)) (i : nat) :
  w ≤ 0 → window_slice w K i = [].
Proof.
  intros Hw. unfold window_slice. by replace (Z.to_nat w) with 0%nat by lia.
Qed.

Lemma replicate_snoc {A} (n : nat) (x : A) :
  replicate (S n) x = replicate n x ++ [x].
Proof. induction n as [|n IH]; [done|]. simpl in *. by rewrite <- IH. Qed.

(** X23. A window size of zero or less is not rejected: both passes then
    run over [len(K) - w + 1] windows, more than there are partitions,
    every one of them empty. The STC pass returns that many empty lists
    in [R] and in [N] whatever the estimator and the clusters are, and
    the Gi* pass returns that many empty windows without scoring any
    cluster, whatever the significance level is. *)
Theorem nonpositive_window v hav w K GC a st :
  w ≤ 0 →
  _v_clustering v w K
  = Ok (replicate (window_count w K) [], replicate (window_count w K) [])
  ∧ _calculate_getis_ord hav w GC a st
    = Ok (replicate (window_count w GC) [], st)
  ∧ (length K < window_count w K)%nat.
Proof.
  intros Hw. split; [|split].
  - unfold _v_clustering, window_count. rewrite range_zero_to.
    generalize (Z.to_nat (len K - w + 1)) as cnt.
    induction cnt as [|cnt IH]; [done|].
    rewrite seq_S, map_app, for_each_app, IH, bind_Ok_l.
    cbn [map]. rewrite for_each_singleton.
    rewrite window_nonpositive by done. rewrite bind_Ok_l. cbv zeta.
    cbn [map zip_with len length Z.of_nat Z.eqb].
    by rewrite !replicate_snoc.
  - apply getis_ord_all_empty. intros i _. by apply window_slice_nonpositive.
  - unfold window_count, len. lia.
Qed.

Lemma nonpositive_window_witness :
  _v_clustering all_in_one 0 K_ABC
  = Ok (replicate (window_count 0 K_ABC) [],
        replicate (window_count 0 K_ABC) [])
  ∧ _calculate_getis_ord haversine 0 GC_ABC 0.5 [fresh; fresh; fresh]
    = Ok (replicate (window_count 0 GC_ABC) [], [fresh; fresh; fresh])
  ∧ (length K_ABC < window_count 0 K_ABC)%nat.
Proof.
  apply (nonpositive_window all_in_one haversine 0 K_ABC GC_ABC 0.5
           [fresh; fresh; fresh]).
  lia.
Defined.
